(** * local-persist: the volume registry of [driver.go]

    A shallow embedding of the Docker volume plugin driver: the in-memory
    name -> mountpoint map, its JSON state file, the routine that rebuilds
    the map from the Docker daemon, and the request handlers.

    Go strings are byte strings: they are modelled by [string] (a list of
    8-bit [ascii]).  The maps of the program are [gmap string string].
    Console output ([fmt.Print*]) is left out of the world. *)

From Stdlib Require Import ZArith Ascii String List Bool Lia.
From stdpp Require Import base option list gmap strings sorting.

Open Scope string_scope.
Open Scope Z_scope.

(** ** Bytes *)

Definition byte_val (c : ascii) : Z := Z.of_N (N_of_ascii c).
Definition byte_of (z : Z) : ascii := ascii_of_N (Z.to_N (z mod 256)).

Fixpoint of_bytes (l : list ascii) : string :=
  match l with
  | [] => EmptyString
  | c :: r => String c (of_bytes r)
  end.

Definition is_slash (c : ascii) : bool := Ascii.eqb c "/".
Definition is_dot (c : ascii) : bool := Ascii.eqb c ".".

(** ** Package [path] of the Go library: [Clean] and [Join] *)

Module path.

(** [r+1 == n || path[r+1] == '/'] for the text after position [r]. *)
Definition end_or_slash (rest : string) : bool :=
  match rest with
  | EmptyString => true
  | String c _ => is_slash c
  end.

(** The output buffer of [Clean] is kept as the list of its bytes, last
    byte first; [out.w] is its length. *)

(** [out.w--; for out.w > dotdot && out.index(out.w) != '/' { out.w-- }] *)
Fixpoint backtrack (out : list ascii) (dotdot : nat) : list ascii :=
  match out with
  | [] => []
  | x :: o =>
      if (Nat.ltb dotdot (length o)) && negb (is_slash x)
      then backtrack o dotdot else o
  end.

(** The main loop of [Clean], on the text still to read. *)
Fixpoint clean_loop (rooted : bool) (p : string) (out : list ascii)
    (dotdot : nat) {struct p} : list ascii :=
  match p with
  | EmptyString => out
  | String c rest =>
      if is_slash c then
        (* empty path element *)
        clean_loop rooted rest out dotdot
      else if is_dot c && end_or_slash rest then
        (* . element *)
        clean_loop rooted rest out dotdot
      else
        let dflt :=
          (* real path element: add slash if needed, copy element *)
          let out1 :=
            if (rooted && negb (Nat.eqb (length out) 1))
               || (negb rooted && negb (Nat.eqb (length out) 0))
            then "/"%char :: out else out in
          (fix copy (q : string) (o : list ascii) {struct q} : list ascii :=
             match q with
             | EmptyString => o
             | String d q' =>
                 if is_slash d then clean_loop rooted q o dotdot
                 else copy q' (d :: o)
             end) rest (c :: out1) in
        match rest with
        | String c1 rest' =>
            if is_dot c && is_dot c1 && end_or_slash rest' then
              (* .. element: remove to last / *)
              if Nat.ltb dotdot (length out) then
                clean_loop rooted rest' (backtrack out dotdot) dotdot
              else if negb rooted then
                let out1 :=
                  if Nat.ltb 0 (length out) then "/"%char :: out else out in
                let out2 := "."%char :: "."%char :: out1 in
                clean_loop rooted rest' out2 (length out2)
              else clean_loop rooted rest' out dotdot
            else dflt
        | EmptyString => dflt
        end
  end.

Definition Clean (p : string) : string :=
  match p with
  | EmptyString => "."
  | String c _ =>
      let rooted := is_slash c in
      let out :=
        if rooted then clean_loop true p ["/"%char] 1%nat
        else clean_loop false p [] 0%nat in
      match out with
      | [] => "."
      | _ => of_bytes (rev out)
      end
  end.

(** [Join(a, b)]: the elements from the first non-empty one on, joined
    with slashes and cleaned; the empty string when both are empty. *)
Definition Join (a b : string) : string :=
  match a with
  | EmptyString =>
      match b with
      | EmptyString => ""
      | String _ _ => Clean b
      end
  | String _ _ => Clean (a ++ "/" ++ b)
  end.

End path.

(** ** Package [unicode/utf8] of the Go library *)

Module utf8.

Definition RuneError : Z := 0xFFFD.
Definition MaxRune : Z := 0x10FFFF.
Definition RuneSelf : Z := 0x80.
Definition surrogateMin : Z := 0xD800.
Definition surrogateMax : Z := 0xDFFF.

Definition maskx : Z := 0x3F.
Definition mask2 : Z := 0x1F.
Definition mask3 : Z := 0x0F.
Definition mask4 : Z := 0x07.
Definition tx : Z := 0x80.
Definition t2 : Z := 0xC0.
Definition t3 : Z := 0xE0.
Definition t4 : Z := 0xF0.
Definition locb : Z := 0x80.
Definition hicb : Z := 0xBF.

(** The table [first]: information about the first byte of an encoding.
    [as] (0xF0) is ASCII, [xx] (0xF1) is invalid; otherwise the low three
    bits are the size and the high four bits index [acceptRanges]. *)
Definition first (b : Z) : Z :=
  if b <? 0x80 then 0xF0
  else if b <? 0xC2 then 0xF1
  else if b <? 0xE0 then 0x02
  else if b =? 0xE0 then 0x13
  else if b <? 0xED then 0x03
  else if b =? 0xED then 0x23
  else if b <? 0xF0 then 0x03
  else if b =? 0xF0 then 0x34
  else if b <? 0xF4 then 0x04
  else if b =? 0xF4 then 0x44
  else 0xF1.

Definition acceptRanges (i : Z) : Z * Z :=
  if i =? 1 then (0xA0, hicb)
  else if i =? 2 then (locb, 0x9F)
  else if i =? 3 then (0x90, hicb)
  else if i =? 4 then (locb, 0x8F)
  else (locb, hicb).

(** [s[i]]; only read below where [i < len(s)]. *)
Fixpoint index (s : string) (i : nat) : Z :=
  match s, i with
  | EmptyString, _ => 0
  | String c _, O => byte_val c
  | String _ r, S j => index r j
  end.

Definition len (s : string) : Z := Z.of_nat (String.length s).

(** [DecodeRuneInString]: the rune at the head of [s] and its width in
    bytes; [(RuneError, 1)] on an invalid encoding. *)
Definition DecodeRune (s : string) : Z * Z :=
  let n := len s in
  if n <? 1 then (RuneError, 0)
  else
    let s0 := index s 0 in
    let x := first s0 in
    if 0xF0 <=? x then
      (* mask is 0 for ASCII and all ones for an invalid first byte *)
      (if x =? 0xF0 then s0 else RuneError, 1)
    else
      let sz := Z.land x 7 in
      let accept := acceptRanges (Z.shiftr x 4) in
      if n <? sz then (RuneError, 1)
      else
        let s1 := index s 1 in
        if (s1 <? fst accept) || (snd accept <? s1) then (RuneError, 1)
        else if sz <=? 2 then
          (Z.lor (Z.shiftl (Z.land s0 mask2) 6) (Z.land s1 maskx), 2)
        else
          let s2 := index s 2 in
          if (s2 <? locb) || (hicb <? s2) then (RuneError, 1)
          else if sz <=? 3 then
            (Z.lor (Z.lor (Z.shiftl (Z.land s0 mask3) 12)
                          (Z.shiftl (Z.land s1 maskx) 6))
                   (Z.land s2 maskx), 3)
          else
            let s3 := index s 3 in
            if (s3 <? locb) || (hicb <? s3) then (RuneError, 1)
            else
              (Z.lor (Z.lor (Z.lor (Z.shiftl (Z.land s0 mask4) 18)
                                   (Z.shiftl (Z.land s1 maskx) 12))
                            (Z.shiftl (Z.land s2 maskx) 6))
                     (Z.land s3 maskx), 4).

(** [EncodeRune]: the UTF-8 encoding of a rune (an int32); runes out of
    range and surrogates are written as [RuneError]. *)
Definition encode3 (r : Z) : string :=
  String (byte_of (Z.lor t3 (Z.shiftr r 12)))
 (String (byte_of (Z.lor tx (Z.land (Z.shiftr r 6) maskx)))
 (String (byte_of (Z.lor tx (Z.land r maskx))) EmptyString)).

Definition EncodeRune (r : Z) : string :=
  let i := r mod 2 ^ 32 in
  if i <=? 0x7F then String (byte_of r) EmptyString
  else if i <=? 0x7FF then
    String (byte_of (Z.lor t2 (Z.shiftr r 6)))
   (String (byte_of (Z.lor tx (Z.land r maskx))) EmptyString)
  else if (MaxRune <? i) || ((surrogateMin <=? i) && (i <=? surrogateMax))
  then encode3 RuneError
  else if i <=? 0xFFFF then encode3 r
  else
    String (byte_of (Z.lor t4 (Z.shiftr r 18)))
   (String (byte_of (Z.lor tx (Z.land (Z.shiftr r 12) maskx)))
   (String (byte_of (Z.lor tx (Z.land (Z.shiftr r 6) maskx)))
   (String (byte_of (Z.lor tx (Z.land r maskx))) EmptyString))).

(** [s[n:]] for the widths 1 to 4 that [DecodeRune] returns, applied to
    the tail [t1] of [s].  It only returns parts of [t1], which lets the
    loops over a string step by whole runes. *)
Definition after_tail (size : Z) (t1 : string) : string :=
  if size <=? 1 then t1 else
  match t1 with
  | EmptyString => t1
  | String _ t2 =>
      if size <=? 2 then t2 else
      match t2 with
      | EmptyString => t2
      | String _ t3 =>
          if size <=? 3 then t3 else
          match t3 with
          | EmptyString => t3
          | String _ t4 => t4
          end
      end
  end.

(** [s[:n]] for the same widths. *)
Definition before (size : Z) (s : string) : string :=
  match s with
  | EmptyString => s
  | String c0 t1 =>
      String c0
        (if size <=? 1 then EmptyString else
         match t1 with
         | EmptyString => t1
         | String c1 t2 =>
             String c1
               (if size <=? 2 then EmptyString else
                match t2 with
                | EmptyString => t2
                | String c2 t3 =>
                    String c2
                      (if size <=? 3 then EmptyString else
                       match t3 with
                       | EmptyString => t3
                       | String c3 _ => String c3 EmptyString
                       end)
                end)
         end)
  end.

(** [utf8.ValidString]: no rune of [s] decodes to [(RuneError, 1)]. *)
Fixpoint ValidString (s : string) : bool :=
  match s with
  | EmptyString => true
  | String _ t =>
      let '(r, size) := DecodeRune s in
      if (r =? RuneError) && (size =? 1) then false
      else ValidString (after_tail size t)
  end.

End utf8.

(** ** The data of the driver *)

(** A Go [map[string]string] value: the nil map, or a map.  Reading the nil
    map gives the zero value, deleting from it does nothing, assigning to
    it panics. *)
Inductive GoMap : Type :=
  | NilMap
  | Map (m : gmap string string).

Definition entries (v : GoMap) : gmap string string :=
  match v with
  | NilMap => ∅
  | Map m => m
  end.

(** [v[k]]: the zero value [""] when the key is missing. *)
Definition index (v : GoMap) (k : string) : string :=
  default "" (entries v !! k).

(** [delete(v, k)] *)
Definition delete_key (v : GoMap) (k : string) : GoMap :=
  match v with
  | NilMap => NilMap
  | Map m => Map (delete k m)
  end.

(** [type saveData struct { State map[string]string `json:"state"` }] *)
Record saveData : Type := { State : GoMap }.

(** The error values the program meets: the two of the JSON decoder, the
    errors of the file system and those of the Docker client. *)
Inductive error : Type :=
  | SyntaxError
  | UnmarshalTypeError
  | PathError (msg : string)
  | DaemonError (msg : string).

(** [err.Error()].  The two JSON errors carry a position in Go; the
    program only ever prints them. *)
Definition Error (e : error) : string :=
  match e with
  | SyntaxError => "invalid character"
  | UnmarshalTypeError => "json: cannot unmarshal"
  | PathError msg => msg
  | DaemonError msg => msg
  end.

(** ** Package [encoding/json] of the Go library, for [saveData] *)

Module json.

(** *** Encoding *)

Definition hex (d : Z) : ascii :=
  if d <? 10 then byte_of (48 + d) else byte_of (87 + d).

(** [htmlSafeSet]: the ASCII bytes written as they are; the others are
    the control bytes, the double quote, the backslash and the three
    of [& < >]. *)
Definition htmlSafe (b : Z) : bool :=
  (0x20 <=? b) && (b <? 0x80)
  && negb ((b =? 0x22) || (b =? 0x26) || (b =? 0x3C) || (b =? 0x3E)
           || (b =? 0x5C)).

Definition backslash : ascii := byte_of 0x5C.
Definition dquote : ascii := byte_of 0x22.

(** The escape of an ASCII byte that is not in [htmlSafeSet]. *)
Definition escape_ascii (b : Z) : string :=
  if (b =? 0x5C) || (b =? 0x22) then
    String backslash (String (byte_of b) EmptyString)
  else if b =? 0x08 then String backslash "b"
  else if b =? 0x0C then String backslash "f"
  else if b =? 0x0A then String backslash "n"
  else if b =? 0x0D then String backslash "r"
  else if b =? 0x09 then String backslash "t"
  else
    String backslash
      (String "u" (String "0" (String "0"
        (String (hex (Z.shiftr b 4))
          (String (hex (Z.land b 0xF)) EmptyString))))).

(** The loop of [appendString] with [escapeHTML] set: the text between
    the quotes.  (Go before 1.22 writes the bytes 8 and 12 as [\u0008] and
    [\u000c]; they read back the same.) *)
Fixpoint escape (src : string) : string :=
  match src with
  | EmptyString => EmptyString
  | String c t =>
      let b := byte_val c in
      if b <? utf8.RuneSelf then
        if htmlSafe b then String c (escape t)
        else escape_ascii b ++ escape t
      else
        let '(r, size) := utf8.DecodeRune src in
        if (r =? utf8.RuneError) && (size =? 1) then
          String backslash "ufffd" ++ escape t
        else if (r =? 0x2028) || (r =? 0x2029) then
          String backslash "u202"
            ++ String (hex (Z.land r 0xF)) (escape (utf8.after_tail size t))
        else utf8.before size src ++ escape (utf8.after_tail size t)
  end.

Definition appendString (src : string) : string :=
  String dquote (escape src ++ String dquote EmptyString).

(** Map keys are written in increasing byte order. *)
Definition key_le (x y : string * string) : Prop :=
  Is_true (String.leb x.1 y.1).

Fixpoint members (l : list (string * string)) : string :=
  match l with
  | [] => ""
  | [(k, v)] => appendString k ++ ":" ++ appendString v
  | (k, v) :: l' =>
      appendString k ++ ":" ++ appendString v ++ "," ++ members l'
  end.

Definition encode_map (v : GoMap) : string :=
  match v with
  | NilMap => "null"
  | Map m => "{" ++ members (merge_sort key_le (map_to_list m)) ++ "}"
  end.

(** [json.Marshal(data)] for [data : saveData]; it has no error case on
    this type. *)
Definition Marshal (d : saveData) : string * option error :=
  ("{" ++ appendString "state" ++ ":" ++ encode_map (State d) ++ "}", None).

(** *** Decoding *)

(** A JSON text as the scanner reads it. *)
#[local] Unset Elimination Schemes.
Inductive value : Type :=
  | Null
  | Bool (b : bool)
  | Number (lit : string)
  | Str (s : string)
  | Array (l : list value)
  | Object (l : list (string * value)).
#[local] Set Elimination Schemes.

Definition isSpace (c : ascii) : bool :=
  let b := byte_val c in
  (b =? 0x20) || (b =? 0x09) || (b =? 0x0D) || (b =? 0x0A).

Fixpoint skip_space (s : string) : string :=
  match s with
  | EmptyString => s
  | String c t => if isSpace c then skip_space t else s
  end.

Definition hexval (c : ascii) : option Z :=
  let b := byte_val c in
  if (0x30 <=? b) && (b <=? 0x39) then Some (b - 0x30)
  else if (0x61 <=? b) && (b <=? 0x66) then Some (b - 0x61 + 10)
  else if (0x41 <=? b) && (b <=? 0x46) then Some (b - 0x41 + 10)
  else None.

(** [getu4] on the four digits after [\u]. *)
Definition getu4 (h1 h2 h3 h4 : ascii) : option Z :=
  match hexval h1, hexval h2, hexval h3, hexval h4 with
  | Some a, Some b, Some c, Some d => Some (((a * 16 + b) * 16 + c) * 16 + d)
  | _, _, _, _ => None
  end.

(** [getu4] on a text: [Some] when it starts with [\u] and four digits. *)
Definition getu4_at (s : string) : option Z :=
  match s with
  | String e (String u (String h1 (String h2 (String h3 (String h4 _))))) =>
      if Ascii.eqb e backslash && Ascii.eqb u "u" then getu4 h1 h2 h3 h4
      else None
  | _ => None
  end.

(** [utf16.DecodeRune] *)
Definition utf16_DecodeRune (r1 r2 : Z) : Z :=
  if (0xD800 <=? r1) && (r1 <? 0xDC00) && (0xDC00 <=? r2) && (r2 <? 0xE000)
  then Z.lor (Z.shiftl (r1 - 0xD800) 10) (r2 - 0xDC00) + 0x10000
  else utf8.RuneError.

Definition IsSurrogate (r : Z) : bool := (0xD800 <=? r) && (r <? 0xE000).

(** The text six bytes on, when there is one. *)
Definition skip6 (t : string) : string :=
  match t with
  | String _ (String _ (String _ (String _ (String _ (String _ t6))))) => t6
  | _ => t
  end.

Definition prepend (p : string) (r : option (string * string))
    : option (string * string) :=
  match r with
  | Some (d, rest) => Some (p ++ d, rest)
  | None => None
  end.

(** A string literal, read from just after its opening quote: the decoded
    text and what follows the closing quote.  This is the scanner's
    check of the literal together with [unquote]: escapes are decoded and
    invalid UTF-8 is replaced by U+FFFD. *)
Fixpoint unquote (s : string) : option (string * string) :=
  match s with
  | EmptyString => None
  | String c t =>
      let b := byte_val c in
      if b =? 0x22 then Some (EmptyString, t)
      else if b =? 0x5C then
        match t with
        | EmptyString => None
        | String e t1 =>
            let x := byte_val e in
            if (x =? 0x22) || (x =? 0x5C) || (x =? 0x2F) then
              prepend (String e EmptyString) (unquote t1)
            else if x =? 0x62 then
              prepend (String (byte_of 0x08) EmptyString) (unquote t1)
            else if x =? 0x66 then
              prepend (String (byte_of 0x0C) EmptyString) (unquote t1)
            else if x =? 0x6E then
              prepend (String (byte_of 0x0A) EmptyString) (unquote t1)
            else if x =? 0x72 then
              prepend (String (byte_of 0x0D) EmptyString) (unquote t1)
            else if x =? 0x74 then
              prepend (String (byte_of 0x09) EmptyString) (unquote t1)
            else if x =? 0x75 then
              match t1 with
              | String h1 (String h2 (String h3 (String h4 t5))) =>
                  match getu4 h1 h2 h3 h4 with
                  | None => None
                  | Some rr =>
                      if IsSurrogate rr then
                        let dec :=
                          match getu4_at t5 with
                          | Some rr1 => utf16_DecodeRune rr rr1
                          | None => utf8.RuneError
                          end in
                        if negb (dec =? utf8.RuneError) then
                          (* a valid pair: consume the second escape *)
                          prepend (utf8.EncodeRune dec) (unquote (skip6 t5))
                        else
                          prepend (utf8.EncodeRune utf8.RuneError)
                                  (unquote t5)
                      else prepend (utf8.EncodeRune rr) (unquote t5)
                  end
              | _ => None
              end
            else None
        end
      else if b <? 0x20 then None
      else if b <? utf8.RuneSelf then
        prepend (String c EmptyString) (unquote t)
      else
        let '(rr, size) := utf8.DecodeRune s in
        prepend (utf8.EncodeRune rr) (unquote (utf8.after_tail size t))
  end.

Fixpoint skip_digits (s : string) : string :=
  match s with
  | EmptyString => s
  | String c t =>
      if (0x30 <=? byte_val c) && (byte_val c <=? 0x39) then skip_digits t
      else s
  end.

Definition isDigit (c : ascii) : bool :=
  (0x30 <=? byte_val c) && (byte_val c <=? 0x39).

(** One or more digits. *)
Definition digits1 (s : string) : option string :=
  match s with
  | String c t => if isDigit c then Some (skip_digits t) else None
  | EmptyString => None
  end.

(** The text after a number literal that starts [s]. *)
Definition scan_number (s : string) : option string :=
  let s1 :=
    match s with
    | String c t => if Ascii.eqb c "-" then t else s
    | EmptyString => s
    end in
  let int :=
    match s1 with
    | String c t =>
        if Ascii.eqb c "0" then Some t
        else if isDigit c then Some (skip_digits t)
        else None
    | EmptyString => None
    end in
  match int with
  | None => None
  | Some s2 =>
      let frac :=
        match s2 with
        | String c t => if Ascii.eqb c "." then digits1 t else Some s2
        | EmptyString => Some s2
        end in
      match frac with
      | None => None
      | Some s3 =>
          match s3 with
          | String c t =>
              if Ascii.eqb c "e" || Ascii.eqb c "E" then
                match t with
                | String g t' =>
                    if Ascii.eqb g "+" || Ascii.eqb g "-" then digits1 t'
                    else digits1 t
                | EmptyString => None
                end
              else Some s3
          | EmptyString => Some s3
          end
      end
  end.

(** [strip p s]: what follows the prefix [p] of [s]. *)
Fixpoint strip (p s : string) : option string :=
  match p, s with
  | EmptyString, _ => Some s
  | String a p', String b s' => if Ascii.eqb a b then strip p' s' else None
  | String _ _, EmptyString => None
  end.

(** The literal [s[:len(s)-len(rest)]]. *)
Definition consumed (s rest : string) : string :=
  substring 0 (String.length s - String.length rest) s.

Fixpoint parse_value (fuel : nat) (s : string) {struct fuel}
    : option (value * string) :=
  match fuel with
  | O => None
  | S f =>
      match skip_space s with
      | EmptyString => None
      | String c t =>
          let b := byte_val c in
          if b =? 0x7B (* { *) then
            match skip_space t with
            | String c' t' =>
                if byte_val c' =? 0x7D then Some (Object [], t')
                else
                  match parse_members f (skip_space t) with
                  | Some (l, r) => Some (Object l, r)
                  | None => None
                  end
            | EmptyString => None
            end
          else if b =? 0x5B (* [ *) then
            match skip_space t with
            | String c' t' =>
                if byte_val c' =? 0x5D then Some (Array [], t')
                else
                  match parse_elements f (skip_space t) with
                  | Some (l, r) => Some (Array l, r)
                  | None => None
                  end
            | EmptyString => None
            end
          else if b =? 0x22 then
            match unquote t with
            | Some (d, r) => Some (Str d, r)
            | None => None
            end
          else if (b =? 0x2D) || isDigit c then
            match scan_number (String c t) with
            | Some r => Some (Number (consumed (String c t) r), r)
            | None => None
            end
          else if b =? 0x74 then
            match strip "true" (String c t) with
            | Some r => Some (Bool true, r)
            | None => None
            end
          else if b =? 0x66 then
            match strip "false" (String c t) with
            | Some r => Some (Bool false, r)
            | None => None
            end
          else if b =? 0x6E then
            match strip "null" (String c t) with
            | Some r => Some (Null, r)
            | None => None
            end
          else None
      end
  end

with parse_members (fuel : nat) (s : string) {struct fuel}
    : option (list (string * value) * string) :=
  match fuel with
  | O => None
  | S f =>
      match skip_space s with
      | EmptyString => None
      | String q t =>
          if byte_val q =? 0x22 then
            match unquote t with
            | None => None
            | Some (k, t1) =>
                match skip_space t1 with
                | EmptyString => None
                | String c t2 =>
                    if byte_val c =? 0x3A then
                      match parse_value f t2 with
                      | None => None
                      | Some (v, t3) =>
                          match skip_space t3 with
                          | EmptyString => None
                          | String d t4 =>
                              if byte_val d =? 0x2C then
                                match parse_members f t4 with
                                | Some (l, r) => Some ((k, v) :: l, r)
                                | None => None
                                end
                              else if byte_val d =? 0x7D then
                                Some ([(k, v)], t4)
                              else None
                          end
                      end
                    else None
                end
            end
          else None
      end
  end

with parse_elements (fuel : nat) (s : string) {struct fuel}
    : option (list value * string) :=
  match fuel with
  | O => None
  | S f =>
      match parse_value f s with
      | None => None
      | Some (v, t3) =>
          match skip_space t3 with
          | EmptyString => None
          | String d t4 =>
              if byte_val d =? 0x2C then
                match parse_elements f t4 with
                | Some (l, r) => Some (v :: l, r)
                | None => None
                end
              else if byte_val d =? 0x5D then Some ([v], t4)
              else None
          end
      end
  end.

(** [checkValid] and the scan of the one top-level value.  A value never
    needs more fuel than the text has bytes (lemma
    [parse_value_enough_fuel]).  The scanner's limit of 10000 nested
    values is not modelled. *)
Definition parse (data : string) : option value :=
  match parse_value (S (String.length data)) data with
  | Some (v, r) =>
      match skip_space r with
      | EmptyString => Some v
      | String _ _ => None
      end
  | None => None
  end.

(** The folded form of an object key, as the field lookup compares it:
    ASCII letters in upper case, and the two runes whose case orbit
    holds an ASCII letter (U+017F for S, U+212A for K) mapped to it. *)
Fixpoint foldName (s : string) : string :=
  match s with
  | EmptyString => EmptyString
  | String c t =>
      let b := byte_val c in
      if (0x61 <=? b) && (b <=? 0x7A) then String (byte_of (b - 0x20)) (foldName t)
      else
        match t with
        | String c1 t1 =>
            if (b =? 0xC5) && (byte_val c1 =? 0xBF) then String "S" (foldName t1)
            else
              match t1 with
              | String c2 t2 =>
                  if (b =? 0xE2) && (byte_val c1 =? 0x84)
                     && (byte_val c2 =? 0xAA)
                  then String "K" (foldName t2)
                  else String c (foldName t)
              | EmptyString => String c (foldName t)
              end
        | EmptyString => String c (foldName t)
        end
  end.

(** Does the key name the field [State] (tag [state])? *)
Definition is_state (key : string) : bool :=
  String.eqb key "state" || String.eqb (foldName key) "STATE".

Definition result (A : Type) : Type := A + error.

(** Store one member of the object into the map: a string is stored, a
    [null] stores the zero value, anything else is a type error. *)
Definition store_member (acc : result (gmap string string))
    (kv : string * value) : result (gmap string string) :=
  match acc with
  | inr e => inr e
  | inl m =>
      match kv.2 with
      | Str s => inl (<[kv.1 := s]> m)
      | Null => inl (<[kv.1 := ""]> m)
      | _ => inr UnmarshalTypeError
      end
  end.

(** Decode a value into a field of type [map[string]string] that holds
    [cur]: [null] sets it to nil, an object fills it (allocating it when
    nil), anything else is a type error. *)
Definition decode_map (cur : GoMap) (v : value) : result GoMap :=
  match v with
  | Null => inl NilMap
  | Object l =>
      match foldl store_member (inl (entries cur)) l with
      | inl m => inl (Map m)
      | inr e => inr e
      end
  | _ => inr UnmarshalTypeError
  end.

Definition store_field (acc : result saveData) (kv : string * value)
    : result saveData :=
  match acc with
  | inr e => inr e
  | inl d =>
      if is_state kv.1 then
        match decode_map (State d) kv.2 with
        | inl m => inl {| State := m |}
        | inr e => inr e
        end
      else inl d
  end.

(** [json.Unmarshal(data, &d)] for a zero [d : saveData]. *)
Definition Unmarshal (data : string) : result saveData :=
  match parse data with
  | None => inr SyntaxError
  | Some Null => inl {| State := NilMap |}
  | Some (Object l) => foldl store_field (inl {| State := NilMap |}) l
  | Some _ => inr UnmarshalTypeError
  end.

End json.

(** ** The plugin API ([go-plugins-helpers/volume]) and the Docker API
       ([engine-api/types]) *)

Module Request.
Record t : Type := { Name : string; Options : gmap string string }.
End Request.

Module Volume.
Record t : Type := { Name : string; Mountpoint : string }.
End Volume.

Module Response.
Record t : Type := {
  Mountpoint : string;
  Err : string;
  Volumes : list Volume.t;
  Volume : option Volume.t
}.
(** [volume.Response{}] *)
Definition zero : t :=
  {| Mountpoint := ""; Err := ""; Volumes := []; Volume := None |}.
End Response.

Module types.
Record Container : Type := { ID : string }.
Record MountPoint : Type := { Name : string; Source : string; Driver : string }.
Record ContainerJSON : Type := { Mounts : list MountPoint }.
End types.

(** ** The world the driver runs in *)

(** What the program asks of the mutex, the file system and the daemon,
    in order.  Permissions are the numbers of the octal literals. *)
Inductive event : Type :=
  | EvLock
  | EvUnlock
  | EvMkdir (dir : string) (perm : Z)
  | EvMkdirAll (dir : string) (perm : Z)
  | EvWriteFile (file : string) (data : string) (perm : Z)
  | EvReadFile (file : string)
  | EvNewClient
  | EvContainerList
  | EvContainerInspect (id : string).

(** The Docker daemon as the client sees it: whether a client can be made,
    the answer to the container listing (a list and an error, as the Go
    call returns both), and the answer to the inspection of a container. *)
Record Daemon : Type := {
  NewClient_err : option error;
  ContainerList : list types.Container * option error;
  ContainerInspect : string -> types.ContainerJSON + error
}.

(** [volumes] is the map that [driver.volumes] refers to: the methods have
    value receivers, and every copy of the struct shares this one map (and
    the one mutex).  [files] holds the contents of the regular files.  The
    remaining fields are the environment: which directories cannot be
    made, which files cannot be written or read, the daemon, and the
    colour function of the console (its result depends on the terminal).  A write
    that fails leaves [files] as it was: what such a write leaves on disk
    is not modelled. *)
Record World : Type := {
  volumes : GoMap;
  files : gmap string string;
  trace : list event;
  mkdirall_err : string -> option error;
  writefile_err : string -> option error;
  readfile_err : string -> option error;
  daemon : Daemon;
  cyan : string -> string
}.

Definition set_volumes (v : GoMap) (w : World) : World :=
  {| volumes := v; files := files w; trace := trace w;
     mkdirall_err := mkdirall_err w; writefile_err := writefile_err w;
     readfile_err := readfile_err w; daemon := daemon w; cyan := cyan w |}.

Definition set_files (f : gmap string string) (w : World) : World :=
  {| volumes := volumes w; files := f; trace := trace w;
     mkdirall_err := mkdirall_err w; writefile_err := writefile_err w;
     readfile_err := readfile_err w; daemon := daemon w; cyan := cyan w |}.

Definition log (e : event) (w : World) : World :=
  {| volumes := volumes w; files := files w; trace := trace w ++ [e];
     mkdirall_err := mkdirall_err w; writefile_err := writefile_err w;
     readfile_err := readfile_err w; daemon := daemon w; cyan := cyan w |}.

(** A computation either returns in a new world or panics in one. *)
Inductive outcome (A : Type) : Type :=
  | Done (a : A) (w : World)
  | Panicked (msg : string) (w : World).
Arguments Done {A} a w.
Arguments Panicked {A} msg w.

Definition M (A : Type) : Type := World -> outcome A.

#[global] Instance M_ret : MRet M := fun A a w => Done a w.
#[global] Instance M_bind : MBind M := fun A B f m w =>
  match m w with
  | Done a w' => f a w'
  | Panicked msg w' => Panicked msg w'
  end.

Definition panic {A : Type} (msg : string) : M A := fun w => Panicked msg w.
Definition emit (e : event) : M unit := fun w => Done tt (log e w).

(** [mutex.Lock(); defer mutex.Unlock()] around a body: the deferred call
    runs when the body returns and when it panics. *)
Definition locked {A : Type} (body : M A) : M A := fun w =>
  match body (log EvLock w) with
  | Done a w' => Done a (log EvUnlock w')
  | Panicked msg w' => Panicked msg (log EvUnlock w')
  end.

(** *** The calls to the outside *)

Definition os_Mkdir (dir : string) (perm : Z) : M unit :=
  emit (EvMkdir dir perm).

Definition os_MkdirAll (dir : string) (perm : Z) : M (option error) := fun w =>
  Done (mkdirall_err w dir) (log (EvMkdirAll dir perm) w).

Definition ioutil_WriteFile (file data : string) (perm : Z)
    : M (option error) := fun w =>
  let w1 := log (EvWriteFile file data perm) w in
  match writefile_err w file with
  | Some e => Done (Some e) w1
  | None => Done None (set_files (<[file := data]> (files w)) w1)
  end.

Definition ioutil_ReadFile (file : string) : M (string + error) := fun w =>
  let w1 := log (EvReadFile file) w in
  match readfile_err w file with
  | Some e => Done (inr e) w1
  | None =>
      match files w !! file with
      | Some data => Done (inl data) w1
      | None =>
          Done (inr (PathError
                       ("open " ++ file ++ ": no such file or directory"))) w1
      end
  end.

Definition client_NewClient : M (option error) := fun w =>
  Done (NewClient_err (daemon w)) (log EvNewClient w).

Definition cli_ContainerList : M (list types.Container * option error) := fun w =>
  Done (ContainerList (daemon w)) (log EvContainerList w).

Definition cli_ContainerInspect (id : string)
    : M (types.ContainerJSON + error) := fun w =>
  Done (ContainerInspect (daemon w) id) (log (EvContainerInspect id) w).

(** *** The map of the driver *)

Definition get_volumes : M GoMap := fun w => Done (volumes w) w.

(** [driver.volumes = v] *)
Definition put_volumes (v : GoMap) : M unit := fun w =>
  Done tt (set_volumes v w).

(** [driver.volumes[k] = v] *)
Definition assign (k v : string) : M unit := fun w =>
  match volumes w with
  | NilMap => Panicked "assignment to entry in nil map" w
  | Map m => Done tt (set_volumes (Map (<[k := v]> m)) w)
  end.

(** [delete(driver.volumes, k)] *)
Definition delete_volume (k : string) : M unit := fun w =>
  Done tt (set_volumes (delete_key (volumes w) k) w).

(** ** The driver *)

(** The fields [volumes] and [mutex] of the struct are references; what
    they refer to lives in the world.  Every method takes its receiver
    [driver] first. *)
Record localPersistDriver : Type := {
  debug : bool;
  name : string;
  baseDir : string;
  stateDir : string
}.

Definition exists_ (driver : localPersistDriver) (name : string) : M bool :=
  vols ← get_volumes;
  mret (negb (String.eqb (index vols name) "")).

Definition volume (driver : localPersistDriver) (name : string) : M Volume.t :=
  vols ← get_volumes;
  mret {| Volume.Name := name; Volume.Mountpoint := index vols name |}.

Definition saveState (driver : localPersistDriver) (volumes : GoMap)
    : M (option error) :=
  let data := {| State := volumes |} in
  let '(fileData, err) := json.Marshal data in
  match err with
  | Some e => mret (Some e)
  | None =>
      let path := path.Join (stateDir driver) (name driver ++ ".json") in
      ioutil_WriteFile path fileData 384 (* 0600 *)
  end.

Definition findExistingVolumesFromStateFile (driver : localPersistDriver)
    : M (option error * GoMap) :=
  let path := path.Join (stateDir driver) (name driver ++ ".json") in
  r ← ioutil_ReadFile path;
  match r with
  | inr err => mret (Some err, Map ∅)
  | inl fileData =>
      match json.Unmarshal fileData with
      | inr e => mret (Some e, Map ∅)
      | inl data => mret (None, State data)
      end
  end.

(** The inner loop over [info.Mounts]. *)
Definition collect_mounts (driver : localPersistDriver)
    (volumes : gmap string string) (mounts : list types.MountPoint) : gmap string string :=
  foldl (fun vols mount =>
           if String.eqb (types.Driver mount) (name driver)
           then <[types.Name mount := types.Source mount]> vols
           else vols)
        volumes mounts.

(** The loop over [containers]: an inspection that fails panics. *)
Fixpoint inspect_all (driver : localPersistDriver)
    (containers : list types.Container) (volumes : gmap string string) : M (gmap string string) :=
  match containers with
  | [] => mret volumes
  | container :: rest =>
      r ← cli_ContainerInspect (types.ID container);
      match r with
      | inr err => panic (Error err)
      | inl info =>
          inspect_all driver rest
            (collect_mounts driver volumes (types.Mounts info))
      end
  end.

Definition findExistingVolumesFromDockerDaemon (driver : localPersistDriver)
    : M (option error * GoMap) :=
  e ← client_NewClient;
  match e with
  | Some err => mret (Some err, Map ∅)
  | None =>
      '(containers, err) ← cli_ContainerList;
      volumes ← inspect_all driver containers ∅;
      if bool_decide (err ≠ None) || Nat.eqb (size volumes) 0 then
        findExistingVolumesFromStateFile driver
      else mret (None, Map volumes)
  end.

Definition Get (driver : localPersistDriver) (req : Request.t)
    : M Response.t :=
  ex ← exists_ driver (Request.Name req);
  if ex : bool then
    v ← volume driver (Request.Name req);
    mret {| Response.Mountpoint := ""; Response.Err := "";
            Response.Volumes := []; Response.Volume := Some v |}
  else
    c ← (fun w => Done (cyan w (Request.Name req)) w);
    mret {| Response.Mountpoint := "";
            Response.Err := "No volume found with the name " ++ c;
            Response.Volumes := []; Response.Volume := None |}.

(** [range] over a map visits the keys in an order Go leaves open; the
    order of [map_to_list] stands for it. *)
Definition List (driver : localPersistDriver) (req : Request.t)
    : M Response.t :=
  vols ← get_volumes;
  let volumes :=
    map (fun kv : string * string =>
           {| Volume.Name := kv.1; Volume.Mountpoint := index vols kv.1 |})
        (map_to_list (entries vols)) in
  mret {| Response.Mountpoint := ""; Response.Err := "";
          Response.Volumes := volumes; Response.Volume := None |}.

Definition Create (driver : localPersistDriver) (req : Request.t)
    : M Response.t :=
  let mountpoint := default "" (Request.Options req !! "mountpoint") in
  if String.eqb mountpoint "" then
    mret {| Response.Mountpoint := "";
            Response.Err := "The `mountpoint` option is required";
            Response.Volumes := []; Response.Volume := None |}
  else
    let realMountpoint := path.Join (baseDir driver) mountpoint in
    locked (
      ex ← exists_ driver (Request.Name req);
      if ex : bool then
        mret {| Response.Mountpoint := "";
                Response.Err :=
                  "The volume " ++ Request.Name req ++ " already exists";
                Response.Volumes := []; Response.Volume := None |}
      else
        err ← os_MkdirAll realMountpoint 493 (* 0755 *);
        match err with
        | Some e =>
            mret {| Response.Mountpoint := ""; Response.Err := Error e;
                    Response.Volumes := []; Response.Volume := None |}
        | None =>
            _ ← assign (Request.Name req) mountpoint;
            vols ← get_volumes;
            _ ← saveState driver vols;
            mret Response.zero
        end).

Definition Remove (driver : localPersistDriver) (req : Request.t)
    : M Response.t :=
  locked (
    _ ← delete_volume (Request.Name req);
    vols ← get_volumes;
    _ ← saveState driver vols;
    mret Response.zero).

Definition Path (driver : localPersistDriver) (req : Request.t)
    : M Response.t :=
  vols ← get_volumes;
  mret {| Response.Mountpoint :=
            path.Join (baseDir driver) (index vols (Request.Name req));
          Response.Err := ""; Response.Volumes := [];
          Response.Volume := None |}.

Definition Mount (driver : localPersistDriver) (req : Request.t)
    : M Response.t := Path driver req.

Definition Unmount (driver : localPersistDriver) (req : Request.t)
    : M Response.t := Path driver req.


(** [newLocalPersistDriver]: the map of the new driver is what the state
    file gives; the daemon is not asked. *)
Definition newLocalPersistDriver (name baseDir stateDir : string)
    (debug : bool) : M localPersistDriver :=
  let driver := {| debug := debug; name := name; baseDir := baseDir;
                   stateDir := stateDir |} in
  _ ← put_volumes (Map ∅);
  _ ← os_Mkdir stateDir 448 (* 0700 *);
  r ← findExistingVolumesFromStateFile driver;
  _ ← put_volumes r.2;
  mret driver.

(** * The statements: vocabulary and concrete instances *)

Definition world_of {A : Type} (o : outcome A) : World :=
  match o with
  | Done _ w => w
  | Panicked _ w => w
  end.

(** The value a computation returns; [None] when it panics. *)
Definition result_of {A : Type} (o : outcome A) : option A :=
  match o with
  | Done a _ => Some a
  | Panicked _ _ => None
  end.

(** The responses the handlers build. *)
Definition failure (msg : string) : Response.t :=
  {| Response.Mountpoint := ""; Response.Err := msg;
     Response.Volumes := []; Response.Volume := None |}.

Definition MissingRequiredOption : Response.t :=
  failure "The `mountpoint` option is required".

Definition AlreadyExists (name : string) : Response.t :=
  failure ("The volume " ++ name ++ " already exists").

Definition NotFound (w : World) (name : string) : Response.t :=
  failure ("No volume found with the name " ++ cyan w name).

Definition Found (name mountpoint : string) : Response.t :=
  {| Response.Mountpoint := ""; Response.Err := "";
     Response.Volumes := [];
     Response.Volume :=
       Some {| Volume.Name := name; Volume.Mountpoint := mountpoint |} |}.

Definition Resolved (dir : string) : Response.t :=
  {| Response.Mountpoint := dir; Response.Err := "";
     Response.Volumes := []; Response.Volume := None |}.

(** [req.Options["mountpoint"]] *)
Definition mountpoint_of (req : Request.t) : string :=
  default "" (Request.Options req !! "mountpoint").

(** The path of the state file, as [saveState] and
    [findExistingVolumesFromStateFile] both compute it. *)
Definition statefile (driver : localPersistDriver) : string :=
  path.Join (stateDir driver) (name driver ++ ".json").

Definition request (n : string) (opts : gmap string string) : Request.t :=
  {| Request.Name := n; Request.Options := opts |}.

(** The world with more events in its trace. *)
Definition extend (es : list event) (w : World) : World :=
  {| volumes := volumes w; files := files w; trace := trace w ++ es;
     mkdirall_err := mkdirall_err w; writefile_err := writefile_err w;
     readfile_err := readfile_err w; daemon := daemon w; cyan := cyan w |}.

(** The mounts of the containers in the order the loops of
    [findExistingVolumesFromDockerDaemon] visit them; [None] when an
    inspection fails. *)
Fixpoint inspections (d : Daemon) (containers : list types.Container)
    : option (list types.MountPoint) :=
  match containers with
  | [] => Some []
  | c :: rest =>
      match ContainerInspect d (types.ID c) with
      | inl info =>
          match inspections d rest with
          | Some l => Some (types.Mounts info ++ l)%list
          | None => None
          end
      | inr _ => None
      end
  end.

(** The strings of a map are valid UTF-8. *)
Definition valid_map (v : GoMap) : Prop :=
  map_Forall (fun k x => utf8.ValidString k = true
                         ∧ utf8.ValidString x = true)
             (entries v).

(** What [first] says of a lead byte: not ASCII, the width, the range of
    the second byte. *)
Definition lead (b sz lo hi : Z) : Prop :=
  (0xF0 <=? utf8.first b) = false ∧ Z.land (utf8.first b) 7 = sz
  ∧ utf8.acceptRanges (Z.shiftr (utf8.first b) 4) = (lo, hi).

(** A rune of two to four bytes at the head of [String c t]: [pre] holds
    its bytes after the first. *)
Definition rune_at (c : ascii) (t : string) (r size : Z) (pre : string)
    : Prop :=
  t = pre ++ utf8.after_tail size t
  ∧ utf8.before size (String c t) = String c pre
  ∧ utf8.EncodeRune r = String c pre
  ∧ (∀ X, utf8.DecodeRune (String c (pre ++ X)) = (r, size))
  ∧ (∀ X, utf8.after_tail size (pre ++ X) = X).

(** One ASCII byte as [json.escape] writes it. *)
Definition escape_unit (c : ascii) : string :=
  if json.htmlSafe (byte_val c) then String c EmptyString
  else json.escape_ascii (byte_val c).

Definition valid_pair (kv : string * string) : Prop :=
  utf8.ValidString kv.1 = true ∧ utf8.ValidString kv.2 = true.

Definition as_member (kv : string * string) : string * json.value :=
  (kv.1, json.Str kv.2).

(** *** Concrete drivers, daemons and worlds *)

Definition the_driver : localPersistDriver :=
  {| debug := false; name := "local-persist"; baseDir := "/mnt/base";
     stateDir := "/var/lib/docker/plugin-data/" |}.

(** The same driver with a base directory that ends in a slash. *)
Definition slash_driver : localPersistDriver :=
  {| debug := false; name := "local-persist"; baseDir := "/mnt/base/";
     stateDir := "/var/lib/docker/plugin-data/" |}.

Definition quiet_daemon : Daemon :=
  {| NewClient_err := None; ContainerList := ([], None);
     ContainerInspect := fun _ => inr (DaemonError "No such container") |}.

Definition mount (n src drv : string) : types.MountPoint :=
  {| types.Name := n; types.Source := src; types.Driver := drv |}.

(** Two containers that mount [vol1] from different sources. *)
Definition busy_daemon : Daemon :=
  {| NewClient_err := None;
     ContainerList := ([ {| types.ID := "c1" |}; {| types.ID := "c2" |} ], None);
     ContainerInspect := fun id =>
       if String.eqb id "c1" then
         inl {| types.Mounts := [ mount "vol1" "/mnt/base/a" "local-persist";
                                  mount "" "/etc/hosts" "" ] |}
       else if String.eqb id "c2" then
         inl {| types.Mounts := [ mount "vol1" "/mnt/base/b" "local-persist";
                                  mount "other" "/var/x" "local" ] |}
       else inr (DaemonError "No such container") |}.

(** A container that is listed and gone when it is inspected. *)
Definition racing_daemon : Daemon :=
  {| NewClient_err := None;
     ContainerList := ([ {| types.ID := "c1" |} ], None);
     ContainerInspect := fun _ => inr (DaemonError "No such container: c1") |}.

Definition unreachable_daemon : Daemon :=
  {| NewClient_err := Some (DaemonError "unable to parse docker host");
     ContainerList := ([], None);
     ContainerInspect := fun _ => inr (DaemonError "No such container") |}.

Definition world (vols : GoMap) (fs : gmap string string) (d : Daemon)
    (write_err : option error) : World :=
  {| volumes := vols; files := fs; trace := [];
     mkdirall_err := fun _ => None; writefile_err := fun _ => write_err;
     readfile_err := fun _ => None; daemon := d; cyan := fun s => s |}.

Definition fresh_world : World := world (Map ∅) ∅ quiet_daemon None.

Definition vol1_request : Request.t :=
  request "vol1" {[ "mountpoint" := "data/vol1" ]}.

(** The world after [vol1] was created in the fresh one. *)
Definition vol1_world : World :=
  world_of (Create the_driver vol1_request fresh_world).

(** A world whose state file cannot be written. *)
Definition readonly_world : World :=
  world (Map {[ "old" := "data/old" ]}) ∅ quiet_daemon
        (Some (PathError "read-only file system")).

(** A world whose map holds a name with the empty mountpoint. *)
Definition blank_entry_world : World :=
  world (Map {[ "vol1" := "" ]}) ∅ quiet_daemon None.

Definition saved_B : gmap string string := {[ "B" := "/p2" ]}.

(** A world whose state file holds [saved_B]. *)
Definition snapshot_world (d : Daemon) : World :=
  world (Map ∅)
        {[ statefile the_driver
             := (json.Marshal {| State := Map saved_B |}).1 ]}
        d None.

(** A mountpoint that is one byte, 0xFF: not valid UTF-8. *)
Definition broken_map : GoMap :=
  Map {[ "vol1" := String (byte_of 0xFF) EmptyString ]}.

(** The same with U+FFFD (the bytes EF BF BD) in its place. *)
Definition replaced_map : GoMap :=
  Map {[ "vol1" := String (byte_of 0xEF) (String (byte_of 0xBF)
                     (String (byte_of 0xBD) EmptyString)) ]}.

(** *** The worlds the handlers leave *)

(** The world [w] after a run that left the map [v] and the files [f] and
    added the events [es]; the environment is that of [w]. *)
Definition after (v : GoMap) (f : gmap string string) (es : list event)
    (w : World) : World :=
  {| volumes := v; files := f; trace := trace w ++ es;
     mkdirall_err := mkdirall_err w; writefile_err := writefile_err w;
     readfile_err := readfile_err w; daemon := daemon w; cyan := cyan w |}.

(** The text [saveState] writes for a map. *)
Definition snapshot (v : GoMap) : string :=
  (json.Marshal {| State := v |}).1.

(** The files once [saveState] was asked to write [v]. *)
Definition flushed (driver : localPersistDriver) (v : GoMap) (w : World)
    : gmap string string :=
  match writefile_err w (statefile driver) with
  | Some _ => files w
  | None => <[statefile driver := snapshot v]> (files w)
  end.

(** The directory [Create] makes for a request. *)
Definition realMountpoint (driver : localPersistDriver) (req : Request.t)
    : string :=
  path.Join (baseDir driver) (mountpoint_of req).

(** The events of a [Create] that stores its volume in the map [v]. *)
Definition create_events (driver : localPersistDriver) (req : Request.t)
    (v : GoMap) : list event :=
  [EvLock; EvMkdirAll (realMountpoint driver req) 493;
   EvWriteFile (statefile driver) (snapshot v) 384; EvUnlock].

(** The events of a [Remove] that leaves the map [v]. *)
Definition remove_events (driver : localPersistDriver) (v : GoMap)
    : list event :=
  [EvLock; EvWriteFile (statefile driver) (snapshot v) 384; EvUnlock].

(** The state file holds the map of the driver. *)
Definition in_sync (driver : localPersistDriver) (w : World) : Prop :=
  files w !! statefile driver = Some (snapshot (volumes w)).

(** No name of the map has the empty mountpoint. *)
Definition no_blank (v : GoMap) : Prop :=
  map_Forall (fun _ x => x ≠ "") (entries v).

(** The volume [n] at the mountpoint [mp]. *)
Definition vol (n mp : string) : Volume.t :=
  {| Volume.Name := n; Volume.Mountpoint := mp |}.

(** The response of [List] with the volumes [vs]. *)
Definition Listing (vs : list Volume.t) : Response.t :=
  {| Response.Mountpoint := ""; Response.Err := "";
     Response.Volumes := vs; Response.Volume := None |}.

(** The load of the state file fails: the file cannot be read, is not
    there, or does not hold what [json.Unmarshal] accepts. *)
Definition load_fails (driver : localPersistDriver) (w : World) : Prop :=
  readfile_err w (statefile driver) ≠ None
  ∨ files w !! statefile driver = None
  ∨ ∃ data e, files w !! statefile driver = Some data
              ∧ json.Unmarshal data = inr e.

(** The start of the program with the settings of [driver]. *)
Definition restart (driver : localPersistDriver) : M localPersistDriver :=
  newLocalPersistDriver (name driver) (baseDir driver) (stateDir driver)
    (debug driver).


(** A world whose state file is not JSON. *)
Definition garbled_world : World :=
  world (Map ∅) {[ statefile the_driver := "{state" ]} quiet_daemon None.

(** The events that only ask: of the daemon, or for the state file. *)
Definition is_query (e : event) : bool :=
  match e with
  | EvNewClient | EvContainerList | EvContainerInspect _ | EvReadFile _ => true
  | _ => false
  end.

Definition is_read (e : event) : bool :=
  match e with
  | EvReadFile _ => true
  | _ => false
  end.

(** A mount of the volume [n] from [src] by this driver. *)
Definition mounts_volume (driver : localPersistDriver) (n src : string)
    (m : types.MountPoint) : Prop :=
  types.Driver m = name driver ∧ types.Name m = n ∧ types.Source m = src.

(** A string after a pass through [json.Marshal] and [json.Unmarshal]:
    the runes of valid UTF-8 are kept, and every other byte becomes
    U+FFFD.  (The loop is that of [json.escape].) *)
Fixpoint repaired (s : string) : string :=
  match s with
  | EmptyString => EmptyString
  | String c t =>
      if byte_val c <? utf8.RuneSelf then String c (repaired t)
      else
        let '(r, size) := utf8.DecodeRune s in
        if (r =? utf8.RuneError) && (size =? 1)
        then utf8.EncodeRune utf8.RuneError ++ repaired t
        else utf8.before size s ++ repaired (utf8.after_tail size t)
  end.

Definition as_repaired (kv : string * string) : string * json.value :=
  (repaired kv.1, json.Str (repaired kv.2)).

(** A map read back from the text [json.Marshal] wrote for it: the
    entries are stored in the order of the text. *)
Definition reloaded (v : GoMap) : GoMap :=
  match v with
  | NilMap => NilMap
  | Map m =>
      Map (foldl (fun acc kv => <[repaired kv.1 := repaired kv.2]> acc) ∅
                 (merge_sort json.key_le (map_to_list m)))
  end.

(** [n] times the element [..], each followed by a slash. *)
Fixpoint dotdots (n : nat) : string :=
  match n with
  | O => ""
  | S k => ".." ++ "/" ++ dotdots k
  end.

(** *** Requests served one after another *)

(** The calls of the plugin interface that the driver implements. *)
Inductive call : Type :=
  | CallCreate
  | CallRemove
  | CallGet
  | CallList
  | CallPath
  | CallMount
  | CallUnmount.

Definition handler (c : call)
    : localPersistDriver → Request.t → M Response.t :=
  match c with
  | CallCreate => Create
  | CallRemove => Remove
  | CallGet => Get
  | CallList => List
  | CallPath => Path
  | CallMount => Mount
  | CallUnmount => Unmount
  end.

(** The driver serves the requests in order; a panic ends the run. *)
Fixpoint serve (driver : localPersistDriver)
    (calls : list (call * Request.t)) : M (list Response.t) :=
  match calls with
  | [] => mret []
  | (c, req) :: rest =>
      r ← handler c driver req;
      rs ← serve driver rest;
      mret (r :: rs)
  end.

(** No call of the list creates the name [n]. *)
Definition never_created (n : string) (calls : list (call * Request.t))
    : Prop :=
  Forall (fun cr : call * Request.t =>
            cr.1 = CallCreate → Request.Name cr.2 ≠ n) calls.

(** * Proofs *)

(** ** Bytes and bit arithmetic *)

Lemma byte_val_range (c : ascii) : 0 ≤ byte_val c < 256.
Proof.
  unfold byte_val. pose proof (N_ascii_bounded c) as H. lia.
Qed.

Lemma byte_of_val (c : ascii) : byte_of (byte_val c) = c.
Proof.
  unfold byte_of, byte_val. pose proof (N_ascii_bounded c) as H.
  rewrite Z.mod_small by lia. rewrite N2Z.id. apply ascii_N_embedding.
Qed.

Lemma byte_val_of (z : Z) : 0 ≤ z < 256 → byte_val (byte_of z) = z.
Proof.
  intros H. unfold byte_of, byte_val. rewrite Z.mod_small by lia.
  rewrite N_ascii_embedding by lia. lia.
Qed.

Lemma byte_of_eq (z : Z) (c : ascii) : z = byte_val c → byte_of z = c.
Proof. intros ->. apply byte_of_val. Qed.

(** [hi << k | lo] adds when [lo] fits in [k] bits. *)
Lemma lor_shiftl_add (hi lo k : Z) :
  0 ≤ k → 0 ≤ lo < 2 ^ k → Z.lor (Z.shiftl hi k) lo = hi * 2 ^ k + lo.
Proof.
  intros Hk Hlo.
  assert (H0 : Z.land (Z.shiftl hi k) lo = 0).
  { apply Z.bits_inj'; intros n Hn. rewrite Z.land_spec, Z.bits_0.
    destruct (Z.lt_ge_cases n k) as [Hlt|Hge].
    - rewrite Z.shiftl_spec_low by lia. reflexivity.
    - destruct (Z.eq_dec lo 0) as [->|Hne];
        [rewrite Z.bits_0; apply andb_false_r|].
      rewrite (Z.bits_above_log2 lo n); [apply andb_false_r | lia |].
      apply Z.lt_le_trans with k; [|lia]. apply Z.log2_lt_pow2; lia. }
  rewrite <- (Z.lxor_lor _ _ H0), <- (Z.add_nocarry_lxor _ _ H0).
  rewrite Z.shiftl_mul_pow2 by lia. reflexivity.
Qed.

Lemma lor_const_add (c lo k : Z) :
  0 ≤ k → 0 ≤ lo < 2 ^ k → c mod 2 ^ k = 0 → Z.lor c lo = c + lo.
Proof.
  intros Hk Hlo Hc.
  replace c with (Z.shiftl (c / 2 ^ k) k) at 1.
  - rewrite lor_shiftl_add by lia.
    pose proof (Z.div_mod c (2 ^ k)). lia.
  - rewrite Z.shiftl_mul_pow2 by lia. pose proof (Z.div_mod c (2 ^ k)). lia.
Qed.

Lemma land_mask (a k m : Z) :
  0 ≤ k → m = 2 ^ k - 1 → Z.land a m = a mod 2 ^ k.
Proof.
  intros Hk ->. rewrite <- Z.land_ones by lia. f_equal.
  rewrite Z.ones_equiv. lia.
Qed.

Ltac masks :=
  repeat match goal with
  | |- context [Z.land ?a 0x3F] => rewrite (land_mask a 6 0x3F) by (lia || reflexivity)
  | |- context [Z.land ?a 0x1F] => rewrite (land_mask a 5 0x1F) by (lia || reflexivity)
  | |- context [Z.land ?a 0x0F] => rewrite (land_mask a 4 0x0F) by (lia || reflexivity)
  | |- context [Z.land ?a 0x07] => rewrite (land_mask a 3 0x07) by (lia || reflexivity)
  end.

Lemma append_cons (c : ascii) (s x : string) :
  String c s ++ x = String c (s ++ x).
Proof. reflexivity. Qed.

Lemma append_nil (x : string) : "" ++ x = x.
Proof. reflexivity. Qed.

Ltac norm_app := repeat (rewrite append_cons || rewrite append_nil).

Ltac bad_rune Hd Hv :=
  injection Hd as <- <-; exfalso; apply Hv; split; reflexivity.

(** ** Paths: a trailing slash does not change [Clean] *)

Lemma end_or_slash_trailing (rest : string) :
  path.end_or_slash (rest ++ "/") = path.end_or_slash rest.
Proof. destruct rest; reflexivity. Qed.

Lemma clean_loop_trailing_slash (rooted : bool) (n : nat) :
  ∀ (p : string) (out : list ascii) (dotdot : nat),
    (String.length p ≤ n)%nat →
    path.clean_loop rooted (p ++ "/") out dotdot
    = path.clean_loop rooted p out dotdot.
Proof.
  induction n as [|n IH]; intros p out dotdot Hlen.
  { destruct p; [reflexivity | cbn in Hlen; lia]. }
  destruct p as [|c rest]; [reflexivity|].
  cbn [String.length] in Hlen. rewrite append_cons.
  cbn [path.clean_loop]. rewrite end_or_slash_trailing.
  destruct (is_slash c); [apply IH; lia|].
  destruct (is_dot c && path.end_or_slash rest); [apply IH; lia|].
  set (out1 := if (rooted && negb (Nat.eqb (length out) 1))
                  || (negb rooted && negb (Nat.eqb (length out) 0))
               then "/"%char :: out else out).
  assert (Hcopy : ∀ (q : string) (o : list ascii),
    (String.length q ≤ n)%nat →
    (fix copy (q : string) (o : list ascii) {struct q} : list ascii :=
       match q with
       | EmptyString => o
       | String d q' =>
           if is_slash d then path.clean_loop rooted q o dotdot
           else copy q' (d :: o)
       end) (q ++ "/") o
    = (fix copy (q : string) (o : list ascii) {struct q} : list ascii :=
       match q with
       | EmptyString => o
       | String d q' =>
           if is_slash d then path.clean_loop rooted q o dotdot
           else copy q' (d :: o)
       end) q o).
  { induction q as [|d q IHq]; intros o Hq; [reflexivity|].
    cbn [String.length] in Hq. rewrite append_cons.
    cbn beta iota fix. destruct (is_slash d).
    - rewrite <- append_cons. apply IH. cbn. lia.
    - apply IHq. lia. }
  destruct rest as [|c1 rest'].
  - rewrite append_nil. destruct (is_dot c); reflexivity.
  - rewrite append_cons. rewrite end_or_slash_trailing.
    cbn [String.length] in Hlen.
    destruct (is_dot c && is_dot c1 && path.end_or_slash rest').
    + destruct (Nat.ltb dotdot (length out)); [apply IH; lia|].
      destruct (negb rooted); apply IH; lia.
    + destruct (is_slash c1).
      * rewrite <- append_cons. apply IH. cbn. lia.
      * apply Hcopy. lia.
Qed.

Lemma Clean_trailing_slash (a : string) :
  a ≠ "" → path.Clean (a ++ "/") = path.Clean a.
Proof.
  destruct a as [|c t]; [done|]. intros _. unfold path.Clean.
  rewrite append_cons.
  rewrite <- !append_cons.
  rewrite !(clean_loop_trailing_slash _ (String.length (String c t)))
    by lia.
  reflexivity.
Qed.

(** [Join] with an empty second element cleans the first. *)
Lemma Join_empty (a : string) :
  path.Join a "" = if String.eqb a "" then "" else path.Clean a.
Proof.
  destruct a as [|c t]; [reflexivity|]. unfold path.Join.
  change (String c t ++ "/" ++ "") with (String c t ++ "/").
  rewrite Clean_trailing_slash by done. reflexivity.
Qed.

(** ** UTF-8: a valid rune is written back as it was read *)

Section Utf8Facts.
Import utf8.

(** The value of a rune assembled from its bytes. *)
Lemma rune2_value (s0 s1 : Z) :
  0xC0 ≤ s0 ≤ 0xDF → 0x80 ≤ s1 ≤ 0xBF →
  Z.lor (Z.shiftl (Z.land s0 mask2) 6) (Z.land s1 maskx)
  = (s0 - 0xC0) * 64 + (s1 - 0x80).
Proof.
  intros H0 H1. unfold mask2, maskx. masks.
  change (2 ^ 5) with 32. change (2 ^ 6) with 64.
  replace (s0 mod 32) with (s0 - 0xC0) by (Z.div_mod_to_equations; lia).
  replace (s1 mod 64) with (s1 - 0x80) by (Z.div_mod_to_equations; lia).
  rewrite lor_shiftl_add; [|lia|change (2 ^ 6) with 64; lia].
  reflexivity.
Qed.

Lemma rune3_value (s0 s1 s2 : Z) :
  0xE0 ≤ s0 ≤ 0xEF → 0x80 ≤ s1 ≤ 0xBF → 0x80 ≤ s2 ≤ 0xBF →
  Z.lor (Z.lor (Z.shiftl (Z.land s0 mask3) 12)
               (Z.shiftl (Z.land s1 maskx) 6))
        (Z.land s2 maskx)
  = (s0 - 0xE0) * 4096 + (s1 - 0x80) * 64 + (s2 - 0x80).
Proof.
  intros H0 H1 H2. unfold mask3, maskx. masks.
  rewrite !Z.shiftl_mul_pow2 by lia.
  change (2 ^ 4) with 16. change (2 ^ 6) with 64. change (2 ^ 12) with 4096.
  replace (s0 mod 16) with (s0 - 0xE0) by (Z.div_mod_to_equations; lia).
  replace (s1 mod 64) with (s1 - 0x80) by (Z.div_mod_to_equations; lia).
  replace (s2 mod 64) with (s2 - 0x80) by (Z.div_mod_to_equations; lia).
  rewrite (lor_const_add ((s0 - 0xE0) * 4096) ((s1 - 0x80) * 64) 12);
    [|lia| change (2 ^ 12) with 4096; lia
     | change (2 ^ 12) with 4096; Z.div_mod_to_equations; lia].
  rewrite (lor_const_add _ (s2 - 0x80) 6);
    [|lia| change (2 ^ 6) with 64; lia
     | change (2 ^ 6) with 64; Z.div_mod_to_equations; lia].
  reflexivity.
Qed.

Lemma rune4_value (s0 s1 s2 s3 : Z) :
  0xF0 ≤ s0 ≤ 0xF7 → 0x80 ≤ s1 ≤ 0xBF → 0x80 ≤ s2 ≤ 0xBF →
  0x80 ≤ s3 ≤ 0xBF →
  Z.lor (Z.lor (Z.lor (Z.shiftl (Z.land s0 mask4) 18)
                      (Z.shiftl (Z.land s1 maskx) 12))
               (Z.shiftl (Z.land s2 maskx) 6))
        (Z.land s3 maskx)
  = (s0 - 0xF0) * 262144 + (s1 - 0x80) * 4096 + (s2 - 0x80) * 64
    + (s3 - 0x80).
Proof.
  intros H0 H1 H2 H3. unfold mask4, maskx. masks.
  rewrite !Z.shiftl_mul_pow2 by lia.
  change (2 ^ 3) with 8. change (2 ^ 6) with 64. change (2 ^ 12) with 4096.
  change (2 ^ 18) with 262144.
  replace (s0 mod 8) with (s0 - 0xF0) by (Z.div_mod_to_equations; lia).
  replace (s1 mod 64) with (s1 - 0x80) by (Z.div_mod_to_equations; lia).
  replace (s2 mod 64) with (s2 - 0x80) by (Z.div_mod_to_equations; lia).
  replace (s3 mod 64) with (s3 - 0x80) by (Z.div_mod_to_equations; lia).
  rewrite (lor_const_add ((s0 - 0xF0) * 262144) ((s1 - 0x80) * 4096) 18);
    [|lia| change (2 ^ 18) with 262144; lia
     | change (2 ^ 18) with 262144; Z.div_mod_to_equations; lia].
  rewrite (lor_const_add _ ((s2 - 0x80) * 64) 12);
    [|lia| change (2 ^ 12) with 4096; lia
     | change (2 ^ 12) with 4096; Z.div_mod_to_equations; lia].
  rewrite (lor_const_add _ (s3 - 0x80) 6);
    [|lia| change (2 ^ 6) with 64; lia
     | change (2 ^ 6) with 64; Z.div_mod_to_equations; lia].
  reflexivity.
Qed.

(** A lead byte or a continuation byte written back from its payload. *)
Lemma tag_lor (tag payload k : Z) :
  0 ≤ k → 0 ≤ payload < 2 ^ k → tag mod 2 ^ k = 0 →
  Z.lor tag payload = tag + payload.
Proof. apply lor_const_add. Qed.

Lemma cont_byte (r d : Z) :
  0 ≤ r → 0 ≤ d →
  Z.lor tx (Z.land (Z.shiftr r d) maskx) = 0x80 + (r / 2 ^ d) mod 64.
Proof.
  intros Hr Hd. unfold tx, maskx. masks.
  rewrite Z.shiftr_div_pow2 by lia. change (2 ^ 6) with 64.
  apply (tag_lor _ _ 7); [lia| |reflexivity].
  change (2 ^ 7) with 128. Z.div_mod_to_equations. lia.
Qed.

Lemma cont_byte0 (r : Z) :
  0 ≤ r → Z.lor tx (Z.land r maskx) = 0x80 + r mod 64.
Proof.
  intros Hr. unfold tx, maskx. masks.
  change (2 ^ 6) with 64.
  apply (tag_lor _ _ 7); [lia| |reflexivity].
  change (2 ^ 7) with 128. Z.div_mod_to_equations. lia.
Qed.

Lemma EncodeRune2 (c0 c1 : ascii) :
  0xC2 ≤ byte_val c0 ≤ 0xDF → 0x80 ≤ byte_val c1 ≤ 0xBF →
  EncodeRune ((byte_val c0 - 0xC0) * 64 + (byte_val c1 - 0x80))
  = String c0 (String c1 EmptyString).
Proof.
  intros H0 H1. set (r := (byte_val c0 - 0xC0) * 64 + (byte_val c1 - 0x80)).
  assert (Hr : 0x80 ≤ r ≤ 0x7FF) by (unfold r; lia).
  unfold EncodeRune. rewrite (Z.mod_small r) by lia.
  rewrite (proj2 (Z.leb_gt _ _)) by lia.
  rewrite (proj2 (Z.leb_le _ _)) by lia.
  rewrite (cont_byte0 r) by lia.
  rewrite (tag_lor t2 _ 6);
    [| lia
     | rewrite Z.shiftr_div_pow2 by lia; change (2 ^ 6) with 64;
       Z.div_mod_to_equations; lia
     | reflexivity].
  rewrite Z.shiftr_div_pow2 by lia. change (2 ^ 6) with 64. unfold t2.
  f_equal; [|f_equal]; apply byte_of_eq; unfold r;
    Z.div_mod_to_equations; lia.
Qed.

Lemma EncodeRune3 (c0 c1 c2 : ascii) :
  0xE0 ≤ byte_val c0 ≤ 0xEF → 0x80 ≤ byte_val c1 ≤ 0xBF →
  0x80 ≤ byte_val c2 ≤ 0xBF →
  (byte_val c0 = 0xE0 → 0xA0 ≤ byte_val c1) →
  (byte_val c0 = 0xED → byte_val c1 ≤ 0x9F) →
  EncodeRune ((byte_val c0 - 0xE0) * 4096 + (byte_val c1 - 0x80) * 64
              + (byte_val c2 - 0x80))
  = String c0 (String c1 (String c2 EmptyString)).
Proof.
  intros H0 H1 H2 Hlo Hhi.
  set (r := (byte_val c0 - 0xE0) * 4096 + (byte_val c1 - 0x80) * 64
            + (byte_val c2 - 0x80)).
  assert (Hr : 0x800 ≤ r ≤ 0xFFFF) by (unfold r; lia).
  assert (Hs : r < 0xD800 ∨ 0xDFFF < r) by (unfold r; lia).
  unfold EncodeRune. rewrite (Z.mod_small r) by lia.
  rewrite (proj2 (Z.leb_gt r 0x7F)) by lia.
  rewrite (proj2 (Z.leb_gt r 0x7FF)) by lia.
  unfold MaxRune, surrogateMin, surrogateMax.
  rewrite (proj2 (Z.ltb_ge _ _)) by lia. cbn [orb].
  replace ((0xD800 <=? r) && (r <=? 0xDFFF)) with false
    by (symmetry; apply andb_false_iff; rewrite Z.leb_gt, Z.leb_gt; lia).
  rewrite (proj2 (Z.leb_le r 0xFFFF)) by lia.
  unfold encode3. rewrite (cont_byte r 6), (cont_byte0 r) by lia.
  rewrite (tag_lor t3 _ 5);
    [| lia
     | rewrite Z.shiftr_div_pow2 by lia; change (2 ^ 12) with 4096;
       change (2 ^ 5) with 32; Z.div_mod_to_equations; lia
     | reflexivity].
  rewrite Z.shiftr_div_pow2 by lia. change (2 ^ 12) with 4096.
  change (2 ^ 6) with 64. unfold t3.
  f_equal; [|f_equal; [|f_equal]]; apply byte_of_eq; unfold r;
    Z.div_mod_to_equations; lia.
Qed.

Lemma EncodeRune4 (c0 c1 c2 c3 : ascii) :
  0xF0 ≤ byte_val c0 ≤ 0xF4 → 0x80 ≤ byte_val c1 ≤ 0xBF →
  0x80 ≤ byte_val c2 ≤ 0xBF → 0x80 ≤ byte_val c3 ≤ 0xBF →
  (byte_val c0 = 0xF0 → 0x90 ≤ byte_val c1) →
  (byte_val c0 = 0xF4 → byte_val c1 ≤ 0x8F) →
  EncodeRune ((byte_val c0 - 0xF0) * 262144 + (byte_val c1 - 0x80) * 4096
              + (byte_val c2 - 0x80) * 64 + (byte_val c3 - 0x80))
  = String c0 (String c1 (String c2 (String c3 EmptyString))).
Proof.
  intros H0 H1 H2 H3 Hlo Hhi.
  set (r := (byte_val c0 - 0xF0) * 262144 + (byte_val c1 - 0x80) * 4096
            + (byte_val c2 - 0x80) * 64 + (byte_val c3 - 0x80)).
  assert (Hr : 0x10000 ≤ r ≤ 0x10FFFF) by (unfold r; lia).
  unfold EncodeRune. rewrite (Z.mod_small r) by lia.
  rewrite (proj2 (Z.leb_gt r 0x7F)) by lia.
  rewrite (proj2 (Z.leb_gt r 0x7FF)) by lia.
  unfold MaxRune, surrogateMin, surrogateMax.
  rewrite (proj2 (Z.ltb_ge _ _)) by lia. cbn [orb].
  replace ((0xD800 <=? r) && (r <=? 0xDFFF)) with false
    by (symmetry; apply andb_false_iff; rewrite Z.leb_gt, Z.leb_gt; lia).
  rewrite (proj2 (Z.leb_gt r 0xFFFF)) by lia.
  rewrite (cont_byte r 12), (cont_byte r 6), (cont_byte0 r) by lia.
  rewrite (tag_lor t4 _ 4);
    [| lia
     | rewrite Z.shiftr_div_pow2 by lia; change (2 ^ 18) with 262144;
       change (2 ^ 4) with 16; Z.div_mod_to_equations; lia
     | reflexivity].
  rewrite Z.shiftr_div_pow2 by lia. change (2 ^ 18) with 262144.
  change (2 ^ 12) with 4096. change (2 ^ 6) with 64. unfold t4.
  f_equal; [|f_equal; [|f_equal; [|f_equal]]]; apply byte_of_eq; unfold r;
    Z.div_mod_to_equations; lia.
Qed.

Lemma first_cases (b : Z) :
  0x80 ≤ b < 256 →
  first b = 0xF1
  ∨ (0xC2 ≤ b ≤ 0xDF ∧ lead b 2 0x80 0xBF)
  ∨ (b = 0xE0 ∧ lead b 3 0xA0 0xBF)
  ∨ ((0xE1 ≤ b ≤ 0xEC ∨ 0xEE ≤ b ≤ 0xEF) ∧ lead b 3 0x80 0xBF)
  ∨ (b = 0xED ∧ lead b 3 0x80 0x9F)
  ∨ (b = 0xF0 ∧ lead b 4 0x90 0xBF)
  ∨ (0xF1 ≤ b ≤ 0xF3 ∧ lead b 4 0x80 0xBF)
  ∨ (b = 0xF4 ∧ lead b 4 0x80 0x8F).
Proof.
  intros Hb. unfold lead, first.
  repeat match goal with
  | |- context [?x <? ?y] => destruct (Z.ltb_spec x y)
  | |- context [?x =? ?y] => destruct (Z.eqb_spec x y)
  end; try lia.
  all: cbn.
  all: repeat first
    [ left; solve [repeat split; (reflexivity || lia)]
    | right ].
  all: solve [repeat split; (reflexivity || lia)].
Qed.

Lemma len_cons (c : ascii) (t : string) : len (String c t) = 1 + len t.
Proof. unfold len. cbn [String.length]. lia. Qed.

Lemma len_nonneg (t : string) : 0 ≤ len t.
Proof. unfold len. lia. Qed.

Lemma DecodeRune_lead (c : ascii) (t : string) (sz lo hi : Z) :
  lead (byte_val c) sz lo hi →
  DecodeRune (String c t)
  = let s := String c t in
    let s0 := byte_val c in
    if len s <? sz then (RuneError, 1)
    else
      let s1 := index s 1 in
      if (s1 <? lo) || (hi <? s1) then (RuneError, 1)
      else if sz <=? 2 then
        (Z.lor (Z.shiftl (Z.land s0 mask2) 6) (Z.land s1 maskx), 2)
      else
        let s2 := index s 2 in
        if (s2 <? locb) || (hicb <? s2) then (RuneError, 1)
        else if sz <=? 3 then
          (Z.lor (Z.lor (Z.shiftl (Z.land s0 mask3) 12)
                        (Z.shiftl (Z.land s1 maskx) 6))
                 (Z.land s2 maskx), 3)
        else
          let s3 := index s 3 in
          if (s3 <? locb) || (hicb <? s3) then (RuneError, 1)
          else
            (Z.lor (Z.lor (Z.lor (Z.shiftl (Z.land s0 mask4) 18)
                                 (Z.shiftl (Z.land s1 maskx) 12))
                          (Z.shiftl (Z.land s2 maskx) 6))
                   (Z.land s3 maskx), 4).
Proof.
  intros (Hf & Hsz & Hacc). unfold DecodeRune.
  cbn [index]. rewrite Hf, Hsz, Hacc. cbn [fst snd].
  destruct (Z.ltb_spec (len (String c t)) 1) as [H|H]; [|reflexivity].
  rewrite len_cons in H. pose proof (len_nonneg t). lia.
Qed.

Lemma range_check (x lo hi : Z) :
  (x <? lo) || (hi <? x) = false ↔ lo ≤ x ≤ hi.
Proof. rewrite orb_false_iff, !Z.ltb_ge. lia. Qed.

Lemma DecodeRune_two (c : ascii) (t : string) (r size lo hi : Z) :
  0xC2 ≤ byte_val c ≤ 0xDF → 0x80 ≤ lo → hi ≤ 0xBF →
  lead (byte_val c) 2 lo hi →
  DecodeRune (String c t) = (r, size) →
  ¬ (r = RuneError ∧ size = 1) →
  ∃ pre, rune_at c t r size pre.
Proof.
  intros Hc Hlo Hhi Hl Hd Hv.
  rewrite (DecodeRune_lead c t 2 lo hi Hl) in Hd. cbn zeta in Hd.
  destruct t as [|c1 t'].
  { cbn in Hd. injection Hd as <- <-. exfalso. apply Hv. split; reflexivity. }
  rewrite !len_cons in Hd. pose proof (len_nonneg t') as Hn.
  destruct (Z.ltb_spec (1 + (1 + len t')) 2) as [H|_]; [lia|].
  cbn [index] in Hd.
  destruct ((byte_val c1 <? lo) || (hi <? byte_val c1)) eqn:Er.
  { injection Hd as <- <-. exfalso. apply Hv. split; reflexivity. }
  apply range_check in Er as Hr. cbn in Hd. injection Hd as <- <-.
  exists (String c1 EmptyString). unfold rune_at.
  split; [reflexivity|]. split; [reflexivity|]. split.
  - rewrite rune2_value by lia. apply EncodeRune2; lia.
  - split; [|intros X; norm_app; reflexivity]. intros X.
    norm_app.
    rewrite (DecodeRune_lead c _ 2 lo hi Hl). cbn zeta.
    rewrite !len_cons. pose proof (len_nonneg X).
    destruct (Z.ltb_spec (1 + (1 + len X)) 2) as [H'|_]; [lia|].
    cbn [index]. rewrite Er. reflexivity.
Qed.

Lemma DecodeRune_three (c : ascii) (t : string) (r size lo hi : Z) :
  0xE0 ≤ byte_val c ≤ 0xEF → 0x80 ≤ lo → hi ≤ 0xBF →
  (byte_val c = 0xE0 → 0xA0 ≤ lo) →
  (byte_val c = 0xED → hi ≤ 0x9F) →
  lead (byte_val c) 3 lo hi →
  DecodeRune (String c t) = (r, size) →
  ¬ (r = RuneError ∧ size = 1) →
  ∃ pre, rune_at c t r size pre.
Proof.
  intros Hc Hlo Hhi Hlo' Hhi' Hl Hd Hv.
  rewrite (DecodeRune_lead c t 3 lo hi Hl) in Hd. cbn zeta in Hd.
  destruct t as [|c1 [|c2 t']]; try (cbn in Hd; bad_rune Hd Hv).
  rewrite !len_cons in Hd. pose proof (len_nonneg t') as Hn.
  destruct (Z.ltb_spec (1 + (1 + (1 + len t'))) 3) as [H|_]; [lia|].
  cbn [index] in Hd.
  destruct ((byte_val c1 <? lo) || (hi <? byte_val c1)) eqn:Er1;
    [bad_rune Hd Hv|].
  cbn [Z.leb Z.compare Pos.compare Pos.compare_cont] in Hd.
  destruct ((byte_val c2 <? locb) || (hicb <? byte_val c2)) eqn:Er2;
    [bad_rune Hd Hv|].
  apply range_check in Er1 as Hr1. apply range_check in Er2 as Hr2.
  unfold locb, hicb in Hr2.
  injection Hd as <- <-.
  exists (String c1 (String c2 EmptyString)). unfold rune_at.
  split; [reflexivity|]. split; [reflexivity|]. split.
  - rewrite rune3_value by lia. apply EncodeRune3; lia.
  - split; [|intros X; norm_app; reflexivity]. intros X. norm_app.
    rewrite (DecodeRune_lead c _ 3 lo hi Hl). cbn zeta.
    rewrite !len_cons. pose proof (len_nonneg X).
    destruct (Z.ltb_spec (1 + (1 + (1 + len X))) 3) as [H'|_]; [lia|].
    cbn [index]. rewrite Er1, Er2. reflexivity.
Qed.

Lemma DecodeRune_four (c : ascii) (t : string) (r size lo hi : Z) :
  0xF0 ≤ byte_val c ≤ 0xF4 → 0x80 ≤ lo → hi ≤ 0xBF →
  (byte_val c = 0xF0 → 0x90 ≤ lo) →
  (byte_val c = 0xF4 → hi ≤ 0x8F) →
  lead (byte_val c) 4 lo hi →
  DecodeRune (String c t) = (r, size) →
  ¬ (r = RuneError ∧ size = 1) →
  ∃ pre, rune_at c t r size pre.
Proof.
  intros Hc Hlo Hhi Hlo' Hhi' Hl Hd Hv.
  rewrite (DecodeRune_lead c t 4 lo hi Hl) in Hd. cbn zeta in Hd.
  destruct t as [|c1 [|c2 [|c3 t']]]; try (cbn in Hd; bad_rune Hd Hv).
  rewrite !len_cons in Hd. pose proof (len_nonneg t') as Hn.
  destruct (Z.ltb_spec (1 + (1 + (1 + (1 + len t')))) 4) as [H|_]; [lia|].
  cbn [index] in Hd.
  destruct ((byte_val c1 <? lo) || (hi <? byte_val c1)) eqn:Er1;
    [bad_rune Hd Hv|].
  cbn [Z.leb Z.compare Pos.compare Pos.compare_cont] in Hd.
  destruct ((byte_val c2 <? locb) || (hicb <? byte_val c2)) eqn:Er2;
    [bad_rune Hd Hv|].
  destruct ((byte_val c3 <? locb) || (hicb <? byte_val c3)) eqn:Er3;
    [bad_rune Hd Hv|].
  apply range_check in Er1 as Hr1. apply range_check in Er2 as Hr2.
  apply range_check in Er3 as Hr3.
  unfold locb, hicb in Hr2, Hr3.
  injection Hd as <- <-.
  exists (String c1 (String c2 (String c3 EmptyString))). unfold rune_at.
  split; [reflexivity|]. split; [reflexivity|]. split.
  - rewrite rune4_value by lia. apply EncodeRune4; lia.
  - split; [|intros X; norm_app; reflexivity]. intros X. norm_app.
    rewrite (DecodeRune_lead c _ 4 lo hi Hl). cbn zeta.
    rewrite !len_cons. pose proof (len_nonneg X).
    destruct (Z.ltb_spec (1 + (1 + (1 + (1 + len X)))) 4) as [H'|_]; [lia|].
    cbn [index]. rewrite Er1, Er2, Er3. reflexivity.
Qed.

Lemma DecodeRune_multibyte (c : ascii) (t : string) (r size : Z) :
  0x80 ≤ byte_val c →
  DecodeRune (String c t) = (r, size) →
  ¬ (r = RuneError ∧ size = 1) →
  ∃ pre, rune_at c t r size pre.
Proof.
  intros Hc Hd Hv. pose proof (byte_val_range c) as Hb.
  destruct (first_cases (byte_val c) ltac:(lia)) as
    [Hx|[[H Hl]|[[H Hl]|[[H Hl]|[[H Hl]|[[H Hl]|[[H Hl]|[H Hl]]]]]]]].
  - exfalso. apply Hv. unfold DecodeRune in Hd. cbn [index] in Hd.
    rewrite Hx in Hd.
    destruct (Z.ltb_spec (len (String c t)) 1) as [Hn|_].
    { rewrite len_cons in Hn. pose proof (len_nonneg t). lia. }
    cbn in Hd. injection Hd as <- <-. split; reflexivity.
  - apply (DecodeRune_two c t r size 0x80 0xBF); (exact Hl || exact Hd || exact Hv || lia).
  - apply (DecodeRune_three c t r size 0xA0 0xBF); (exact Hl || exact Hd || exact Hv || lia).
  - apply (DecodeRune_three c t r size 0x80 0xBF); (exact Hl || exact Hd || exact Hv || lia).
  - apply (DecodeRune_three c t r size 0x80 0x9F); (exact Hl || exact Hd || exact Hv || lia).
  - apply (DecodeRune_four c t r size 0x90 0xBF); (exact Hl || exact Hd || exact Hv || lia).
  - apply (DecodeRune_four c t r size 0x80 0xBF); (exact Hl || exact Hd || exact Hv || lia).
  - apply (DecodeRune_four c t r size 0x80 0x8F); (exact Hl || exact Hd || exact Hv || lia).
Qed.

Lemma DecodeRune_ascii (c : ascii) (t : string) :
  byte_val c < 0x80 → DecodeRune (String c t) = (byte_val c, 1).
Proof.
  intros Hc. unfold DecodeRune. cbn [index].
  destruct (Z.ltb_spec (len (String c t)) 1) as [Hn|_].
  { rewrite len_cons in Hn. pose proof (len_nonneg t). lia. }
  unfold first. rewrite (proj2 (Z.ltb_lt _ _) Hc). reflexivity.
Qed.

End Utf8Facts.

(** ** JSON: what [Marshal] writes, [Unmarshal] reads back *)

Section JsonFacts.
Import utf8 json.

Lemma append_assoc (a b c : string) : (a ++ b) ++ c = a ++ (b ++ c).
Proof. induction a as [|x a IH]; [reflexivity|]. norm_app. rewrite IH. reflexivity. Qed.

Lemma append_nil_r (a : string) : a ++ "" = a.
Proof. induction a as [|x a IH]; [reflexivity|]. norm_app. rewrite IH. reflexivity. Qed.

Lemma unquote_escape_unit (c : ascii) (X : string) :
  byte_val c < 0x80 →
  unquote (escape_unit c ++ X) = prepend (String c EmptyString) (unquote X).
Proof.
  destruct c as [[] [] [] [] [] [] [] []]; intros H;
    try (exfalso; vm_compute in H; discriminate H); reflexivity.
Qed.

Lemma escape_ascii_step (c : ascii) (t : string) :
  byte_val c < 0x80 → escape (String c t) = escape_unit c ++ escape t.
Proof.
  intros H. cbn [escape]. unfold RuneSelf.
  rewrite (proj2 (Z.ltb_lt _ _) H). unfold escape_unit.
  destruct (htmlSafe (byte_val c)); reflexivity.
Qed.

Lemma unquote_high (c : ascii) (X : string) :
  0x80 ≤ byte_val c →
  unquote (String c X)
  = let '(rr, size) := DecodeRune (String c X) in
    prepend (EncodeRune rr) (unquote (after_tail size X)).
Proof.
  intros H. cbn [unquote]. unfold RuneSelf.
  destruct (Z.eqb_spec (byte_val c) 0x22); [lia|].
  destruct (Z.eqb_spec (byte_val c) 0x5C); [lia|].
  destruct (Z.ltb_spec (byte_val c) 0x20); [lia|].
  destruct (Z.ltb_spec (byte_val c) 0x80); [lia|].
  reflexivity.
Qed.

Lemma after_tail_length (size : Z) (t : string) :
  (String.length (after_tail size t) ≤ String.length t)%nat.
Proof.
  unfold after_tail.
  destruct (size <=? 1); [lia|]. destruct t as [|c1 t]; [lia|].
  destruct (size <=? 2); [cbn; lia|]. destruct t as [|c2 t]; [cbn; lia|].
  destruct (size <=? 3); [cbn; lia|]. destruct t as [|c3 t]; cbn; lia.
Qed.

Lemma unquote_line_separator (r : Z) (X : string) :
  r = 0x2028 ∨ r = 0x2029 →
  unquote (String backslash "u202" ++ String (hex (Z.land r 0xF)) X)
  = prepend (EncodeRune r) (unquote X).
Proof. intros [-> | ->]; reflexivity. Qed.

Lemma unquote_escape_fuel (n : nat) :
  ∀ (s rest : string),
    (String.length s ≤ n)%nat →
    ValidString s = true →
    unquote (escape s ++ String dquote rest) = Some (s, rest).
Proof.
  induction n as [|n IH]; intros s rest Hlen Hvalid.
  { destruct s; [reflexivity | cbn in Hlen; lia]. }
  destruct s as [|c t]; [reflexivity|].
  cbn [String.length] in Hlen.
  destruct (Z.ltb_spec (byte_val c) 0x80) as [Hc|Hc].
  - rewrite escape_ascii_step, append_assoc, unquote_escape_unit by exact Hc.
    cbn [ValidString] in Hvalid. rewrite (DecodeRune_ascii c t Hc) in Hvalid.
    replace (byte_val c =? RuneError) with false in Hvalid
      by (symmetry; apply Z.eqb_neq; unfold RuneError; lia).
    cbn in Hvalid. rewrite (IH t rest) by (lia || exact Hvalid).
    reflexivity.
  - cbn [ValidString] in Hvalid. cbn [escape]. unfold RuneSelf.
    rewrite (proj2 (Z.ltb_ge _ _) Hc).
    destruct (DecodeRune (String c t)) as [r size] eqn:Hd.
    destruct ((r =? RuneError) && (size =? 1)) eqn:Hbad; [discriminate|].
    assert (Hv : ¬ (r = RuneError ∧ size = 1)).
    { intros [-> ->]. discriminate Hbad. }
    destruct (DecodeRune_multibyte c t r size Hc Hd Hv)
      as (pre & Hsplit & Hbefore & Henc & Hdec & Hafter).
    pose proof (after_tail_length size t) as Hshort.
    assert (Hrest : unquote (escape (after_tail size t) ++ String dquote rest)
                    = Some (after_tail size t, rest)).
    { apply IH; [lia | exact Hvalid]. }
    destruct ((r =? 0x2028) || (r =? 0x2029)) eqn:Hsep.
    + apply orb_true_iff in Hsep. rewrite !Z.eqb_eq in Hsep.
      rewrite append_assoc, (append_cons (hex (Z.land r 0xF))).
      rewrite (unquote_line_separator r _ Hsep), Hrest, Henc.
      cbn [prepend]. rewrite append_cons, <- Hsplit. reflexivity.
    + rewrite Hbefore, append_assoc, append_cons.
      rewrite (unquote_high c _ Hc), Hdec, Hafter, Hrest, Henc.
      cbn [prepend]. rewrite append_cons, <- Hsplit. reflexivity.
Qed.

Lemma unquote_appendString (s rest : string) :
  ValidString s = true →
  ∃ body, appendString s ++ rest = String dquote body
          ∧ unquote body = Some (s, rest).
Proof.
  intros Hv. exists (escape s ++ String dquote rest). split.
  - unfold appendString. rewrite append_cons, append_assoc. reflexivity.
  - apply (unquote_escape_fuel (String.length s)); [lia | exact Hv].
Qed.

Lemma parse_value_S (f : nat) (c : ascii) (t : string) :
  isSpace c = false →
  byte_val c = 0x22 →
  parse_value (S f) (String c t)
  = match unquote t with
    | Some (d, r) => Some (Str d, r)
    | None => None
    end.
Proof.
  intros Hs Hc. cbn [parse_value skip_space]. rewrite Hs, Hc. reflexivity.
Qed.

Lemma parse_value_string (f : nat) (v rest : string) :
  ValidString v = true →
  parse_value (S f) (appendString v ++ rest) = Some (Str v, rest).
Proof.
  intros Hv. destruct (unquote_appendString v rest Hv) as (body & -> & Hb).
  rewrite parse_value_S, Hb by reflexivity. reflexivity.
Qed.

Lemma members_cons (k v : string) (l : list (string * string)) :
  members ((k, v) :: l)
  = appendString k ++ ":" ++ appendString v
    ++ match l with [] => "" | _ :: _ => "," ++ members l end.
Proof.
  destruct l as [|[k' v'] l]; [|reflexivity].
  cbn [members]. rewrite (append_nil_r (appendString v)). reflexivity.
Qed.

(** One member: a key, a colon, a value, and what follows. *)
Lemma parse_members_S (f : nat) (body k t2 : string) :
  unquote body = Some (k, String ":" t2) →
  parse_members (S f) (String dquote body)
  = match parse_value f t2 with
    | None => None
    | Some (v, t3) =>
        match skip_space t3 with
        | EmptyString => None
        | String d t4 =>
            if byte_val d =? 0x2C then
              match parse_members f t4 with
              | Some (l, r) => Some ((k, v) :: l, r)
              | None => None
              end
            else if byte_val d =? 0x7D then Some ([(k, v)], t4)
            else None
        end
    end.
Proof.
  intros Hb. cbn [parse_members].
  change (skip_space (String dquote body)) with (String dquote body).
  cbv beta match. change (byte_val dquote =? 34) with true. cbv beta match.
  rewrite Hb. reflexivity.
Qed.

Lemma parse_members_members (l : list (string * string)) :
  ∀ (fuel : nat) (rest : string),
    l ≠ [] →
    Forall valid_pair l →
    (length l < fuel)%nat →
    parse_members fuel (members l ++ String "}" rest)
    = Some (map as_member l, rest).
Proof.
  induction l as [|[k v] l IH]; intros fuel rest Hne Hall Hfuel; [done|].
  apply Forall_cons in Hall as [[Hk Hv] Hall]. cbn in Hk, Hv.
  destruct fuel as [|g]; [cbn in Hfuel; lia|].
  assert (Hg : ∃ f, g = S f).
  { destruct g as [|f]; [cbn in Hfuel; lia | eauto]. }
  rewrite members_cons, !append_assoc.
  destruct (unquote_appendString k
              (":" ++ appendString v
               ++ match l with [] => "" | _ :: _ => "," ++ members l end
               ++ String "}" rest) Hk) as (body & -> & Hb).
  rewrite append_cons, append_nil in Hb.
  rewrite (parse_members_S g body k _ Hb).
  destruct Hg as [f Hg]. rewrite Hg at 1.
  rewrite (parse_value_string f v _ Hv).
  destruct l as [|kv l].
  - rewrite append_nil. reflexivity.
  - rewrite append_assoc, append_cons, append_nil.
    change (skip_space (String "," ?x)) with (String ","%char x).
    cbv beta match. change (byte_val "," =? 44) with true. cbv beta match.
    rewrite (IH g rest); [reflexivity | done | exact Hall |].
    cbn in Hfuel |- *. lia.
Qed.

Lemma length_append (a b : string) :
  String.length (a ++ b) = (String.length a + String.length b)%nat.
Proof.
  induction a as [|x a IH]; [reflexivity|]. norm_app. cbn [String.length].
  rewrite IH. reflexivity.
Qed.

Lemma members_length (l : list (string * string)) :
  (length l ≤ String.length (members l))%nat.
Proof.
  induction l as [|[k v] l IH]; [cbn; lia|].
  rewrite members_cons. unfold appendString at 1.
  rewrite append_cons. cbn [String.length length]. rewrite !length_append.
  destruct l as [|kv l]; [cbn [length]; lia|].
  rewrite length_append. cbn [String.length]. lia.
Qed.

Lemma members_head (l : list (string * string)) :
  l ≠ [] → ∃ body, members l = String dquote body.
Proof.
  destruct l as [|[k v] l]; [done|]. intros _. rewrite members_cons.
  unfold appendString at 1. rewrite append_cons. eauto.
Qed.

(** The object of the [state] field, read back. *)
Lemma parse_value_encode_map (v : GoMap) (f : nat) (rest : string) :
  Forall valid_pair (map_to_list (entries v)) →
  (length (map_to_list (entries v)) + 2 ≤ f)%nat →
  parse_value f (encode_map v ++ rest)
  = Some (match v with
          | NilMap => Null
          | Map m => Object (map as_member (merge_sort key_le (map_to_list m)))
          end, rest).
Proof.
  intros Hall Hf. destruct f as [|f]; [lia|].
  destruct v as [|m]; [reflexivity|]. cbn [entries] in Hall, Hf.
  cbn [encode_map]. set (l := merge_sort key_le (map_to_list m)).
  assert (Hperm : l ≡ₚ map_to_list m) by apply merge_sort_Permutation.
  assert (Hall' : Forall valid_pair l) by (rewrite Hperm; exact Hall).
  assert (Hlen : length l = length (map_to_list m)) by (rewrite Hperm; done).
  rewrite !append_cons, append_nil, append_assoc.
  cbn [parse_value].
  change (skip_space (String "{" ?x)) with (String "{"%char x).
  cbv beta match. change (byte_val "{" =? 123) with true. cbv beta match.
  destruct l as [|kv l'] eqn:El.
  - reflexivity.
  - destruct (members_head (kv :: l') ltac:(done)) as (body & Hbody).
    rewrite <- El in *. rewrite Hbody, append_cons.
    change (skip_space (String dquote ?x)) with (String dquote x).
    cbv beta match. change (byte_val dquote =? 125) with false.
    cbv beta match.
    replace (String dquote (body ++ "}" ++ rest))
      with (members l ++ String "}" rest) by (rewrite Hbody; reflexivity).
    rewrite (parse_members_members l f rest); [reflexivity| |exact Hall'|lia].
    rewrite El. done.
Qed.

Lemma foldl_store_member (l : list (string * string)) :
  ∀ acc : gmap string string,
    foldl store_member (inl acc) (map as_member l)
    = inl (foldl (fun m kv => <[kv.1 := kv.2]> m) acc l).
Proof.
  induction l as [|kv l IH]; intros acc; [reflexivity|]. cbn. apply IH.
Qed.

Lemma foldl_insert_lookup (l : list (string * string)) :
  ∀ (acc : gmap string string) (k : string),
    NoDup (l.*1) →
    foldl (fun m kv => <[kv.1 := kv.2]> m) acc l !! k
    = match (list_to_map l : gmap string string) !! k with
      | Some v => Some v
      | None => acc !! k
      end.
Proof.
  induction l as [|[k0 v0] l IH]; intros acc k Hnd; [reflexivity|].
  apply NoDup_cons in Hnd as [Hnot Hnd]. cbn [foldl fst snd].
  rewrite (IH _ _ Hnd). cbn [list_to_map foldr]. cbn.
  destruct (decide (k = k0)) as [->|Hne].
  - rewrite (not_elem_of_list_to_map_1 l k0 Hnot), !lookup_insert_eq.
    reflexivity.
  - rewrite !lookup_insert_ne by done. reflexivity.
Qed.

Lemma foldl_insert_sorted (m : gmap string string) :
  foldl (fun acc kv => <[kv.1 := kv.2]> acc) ∅
        (merge_sort key_le (map_to_list m)) = m.
Proof.
  assert (Hperm : merge_sort key_le (map_to_list m) ≡ₚ map_to_list m)
    by apply merge_sort_Permutation.
  assert (Hnd : NoDup ((merge_sort key_le (map_to_list m)).*1)).
  { rewrite Hperm. apply NoDup_fst_map_to_list. }
  apply map_eq. intros k. rewrite (foldl_insert_lookup _ _ _ Hnd).
  rewrite (list_to_map_proper _ _ Hnd Hperm), list_to_map_to_list.
  rewrite lookup_empty. destruct (m !! k); reflexivity.
Qed.

Lemma valid_map_pairs (v : GoMap) :
  valid_map v → Forall valid_pair (map_to_list (entries v)).
Proof.
  intros H. apply map_Forall_to_list in H.
  eapply Forall_impl; [exact H|]. intros [k x] Hkx. exact Hkx.
Qed.

Lemma Marshal_length (v : GoMap) :
  (length (map_to_list (entries v)) + 4
   ≤ String.length (json.Marshal {| State := v |}).1)%nat.
Proof.
  unfold Marshal. cbn [fst State]. rewrite !length_append.
  destruct v as [|m].
  { cbn [entries]. rewrite map_to_list_empty. cbn [String.length length encode_map]. lia. }
  cbn [entries encode_map]. rewrite !length_append.
  pose proof (members_length (merge_sort key_le (map_to_list m))) as Hm.
  assert (Hlen : length (merge_sort key_le (map_to_list m))
                 = length (map_to_list m))
    by (rewrite merge_sort_Permutation; done).
  cbn [String.length]. lia.
Qed.

Theorem Unmarshal_Marshal (v : GoMap) :
  valid_map v →
  json.Unmarshal (json.Marshal {| State := v |}).1 = inl {| State := v |}.
Proof.
  intros Hvalid. pose proof (valid_map_pairs v Hvalid) as Hall.
  pose proof (Marshal_length v) as Hlen.
  unfold Unmarshal, parse.
  set (data := (json.Marshal {| State := v |}).1) in *.
  assert (Hparse : parse_value (S (String.length data)) data
          = Some (Object [("state",
                    match v with
                    | NilMap => Null
                    | Map m => Object (map as_member
                                 (merge_sort key_le (map_to_list m)))
                    end)], "")).
  { destruct (String.length data) as [|[|g]] eqn:Eg; [lia|lia|].
    unfold data. cbn [Marshal fst State]. norm_app.
    cbn [parse_value].
    change (skip_space (String "{" ?x)) with (String "{"%char x).
    cbv beta match. change (byte_val "{" =? 123) with true. cbv beta match.
    destruct (unquote_appendString "state"
                (String ":" (encode_map v ++ "}")) eq_refl)
      as (body & -> & Hb).
    change (skip_space (String dquote ?x)) with (String dquote x).
    cbv beta match. change (byte_val dquote =? 125) with false.
    cbv beta match.
    rewrite (parse_members_S (S g) body _ _ Hb).
    rewrite (parse_value_encode_map v (S g) "}" Hall) by lia.
    reflexivity. }
  rewrite Hparse. cbn [skip_space foldl].
  unfold store_field. cbn [fst snd].
  change (is_state "state") with true. cbv beta match.
  destruct v as [|m]; [reflexivity|].
  cbn [decode_map State entries]. rewrite foldl_store_member.
  rewrite foldl_insert_sorted. reflexivity.
Qed.

(** *** The fuel of the parser *)

Lemma skip_space_length (s : string) : (String.length (skip_space s) ≤ String.length s)%nat.
Proof.
  induction s as [|c s IH]; [reflexivity|]. cbn [skip_space].
  destruct (isSpace c); cbn [String.length]; lia.
Qed.

Lemma skip_space_cons (s : string) (c : ascii) (t : string) :
  skip_space s = String c t → (String.length t < String.length s)%nat.
Proof.
  intros H. pose proof (skip_space_length s) as Hl. rewrite H in Hl.
  cbn [String.length] in Hl. lia.
Qed.

Lemma skip6_le (t : string) : (String.length (skip6 t) ≤ String.length t)%nat.
Proof.
  destruct t as [|? [|? [|? [|? [|? [|? t]]]]]]; cbn; lia.
Qed.

Lemma prepend_Some (p : string) (x : option (string * string))
    (d r : string) :
  prepend p x = Some (d, r) → ∃ d', x = Some (d', r).
Proof. destruct x as [[d' r']|]; cbn; [|discriminate]. intros [= _ <-]. eauto. Qed.

(** A string literal ends after at least its closing quote. *)
Lemma unquote_length (n : nat) :
  ∀ (s d r : string),
    (String.length s ≤ n)%nat → unquote s = Some (d, r) → (String.length r < String.length s)%nat.
Proof.
  induction n as [|n IH]; intros s d r Hn H.
  { destruct s; [discriminate | cbn in Hn; lia]. }
  destruct s as [|c t]; [discriminate|].
  cbn [String.length] in Hn |- *. cbn [unquote] in H.
  assert (Hrec : ∀ p t', (String.length t' ≤ String.length t)%nat →
            prepend p (unquote t') = Some (d, r) → (String.length r < S (String.length t))%nat).
  { intros p t' Ht Hp. apply prepend_Some in Hp as [d' Hp].
    apply IH in Hp; lia. }
  destruct (byte_val c =? 34). { injection H as _ <-. lia. }
  destruct (byte_val c =? 92).
  - destruct t as [|e t1]; [discriminate|]. cbn [String.length] in *.
    assert (Hrec1 : ∀ p t', (String.length t' ≤ String.length t1)%nat →
              prepend p (unquote t') = Some (d, r) →
              (String.length r < S (S (String.length t1)))%nat).
    { intros p t' Ht Hp. apply (Hrec p t') in Hp; lia. }
    repeat match type of H with
    | (if ?b then _ else _) = _ =>
        destruct b; [apply Hrec1 in H; [lia | lia] |]
    end.
    destruct (byte_val e =? 117); [|discriminate].
    destruct t1 as [|h1 [|h2 [|h3 [|h4 t5]]]]; try discriminate.
    cbn [String.length] in *.
    destruct (getu4 h1 h2 h3 h4) as [rr|]; [|discriminate].
    pose proof (skip6_le t5).
    destruct (IsSurrogate rr).
    + destruct (negb _); apply Hrec1 in H; lia.
    + apply Hrec1 in H; lia.
  - destruct (byte_val c <? 32); [discriminate|].
    destruct (byte_val c <? RuneSelf); [apply Hrec in H; lia|].
    destruct (DecodeRune (String c t)) as [rr size].
    pose proof (after_tail_length size t). apply Hrec in H; lia.
Qed.

Lemma skip_digits_le (s : string) : (String.length (skip_digits s) ≤ String.length s)%nat.
Proof.
  induction s as [|c s IH]; [reflexivity|]. cbn [skip_digits].
  destruct (_ && _); cbn [String.length]; lia.
Qed.

Lemma digits1_length (s r : string) :
  digits1 s = Some r → (String.length r < String.length s)%nat.
Proof.
  destruct s as [|c t]; [discriminate|]. cbn [digits1].
  destruct (isDigit c); [|discriminate]. intros [= <-].
  pose proof (skip_digits_le t). cbn [String.length]. lia.
Qed.

Lemma scan_number_length (s r : string) :
  scan_number s = Some r → (String.length r < String.length s)%nat.
Proof.
  unfold scan_number.
  set (s1 := match s with
             | String c t => if Ascii.eqb c "-" then t else s
             | EmptyString => s
             end).
  assert (H1 : (String.length s1 ≤ String.length s)%nat).
  { unfold s1. destruct s as [|c t]; [lia|].
    destruct (Ascii.eqb c "-"); cbn [String.length]; lia. }
  destruct s1 as [|c1 t1]; [discriminate|]. cbn [String.length] in H1.
  set (int := if Ascii.eqb c1 "0" then Some t1
              else if isDigit c1 then Some (skip_digits t1) else None).
  assert (H2 : ∀ s2, int = Some s2 → (String.length s2 ≤ String.length t1)%nat).
  { unfold int. intros s2. destruct (Ascii.eqb c1 "0"); [intros [= <-]; lia|].
    destruct (isDigit c1); [|discriminate]. intros [= <-].
    apply skip_digits_le. }
  destruct int as [s2|]; [|discriminate]. specialize (H2 s2 eq_refl).
  set (frac := match s2 with
               | String c t => if Ascii.eqb c "." then digits1 t else Some s2
               | EmptyString => Some s2
               end).
  assert (H3 : ∀ s3, frac = Some s3 → (String.length s3 ≤ String.length s2)%nat).
  { unfold frac. intros s3. destruct s2 as [|c t]; [intros [= <-]; lia|].
    destruct (Ascii.eqb c "."); [|intros [= <-]; lia].
    intros H. apply digits1_length in H. cbn [String.length]. lia. }
  destruct frac as [s3|]; [|discriminate]. specialize (H3 s3 eq_refl).
  destruct s3 as [|c t]; [intros [= <-]; cbn [String.length] in *; lia|].
  cbn [String.length] in H3.
  destruct (_ || _); [|intros [= <-]; cbn [String.length]; lia].
  destruct t as [|g t']; [discriminate|]. cbn [String.length] in H3.
  destruct (_ || _); intros H; apply digits1_length in H;
    cbn [String.length] in H; lia.
Qed.

Lemma strip_length (p s r : string) :
  strip p s = Some r → (String.length r + String.length p = String.length s)%nat.
Proof.
  revert s. induction p as [|a p IH]; intros s; cbn [strip].
  - intros [= <-]. cbn. lia.
  - destruct s as [|b s]; [discriminate|]. destruct (Ascii.eqb a b); [|discriminate].
    intros H. apply IH in H. cbn [String.length]. lia.
Qed.

(** What a parser returns is shorter than what it was given. *)
Lemma parse_shorter (f : nat) :
  (∀ s v r, parse_value f s = Some (v, r) →
            (String.length r < String.length s)%nat)
  ∧ (∀ s l r, parse_members f s = Some (l, r) →
              (String.length r < String.length s)%nat)
  ∧ (∀ s l r, parse_elements f s = Some (l, r) →
              (String.length r < String.length s)%nat).
Proof.
  induction f as [|f (IHv & IHm & IHe)]; [repeat split; discriminate|].
  split; [|split].
  - intros s v r. cbn [parse_value].
    destruct (skip_space s) as [|c t] eqn:Es; [discriminate|].
    pose proof (skip_space_cons s c t Es) as Ht.
    pose proof (skip_space_length t) as Hst.
    destruct (byte_val c =? 123).
    { destruct (skip_space t) as [|c' t'] eqn:Et; [discriminate|].
      cbn [String.length] in Hst.
      destruct (byte_val c' =? 125); [intros [= _ <-]; lia|].
      destruct (parse_members f (String c' t')) as [[l r']|] eqn:Em;
        [|discriminate].
      intros [= _ <-]. apply IHm in Em. cbn [String.length] in Em. lia. }
    destruct (byte_val c =? 91).
    { destruct (skip_space t) as [|c' t'] eqn:Et; [discriminate|].
      cbn [String.length] in Hst.
      destruct (byte_val c' =? 93); [intros [= _ <-]; lia|].
      destruct (parse_elements f (String c' t')) as [[l r']|] eqn:Em;
        [|discriminate].
      intros [= _ <-]. apply IHe in Em. cbn [String.length] in Em. lia. }
    destruct (byte_val c =? 34).
    { destruct (unquote t) as [[d r']|] eqn:Eu; [|discriminate].
      intros [= _ <-].
      apply (unquote_length (String.length t)) in Eu; lia. }
    destruct ((byte_val c =? 45) || isDigit c).
    { destruct (scan_number (String c t)) as [r'|] eqn:En; [|discriminate].
      intros [= _ <-]. apply scan_number_length in En.
      cbn [String.length] in En. lia. }
    repeat match goal with
    | |- (if ?b then _ else _) = _ → _ =>
        destruct b;
        [ match goal with
          | |- match strip ?p ?x with _ => _ end = _ → _ =>
              destruct (strip p x) as [r'|] eqn:Ep; [|discriminate];
              intros [= _ <-]; apply strip_length in Ep;
              cbn [String.length] in Ep; lia
          end |]
    end.
    discriminate.
  - intros s l r. cbn [parse_members].
    destruct (skip_space s) as [|q t] eqn:Es; [discriminate|].
    pose proof (skip_space_cons s q t Es) as Ht.
    destruct (byte_val q =? 34); [|discriminate].
    destruct (unquote t) as [[k t1]|] eqn:Eu; [|discriminate].
    apply (unquote_length (String.length t)) in Eu; [|lia].
    destruct (skip_space t1) as [|c t2] eqn:E1; [discriminate|].
    pose proof (skip_space_cons t1 c t2 E1) as Ht2.
    destruct (byte_val c =? 58); [|discriminate].
    destruct (parse_value f t2) as [[v t3]|] eqn:Ev; [|discriminate].
    apply IHv in Ev.
    destruct (skip_space t3) as [|d t4] eqn:E3; [discriminate|].
    pose proof (skip_space_cons t3 d t4 E3) as Ht4.
    destruct (byte_val d =? 44).
    { destruct (parse_members f t4) as [[l' r']|] eqn:Em; [|discriminate].
      intros [= _ <-]. apply IHm in Em. lia. }
    destruct (byte_val d =? 125); [|discriminate].
    intros [= _ <-]. lia.
  - intros s l r. cbn [parse_elements].
    destruct (parse_value f s) as [[v t3]|] eqn:Ev; [|discriminate].
    apply IHv in Ev.
    destruct (skip_space t3) as [|d t4] eqn:E3; [discriminate|].
    pose proof (skip_space_cons t3 d t4 E3) as Ht4.
    destruct (byte_val d =? 44).
    { destruct (parse_elements f t4) as [[l' r']|] eqn:Em; [|discriminate].
      intros [= _ <-]. apply IHe in Em. lia. }
    destruct (byte_val d =? 93); [|discriminate].
    intros [= _ <-]. lia.
Qed.

(** A parse that succeeds succeeds the same with more fuel, and with any
    fuel that is at least the number of bytes it reads. *)
Lemma parse_fuel (f : nat) :
  (∀ s v r f', parse_value f s = Some (v, r) →
     (String.length s - String.length r ≤ f' ∨ f ≤ f')%nat →
     parse_value f' s = Some (v, r))
  ∧ (∀ s l r f', parse_members f s = Some (l, r) →
       (String.length s - String.length r ≤ f' ∨ f ≤ f')%nat →
       parse_members f' s = Some (l, r))
  ∧ (∀ s l r f', parse_elements f s = Some (l, r) →
       (String.length s - String.length r ≤ f' ∨ f ≤ f')%nat →
       parse_elements f' s = Some (l, r)).
Proof.
  induction f as [|f (IHv & IHm & IHe)]; [repeat split; discriminate|].
  destruct (parse_shorter f) as (Sv & Sm & Se).
  split; [|split].
  - intros s v r f' H Hf'.
    pose proof (proj1 (parse_shorter (S f)) s v r H) as Hr.
    destruct f' as [|g]; [lia|].
    cbn [parse_value] in H |- *.
    destruct (skip_space s) as [|c t] eqn:Es; [discriminate|].
    pose proof (skip_space_cons s c t Es) as Ht.
    pose proof (skip_space_length t) as Hst.
    destruct (byte_val c =? 123).
    { destruct (skip_space t) as [|c' t'] eqn:Et; [discriminate|].
      destruct (byte_val c' =? 125); [exact H|].
      destruct (parse_members f (String c' t')) as [[l r']|] eqn:Em;
        [|discriminate].
      injection H as <- <-.
      rewrite (IHm _ _ _ g Em); [reflexivity|].
      cbn [String.length] in Hst |- *. lia. }
    destruct (byte_val c =? 91).
    { destruct (skip_space t) as [|c' t'] eqn:Et; [discriminate|].
      destruct (byte_val c' =? 93); [exact H|].
      destruct (parse_elements f (String c' t')) as [[l r']|] eqn:Em;
        [|discriminate].
      injection H as <- <-.
      rewrite (IHe _ _ _ g Em); [reflexivity|].
      cbn [String.length] in Hst |- *. lia. }
    exact H.
  - intros s l r f' H Hf'.
    pose proof (proj1 (proj2 (parse_shorter (S f))) s l r H) as Hr.
    destruct f' as [|g]; [lia|].
    cbn [parse_members] in H |- *.
    destruct (skip_space s) as [|q t] eqn:Es; [discriminate|].
    pose proof (skip_space_cons s q t Es) as Ht.
    destruct (byte_val q =? 34); [|discriminate].
    destruct (unquote t) as [[k t1]|] eqn:Eu; [|discriminate].
    apply (unquote_length (String.length t)) in Eu; [|lia].
    destruct (skip_space t1) as [|c t2] eqn:E1; [discriminate|].
    pose proof (skip_space_cons t1 c t2 E1) as Ht2.
    destruct (byte_val c =? 58); [|discriminate].
    destruct (parse_value f t2) as [[v t3]|] eqn:Ev; [|discriminate].
    pose proof (Sv _ _ _ Ev) as Hv.
    destruct (skip_space t3) as [|d t4] eqn:E3; [discriminate|].
    pose proof (skip_space_cons t3 d t4 E3) as Ht4.
    assert (Hr4 : (String.length r ≤ String.length t4)%nat).
    { destruct (byte_val d =? 44).
      - destruct (parse_members f t4) as [[l' r']|] eqn:Em; [|discriminate].
        injection H as _ <-. apply Sm in Em. lia.
      - destruct (byte_val d =? 125); [|discriminate].
        injection H as _ <-. lia. }
    rewrite (IHv _ _ _ g Ev) by lia. rewrite E3.
    destruct (byte_val d =? 44); [|exact H].
    destruct (parse_members f t4) as [[l' r']|] eqn:Em; [|discriminate].
    injection H as <- <-.
    rewrite (IHm _ _ _ g Em); [reflexivity | lia].
  - intros s l r f' H Hf'.
    pose proof (proj2 (proj2 (parse_shorter (S f))) s l r H) as Hr.
    destruct f' as [|g]; [lia|].
    cbn [parse_elements] in H |- *.
    destruct (parse_value f s) as [[v t3]|] eqn:Ev; [|discriminate].
    pose proof (Sv _ _ _ Ev) as Hv.
    destruct (skip_space t3) as [|d t4] eqn:E3; [discriminate|].
    pose proof (skip_space_cons t3 d t4 E3) as Ht4.
    assert (Hr4 : (String.length r ≤ String.length t4)%nat).
    { destruct (byte_val d =? 44).
      - destruct (parse_elements f t4) as [[l' r']|] eqn:Em; [|discriminate].
        injection H as _ <-. apply Se in Em. lia.
      - destruct (byte_val d =? 93); [|discriminate].
        injection H as _ <-. lia. }
    rewrite (IHv _ _ _ g Ev) by lia. rewrite E3.
    destruct (byte_val d =? 44); [|exact H].
    destruct (parse_elements f t4) as [[l' r']|] eqn:Em; [|discriminate].
    injection H as <- <-.
    rewrite (IHe _ _ _ g Em); [reflexivity | lia].
Qed.

(** The fuel that [parse] gives is enough: more fuel reads the same. *)
Lemma parse_value_enough_fuel (f : nat) (data : string) :
  (String.length data < f)%nat →
  parse_value f data = parse_value (S (String.length data)) data.
Proof.
  intros Hf.
  destruct (parse_value (S (String.length data)) data) as [[v r]|] eqn:E.
  - apply (proj1 (parse_fuel _) _ _ _ f E). lia.
  - destruct (parse_value f data) as [[v r]|] eqn:E'; [|reflexivity].
    rewrite (proj1 (parse_fuel _) _ _ _ (S (String.length data)) E') in E;
      [discriminate | lia].
Qed.

End JsonFacts.
(** ** The registry: Get, Create, Remove, Path *)

Ltac run :=
  unfold Create, Remove, Get, List, Path, Mount, Unmount, exists_, volume,
    saveState, locked, get_volumes, assign, delete_volume, put_volumes,
    os_MkdirAll, os_Mkdir, ioutil_WriteFile, ioutil_ReadFile, emit, panic,
    mbind, M_bind, mret, M_ret; cbn [json.Marshal fst snd].

Lemma eqb_empty_false (s : string) : s ≠ "" → String.eqb s "" = false.
Proof. intros H. apply String.eqb_neq. exact H. Qed.

Lemma index_insert_eq (m : gmap string string) (k v : string) :
  index (Map (<[k := v]> m)) k = v.
Proof. unfold index. cbn. rewrite lookup_insert_eq. reflexivity. Qed.

Lemma Get_eq (driver : localPersistDriver) (req : Request.t) (w : World) :
  Get driver req w
  = Done (if String.eqb (index (volumes w) (Request.Name req)) ""
          then NotFound w (Request.Name req)
          else Found (Request.Name req)
                     (index (volumes w) (Request.Name req))) w.
Proof. run. destruct (String.eqb _ _); reflexivity. Qed.

(** [Create] of a name that does not exist yet, with a mountpoint, in a
    world whose map is not nil: what it returns and what it leaves. *)
Lemma Create_fresh (driver : localPersistDriver) (req : Request.t)
    (w : World) (m : gmap string string) :
  mountpoint_of req ≠ "" →
  volumes w = Map m →
  index (volumes w) (Request.Name req) = "" →
  ∃ w',
    Create driver req w
    = Done (match mkdirall_err w
                    (path.Join (baseDir driver) (mountpoint_of req)) with
            | Some e => failure (Error e)
            | None => Response.zero
            end) w'
    ∧ volumes w'
      = match mkdirall_err w
                (path.Join (baseDir driver) (mountpoint_of req)) with
        | Some _ => volumes w
        | None => Map (<[Request.Name req := mountpoint_of req]> m)
        end
    ∧ (writefile_err w (statefile driver) ≠ None → files w' = files w).
Proof.
  intros Hmp Hm Hidx. unfold Create. fold (mountpoint_of req).
  rewrite (eqb_empty_false _ Hmp). run. cbn. rewrite Hidx. cbn.
  destruct (mkdirall_err w _) as [e|]; cbn.
  - eexists. split; [reflexivity|]. split; reflexivity.
  - rewrite Hm. cbn. fold (statefile driver).
    destruct (writefile_err w (statefile driver)) as [e|]; cbn.
    + eexists. split; [reflexivity|]. split; reflexivity.
    + eexists. split; [reflexivity|]. split; [reflexivity|]. congruence.
Qed.

(** C2, as amended.  In a state where [name] exists (its stored
    mountpoint is not empty), a further [Create] of [name] changes neither
    the map nor the files, and [Get] still gives the stored mountpoint.
    The call fails with AlreadyExists when the options carry a non-empty
    mountpoint, and with MissingRequiredOption when they do not: the
    option is checked first. *)
Theorem Create_existing (driver : localPersistDriver) (req : Request.t)
    (w : World) :
  index (volumes w) (Request.Name req) ≠ "" →
  ∃ w',
    Create driver req w
    = Done (if String.eqb (mountpoint_of req) ""
            then MissingRequiredOption
            else AlreadyExists (Request.Name req)) w'
    ∧ volumes w' = volumes w
    ∧ files w' = files w
    ∧ trace w' = (trace w
                  ++ (if String.eqb (mountpoint_of req) "" then []
                      else [EvLock; EvUnlock]))%list
    ∧ Get driver req w'
      = Done (Found (Request.Name req)
                    (index (volumes w) (Request.Name req))) w'.
Proof.
  intros Hex.
  assert (Hget : ∀ w', volumes w' = volumes w →
            Get driver req w'
            = Done (Found (Request.Name req)
                      (index (volumes w) (Request.Name req))) w').
  { intros w' Hv. rewrite Get_eq, Hv, (eqb_empty_false _ Hex).
    reflexivity. }
  unfold Create, mountpoint_of.
  destruct (String.eqb (default "" (Request.Options req !! "mountpoint")) "").
  - exists w. rewrite app_nil_r. split; [reflexivity|].
    split; [reflexivity|]. split; [reflexivity|]. split; [reflexivity|].
    apply Hget. reflexivity.
  - run. cbn. rewrite (eqb_empty_false _ Hex). cbn.
    eexists. split; [reflexivity|]. split; [reflexivity|].
    split; [reflexivity|]. split; [cbn; rewrite <- app_assoc; reflexivity|].
    apply Hget. reflexivity.
Qed.

(** C2, an instance: [vol1] is created, then created again with another
    mountpoint. *)
Lemma Create_twice_vol1 :
  ∃ w', Create the_driver (request "vol1" {[ "mountpoint" := "elsewhere" ]})
               vol1_world
        = Done (AlreadyExists "vol1") w'
        ∧ volumes w' = volumes vol1_world
        ∧ Get the_driver (request "vol1" ∅) w'
          = Done (Found "vol1" "data/vol1") w'.
Proof.
  destruct (Create_existing the_driver
              (request "vol1" {[ "mountpoint" := "elsewhere" ]}) vol1_world)
    as (w' & H1 & H2 & _ & _ & H5).
  - vm_compute. discriminate.
  - exists w'. split; [exact H1|]. split; [exact H2|]. exact H5.
Defined.

(** C2 as stated fails: [vol1] exists after a successful [Create], and a
    second [Create] of [vol1] whose options have no mountpoint fails with
    MissingRequiredOption, not with AlreadyExists. *)
Lemma Create_existing_without_mountpoint :
  Create the_driver vol1_request fresh_world = Done Response.zero vol1_world
  ∧ index (volumes vol1_world) "vol1" = "data/vol1"
  ∧ Create the_driver (request "vol1" ∅) vol1_world
    = Done MissingRequiredOption vol1_world
  ∧ MissingRequiredOption ≠ AlreadyExists "vol1".
Proof.
  split; [reflexivity|]. split; [reflexivity|]. split; [reflexivity|].
  discriminate.
Qed.

(** C3.  When the options have no [mountpoint] or an empty one, [Create]
    fails with MissingRequiredOption and leaves the world as it was: no
    event is added to the trace (so no write of the state file is asked
    for), any later [Get] answers as it would have before, and a name that
    was not found is still not found. *)
Theorem Create_without_mountpoint (driver : localPersistDriver)
    (req : Request.t) (w : World) :
  Request.Options req !! "mountpoint" = None
  ∨ Request.Options req !! "mountpoint" = Some "" →
  Create driver req w = Done MissingRequiredOption w
  ∧ trace (world_of (Create driver req w)) = trace w
  ∧ (∀ q, (_ ← Create driver req; Get driver q) w = Get driver q w)
  ∧ (index (volumes w) (Request.Name req) = "" →
     (_ ← Create driver req; Get driver req) w
     = Done (NotFound w (Request.Name req)) w).
Proof.
  intros Hopt.
  assert (Hc : Create driver req w = Done MissingRequiredOption w).
  { unfold Create. destruct Hopt as [-> | ->]; reflexivity. }
  split; [exact Hc|]. split; [rewrite Hc; reflexivity|].
  split.
  - intros q. unfold mbind at 1, M_bind at 1. rewrite Hc. reflexivity.
  - intros Hidx. unfold mbind at 1, M_bind at 1. rewrite Hc.
    rewrite Get_eq, Hidx. reflexivity.
Qed.

(** C3, the scenario of the specification: [Create("vol2", {})]. *)
Lemma Create_without_mountpoint_vol2 :
  Create the_driver (request "vol2" ∅) vol1_world
  = Done MissingRequiredOption vol1_world
  ∧ (_ ← Create the_driver (request "vol2" ∅);
     Get the_driver (request "vol2" ∅)) vol1_world
    = Done (NotFound vol1_world "vol2") vol1_world.
Proof.
  pose proof (Create_without_mountpoint the_driver (request "vol2" ∅)
                vol1_world (or_introl eq_refl)) as (H1 & _ & _ & H4).
  split; [exact H1 | apply H4; reflexivity].
Defined.

(** C4.  [Remove] returns the empty response for every name, in every
    world.  The map afterwards is the map with the key deleted: unchanged
    when the name was absent, without exactly that key when it was
    present, and removing again changes nothing more.  In both cases the
    state file is written, under the lock, with the new map. *)
Theorem Remove_always_succeeds (driver : localPersistDriver)
    (req : Request.t) (w : World) :
  ∃ w',
    Remove driver req w = Done Response.zero w'
    ∧ volumes w' = delete_key (volumes w) (Request.Name req)
    ∧ (entries (volumes w) !! Request.Name req = None →
       volumes w' = volumes w)
    ∧ (∀ k, entries (volumes w') !! k
            = if decide (k = Request.Name req) then None
              else entries (volumes w) !! k)
    ∧ delete_key (volumes w') (Request.Name req) = volumes w'
    ∧ trace w' = (trace w
                  ++ [EvLock;
                      EvWriteFile (statefile driver)
                        (json.Marshal {| State := volumes w' |}).1 384;
                      EvUnlock])%list.
Proof.
  assert (Hdel : ∀ v k, entries (delete_key v k) !! k = None).
  { intros [|m] k; cbn; [apply lookup_empty | apply lookup_delete_eq]. }
  run. destruct (writefile_err _ _) eqn:E; cbn.
  all: eexists; split; [reflexivity|]; cbn.
  all: split; [reflexivity|]; split.
  all: try (intros Hnone; destruct (volumes w) as [|m]; cbn in *;
            [reflexivity | f_equal; apply delete_id; exact Hnone]).
  all: split;
    [ intros k; destruct (volumes w) as [|m]; cbn;
      [ rewrite lookup_empty; case_decide; reflexivity
      | rewrite lookup_delete; case_decide; [subst|]; case_decide; congruence ]
    | ].
  all: split; [| rewrite <- !app_assoc; reflexivity ].
  all: destruct (volumes w) as [|m]; cbn; [reflexivity|].
  all: f_equal; apply delete_id, lookup_delete_eq.
Qed.

(** C5, as amended.  [Path] (and [Mount] and [Unmount], which call it)
    never fails and leaves the world as it was; it returns
    [Join(baseDir, mountpoint)] with the stored mountpoint, the empty
    string for an unknown name.  For an unknown name that is the cleaned
    base directory (the empty string for an empty [baseDir]): [baseDir]
    itself exactly when [baseDir] is already clean. *)
Theorem Path_resolves (driver : localPersistDriver) (req : Request.t)
    (w : World) :
  Path driver req w
  = Done (Resolved (path.Join (baseDir driver)
                      (index (volumes w) (Request.Name req)))) w
  ∧ Mount driver req w = Path driver req w
  ∧ Unmount driver req w = Path driver req w
  ∧ (entries (volumes w) !! Request.Name req = None →
     Path driver req w
     = Done (Resolved (if String.eqb (baseDir driver) "" then ""
                       else path.Clean (baseDir driver))) w)
  ∧ (entries (volumes w) !! Request.Name req = None →
     path.Clean (baseDir driver) = baseDir driver →
     Path driver req w = Done (Resolved (baseDir driver)) w).
Proof.
  split; [reflexivity|]. split; [reflexivity|]. split; [reflexivity|].
  assert (Hj : entries (volumes w) !! Request.Name req = None →
    Path driver req w
     = Done (Resolved (if String.eqb (baseDir driver) "" then ""
                       else path.Clean (baseDir driver))) w).
  { intros Hnone. run. unfold index. rewrite Hnone. cbn [default].
    rewrite Join_empty. reflexivity. }
  split; [exact Hj|].
  intros Hnone Hclean. rewrite (Hj Hnone).
  destruct (String.eqb (baseDir driver) "") eqn:E.
  - apply String.eqb_eq in E. rewrite E. reflexivity.
  - rewrite Hclean. reflexivity.
Qed.

(** C5 as stated fails: with the base directory [/mnt/base/], resolving
    an unknown name gives [/mnt/base], which is not the base directory
    exactly. *)
Lemma Path_unknown_is_not_baseDir :
  entries (volumes fresh_world) !! "nope" = None
  ∧ Path slash_driver (request "nope" ∅) fresh_world
    = Done (Resolved "/mnt/base") fresh_world
  ∧ Resolved "/mnt/base" ≠ Resolved (baseDir slash_driver).
Proof.
  split; [reflexivity|]. split; [reflexivity|]. discriminate.
Qed.

(** The scenario of the specification: with the base directory
    [/mnt/base], [vol1] created with [data/vol1] resolves to
    [/mnt/base/data/vol1], and an unknown name to [/mnt/base]. *)
Example Path_vol1 :
  Path the_driver (request "vol1" ∅) vol1_world
  = Done (Resolved "/mnt/base/data/vol1") vol1_world
  ∧ Path the_driver (request "nope" ∅) vol1_world
    = Done (Resolved "/mnt/base") vol1_world.
Proof. split; reflexivity. Qed.

(** C7.  When the write of the state file fails, a [Create] that got as
    far as the write still returns the empty response and the name is
    mapped to its mountpoint in memory; a [Remove] still returns the empty
    response and the name is absent.  The files are as before. *)
Theorem failed_flush_keeps_mutation (driver : localPersistDriver)
    (req : Request.t) (w : World) (e : error) :
  writefile_err w (statefile driver) = Some e →
  (∀ m, mountpoint_of req ≠ "" →
        volumes w = Map m →
        index (volumes w) (Request.Name req) = "" →
        mkdirall_err w (path.Join (baseDir driver) (mountpoint_of req)) = None →
        ∃ w', Create driver req w = Done Response.zero w'
              ∧ volumes w' = Map (<[Request.Name req := mountpoint_of req]> m)
              ∧ index (volumes w') (Request.Name req) = mountpoint_of req
              ∧ EvWriteFile (statefile driver)
                  (json.Marshal {| State := volumes w' |}).1 384 ∈ trace w'
              ∧ files w' = files w)
  ∧ (∃ w', Remove driver req w = Done Response.zero w'
           ∧ volumes w' = delete_key (volumes w) (Request.Name req)
           ∧ entries (volumes w') !! Request.Name req = None
           ∧ EvWriteFile (statefile driver)
               (json.Marshal {| State := volumes w' |}).1 384 ∈ trace w'
           ∧ files w' = files w).
Proof.
  intros Hw. split.
  - intros m Hmp Hm Hidx Hmk.
    unfold Create. fold (mountpoint_of req).
    rewrite (eqb_empty_false _ Hmp). run. cbn. rewrite Hidx. cbn.
    rewrite Hmk. cbn. rewrite Hm. cbn. fold (statefile driver).
    rewrite Hw. cbn. eexists. split; [reflexivity|]. cbn.
    split; [reflexivity|]. split; [apply index_insert_eq|].
    split; [|reflexivity].
    rewrite !elem_of_app, !list_elem_of_singleton. left. right. reflexivity.
  - run. cbn. fold (statefile driver). rewrite Hw. cbn.
    eexists. split; [reflexivity|]. cbn. split; [reflexivity|].
    split; [|split; [|reflexivity]].
    + destruct (volumes w) as [|m]; cbn; [apply lookup_empty|].
      apply lookup_delete_eq.
    + rewrite !elem_of_app, !list_elem_of_singleton. left. right. reflexivity.
Qed.

(** C7, an instance: the state directory is read-only. *)
Lemma failed_flush_vol1 :
  (∃ w', Create the_driver vol1_request readonly_world = Done Response.zero w'
         ∧ index (volumes w') "vol1" = "data/vol1"
         ∧ files w' = ∅)
  ∧ (∃ w', Remove the_driver (request "old" ∅) readonly_world
           = Done Response.zero w'
           ∧ entries (volumes w') !! "old" = None).
Proof.
  destruct (failed_flush_keeps_mutation the_driver vol1_request readonly_world
              (PathError "read-only file system") eq_refl) as [Hc _].
  destruct (failed_flush_keeps_mutation the_driver (request "old" ∅)
              readonly_world (PathError "read-only file system") eq_refl)
    as [_ (w2 & Hr1 & _ & Hr3 & _)].
  destruct (Hc {[ "old" := "data/old" ]}) as (w1 & H1 & _ & H3 & _ & H4).
  - vm_compute. discriminate.
  - reflexivity.
  - reflexivity.
  - reflexivity.
  - split.
    + exists w1. split; [exact H1|]. split; [exact H3 | exact H4].
    + exists w2. split; [exact Hr1 | exact Hr3].
Defined.

(** C10.  The existence test is that the stored mountpoint is not the
    empty string.  In a state where a name is mapped to the empty string,
    [Get] of that name reports that it is not found, and [Create] of it
    with a non-empty mountpoint never answers AlreadyExists: it goes on to
    make the directory, and when that succeeds it returns the empty
    response and overwrites the entry. *)
Theorem empty_mountpoint_entry_counts_as_absent (driver : localPersistDriver)
    (req : Request.t) (w : World) (m : gmap string string) :
  volumes w = Map m →
  m !! Request.Name req = Some "" →
  Get driver req w = Done (NotFound w (Request.Name req)) w
  ∧ (mountpoint_of req ≠ "" →
     ∃ w',
       Create driver req w
       = Done (match mkdirall_err w
                       (path.Join (baseDir driver) (mountpoint_of req)) with
               | Some e => failure (Error e)
               | None => Response.zero
               end) w'
       ∧ (mkdirall_err w (path.Join (baseDir driver) (mountpoint_of req))
          = None →
          volumes w' = Map (<[Request.Name req := mountpoint_of req]> m)
          ∧ Get driver req w'
            = Done (Found (Request.Name req) (mountpoint_of req)) w')).
Proof.
  intros Hm Hk.
  assert (Hidx : index (volumes w) (Request.Name req) = "").
  { rewrite Hm. unfold index. cbn. rewrite Hk. reflexivity. }
  split.
  - rewrite Get_eq, Hidx. reflexivity.
  - intros Hmp.
    destruct (Create_fresh driver req w m Hmp Hm Hidx) as (w' & H1 & H2 & _).
    exists w'. split; [exact H1|]. intros Hmk. rewrite Hmk in H2.
    split; [exact H2|]. rewrite Get_eq, H2, index_insert_eq.
    rewrite (eqb_empty_false _ Hmp). reflexivity.
Qed.

(** C10, an instance: [vol1] is mapped to the empty string. *)
Lemma empty_mountpoint_entry_vol1 :
  Get the_driver vol1_request blank_entry_world
  = Done (NotFound blank_entry_world "vol1") blank_entry_world
  ∧ ∃ w', Create the_driver vol1_request blank_entry_world
          = Done Response.zero w'
          ∧ volumes w' = Map (<["vol1" := "data/vol1"]> {[ "vol1" := "" ]}).
Proof.
  destruct (empty_mountpoint_entry_counts_as_absent the_driver vol1_request
              blank_entry_world {[ "vol1" := "" ]} eq_refl eq_refl)
    as [Hg Hc].
  split; [exact Hg|].
  destruct Hc as (w' & H1 & H2); [vm_compute; discriminate|].
  exists w'. split; [exact H1|]. apply H2. reflexivity.
Defined.

(** [Create] never stores the empty string: an entry with the empty
    mountpoint is one the map already had. *)
Lemma Create_stores_no_empty_mountpoint (driver : localPersistDriver)
    (req : Request.t) (w w' : World) (resp : Response.t) (k : string) :
  Create driver req w = Done resp w' →
  entries (volumes w') !! k = Some "" →
  entries (volumes w) !! k = Some "".
Proof.
  unfold Create. fold (mountpoint_of req).
  destruct (String.eqb (mountpoint_of req) "") eqn:Emp.
  { intros [= _ <-]. auto. }
  apply String.eqb_neq in Emp. run. cbn.
  destruct (negb _); cbn; [intros [= _ <-]; auto|].
  destruct (mkdirall_err w _); cbn; [intros [= _ <-]; auto|].
  destruct (volumes w) as [|m] eqn:Ev; cbn; [discriminate|].
  destruct (writefile_err w _); cbn; intros [= _ <-]; cbn.
  all: rewrite lookup_insert; case_decide; [congruence | auto].
Qed.

(** The state file can hold such an entry: a [null] member is read as the
    empty string. *)
Example Unmarshal_null_member :
  json.Unmarshal
    ("{" ++ json.appendString "state" ++ ":{" ++ json.appendString "vol1"
     ++ ":null}}")
  = inl {| State := Map {[ "vol1" := "" ]} |}.
Proof. reflexivity. Qed.

(** C9, on the code: [Get], [List] and [Path] (so [Mount] and [Unmount])
    leave the world as it was, trace included: they ask nothing of the
    mutex.  [Create] (once the option is there) and [Remove] bracket what
    they do between a lock and an unlock. *)
Theorem reads_take_no_lock (driver : localPersistDriver) (req : Request.t)
    (w : World) :
  world_of (Get driver req w) = w
  ∧ world_of (List driver req w) = w
  ∧ world_of (Path driver req w) = w
  ∧ world_of (Mount driver req w) = w
  ∧ world_of (Unmount driver req w) = w
  ∧ (mountpoint_of req ≠ "" →
     ∃ t, trace (world_of (Create driver req w))
          = (trace w ++ EvLock :: t ++ [EvUnlock])%list)
  ∧ (∃ t, trace (world_of (Remove driver req w))
          = (trace w ++ EvLock :: t ++ [EvUnlock])%list).
Proof.
  split; [rewrite Get_eq; reflexivity|].
  split; [reflexivity|]. split; [reflexivity|].
  split; [reflexivity|]. split; [reflexivity|]. split.
  - intros Hmp. unfold Create. fold (mountpoint_of req).
    rewrite (eqb_empty_false _ Hmp). run. cbn.
    destruct (negb _); cbn.
    + exists []. rewrite <- app_assoc. reflexivity.
    + destruct (mkdirall_err w _); cbn.
      * eexists [_]. rewrite <- !app_assoc. reflexivity.
      * destruct (volumes w); cbn.
        -- eexists [_]. rewrite <- !app_assoc. reflexivity.
        -- destruct (writefile_err w _); cbn;
             eexists [_; _]; rewrite <- !app_assoc; reflexivity.
  - run. destruct (writefile_err _ _); cbn;
      eexists [_]; rewrite <- !app_assoc; reflexivity.
Qed.

(** X2.  When the map is nil, [Create] of a new name with a mountpoint
    panics at the assignment, after the directory was made; the deferred
    unlock still runs. *)
Theorem Create_on_nil_map_panics (driver : localPersistDriver)
    (req : Request.t) (w : World) :
  volumes w = NilMap →
  mountpoint_of req ≠ "" →
  mkdirall_err w (path.Join (baseDir driver) (mountpoint_of req)) = None →
  Create driver req w
  = Panicked "assignment to entry in nil map"
      (extend [EvLock;
               EvMkdirAll (path.Join (baseDir driver) (mountpoint_of req)) 493;
               EvUnlock] w).
Proof.
  intros Hnil Hmp Hmk. unfold Create. fold (mountpoint_of req).
  rewrite (eqb_empty_false _ Hmp). run. cbn.
  unfold index. rewrite Hnil. cbn. rewrite lookup_empty. cbn.
  rewrite Hmk. cbn. rewrite Hnil.
  unfold extend, log. cbn. rewrite <- ?app_assoc. reflexivity.
Qed.

(** X2, an instance; and a state file that makes the loaded map nil. *)
Lemma Create_on_nil_map_vol1 :
  Create the_driver vol1_request (world NilMap ∅ quiet_daemon None)
  = Panicked "assignment to entry in nil map"
      (extend [EvLock; EvMkdirAll "/mnt/base/data/vol1" 493; EvUnlock]
              (world NilMap ∅ quiet_daemon None))
  ∧ json.Unmarshal ("{" ++ json.appendString "state" ++ ":null}")
    = inl {| State := NilMap |}.
Proof.
  split; [|reflexivity].
  apply (Create_on_nil_map_panics the_driver vol1_request
           (world NilMap ∅ quiet_daemon None)).
  - reflexivity.
  - vm_compute. discriminate.
  - reflexivity.
Defined.

(** ** The state file: saveState and findExistingVolumesFromStateFile *)

(** What the load returns depends on the files and the read faults only. *)
Lemma load_extend (driver : localPersistDriver) (w : World)
    (es : list event) :
  result_of (findExistingVolumesFromStateFile driver (extend es w))
  = result_of (findExistingVolumesFromStateFile driver w).
Proof.
  unfold findExistingVolumesFromStateFile, mbind, M_bind, ioutil_ReadFile.
  cbn. destruct (readfile_err w _); [reflexivity|].
  destruct (files w !! _); [|reflexivity].
  destruct (json.Unmarshal _); reflexivity.
Qed.

(** The load always returns, and with an error it returns the empty map. *)
Lemma load_returns (driver : localPersistDriver) (w : World) :
  (∃ r, result_of (findExistingVolumesFromStateFile driver w) = Some r)
  ∧ (∀ e m, result_of (findExistingVolumesFromStateFile driver w)
            = Some (Some e, m) → m = Map ∅).
Proof.
  unfold findExistingVolumesFromStateFile, mbind, M_bind, ioutil_ReadFile.
  destruct (readfile_err w _); cbn.
  { split; eauto. intros e' m [= ]; auto. }
  destruct (files w !! _); cbn.
  - destruct (json.Unmarshal _); cbn; split; eauto; intros e' m [= ]; auto.
  - split; eauto. intros e' m [= ]; auto.
Qed.

(** C6, as amended.  For every map whose names and mountpoints are valid
    UTF-8, the nil map and the empty map included: when the state file can
    be written and read, [saveState] succeeds and
    [findExistingVolumesFromStateFile] then returns that map, with no
    error. *)
Theorem snapshot_round_trip (driver : localPersistDriver) (S : GoMap)
    (w : World) :
  valid_map S →
  writefile_err w (statefile driver) = None →
  readfile_err w (statefile driver) = None →
  ∃ w1 w2,
    saveState driver S w = Done None w1
    ∧ findExistingVolumesFromStateFile driver w1 = Done (None, S) w2.
Proof.
  intros Hvalid Hwrite Hread.
  unfold saveState, findExistingVolumesFromStateFile, mbind, M_bind,
    ioutil_WriteFile, ioutil_ReadFile.
  cbn [json.Marshal]. fold (statefile driver). rewrite Hwrite.
  eexists. eexists. split; [reflexivity|]. cbn.
  rewrite Hread, lookup_insert_eq.
  change ("{" ++ json.appendString "state" ++ ":" ++ json.encode_map S ++ "}")
    with (json.Marshal {| State := S |}).1.
  rewrite (Unmarshal_Marshal S Hvalid). reflexivity.
Qed.

(** C6, two instances: the empty map, and a map with one volume. *)
Lemma snapshot_round_trip_vol1 :
  (∃ w1 w2,
     saveState the_driver (Map ∅) fresh_world = Done None w1
     ∧ findExistingVolumesFromStateFile the_driver w1 = Done (None, Map ∅) w2)
  ∧ (∃ w1 w2,
       saveState the_driver (volumes vol1_world) fresh_world = Done None w1
       ∧ findExistingVolumesFromStateFile the_driver w1
         = Done (None, volumes vol1_world) w2).
Proof.
  split.
  - apply (snapshot_round_trip the_driver (Map ∅) fresh_world);
      [|reflexivity|reflexivity].
    unfold valid_map. cbn. apply map_Forall_empty.
  - apply (snapshot_round_trip the_driver (volumes vol1_world) fresh_world);
      [|reflexivity|reflexivity].
    unfold valid_map. cbn. apply map_Forall_insert_2; [|apply map_Forall_empty].
    split; reflexivity.
Defined.

(** C6 as stated fails: a mountpoint that is the byte 0xFF is saved as the
    escape of U+FFFD and comes back as the three bytes of U+FFFD. *)
Lemma snapshot_round_trip_invalid_utf8 :
  result_of (saveState the_driver broken_map fresh_world) = Some None
  ∧ result_of (findExistingVolumesFromStateFile the_driver
                 (world_of (saveState the_driver broken_map fresh_world)))
    = Some (None, replaced_map)
  ∧ replaced_map ≠ broken_map.
Proof.
  split; [reflexivity|]. split; [vm_compute; reflexivity|].
  intros H. vm_compute in H. discriminate H.
Qed.

(** ** Reconciliation: findExistingVolumesFromDockerDaemon *)

Lemma extend_extend (es1 es2 : list event) (w : World) :
  extend es2 (extend es1 w) = extend (es1 ++ es2) w.
Proof. unfold extend. cbn. rewrite <- app_assoc. reflexivity. Qed.

Lemma inspect_all_ok (driver : localPersistDriver)
    (cs : list types.Container) :
  ∀ vols w mounts,
    inspections (daemon w) cs = Some mounts →
    inspect_all driver cs vols w
    = Done (collect_mounts driver vols mounts)
           (extend (map (fun c => EvContainerInspect (types.ID c)) cs) w).
Proof.
  induction cs as [|c cs IH]; intros vols w mounts H; cbn in H.
  - injection H as <-. cbn. unfold mret, M_ret, extend. cbn.
    rewrite app_nil_r. destruct w; reflexivity.
  - destruct (ContainerInspect (daemon w) (types.ID c)) as [info|e] eqn:E;
      [|discriminate].
    destruct (inspections (daemon w) cs) as [l|] eqn:El; [|discriminate].
    injection H as <-.
    cbn [inspect_all]. unfold mbind, M_bind, cli_ContainerInspect.
    rewrite E.
    rewrite (IH _ (log (EvContainerInspect (types.ID c)) w) l El).
    unfold collect_mounts. rewrite foldl_app. f_equal.
    change (log ?e w) with (extend [e] w). rewrite extend_extend.
    reflexivity.
Qed.

Lemma inspect_all_panics (driver : localPersistDriver)
    (cs : list types.Container) :
  ∀ vols w,
    inspections (daemon w) cs = None →
    result_of (inspect_all driver cs vols w) = None.
Proof.
  induction cs as [|c cs IH]; intros vols w H; cbn in H; [discriminate|].
  cbn [inspect_all]. unfold mbind, M_bind, cli_ContainerInspect.
  destruct (ContainerInspect (daemon w) (types.ID c)) as [info|e] eqn:E.
  - apply IH. cbn. destruct (inspections (daemon w) cs); [discriminate|].
    reflexivity.
  - reflexivity.
Qed.

Lemma findExistingVolumesFromDockerDaemon_eq (driver : localPersistDriver)
    (w : World) :
  findExistingVolumesFromDockerDaemon driver w
  = match NewClient_err (daemon w) with
    | Some e => Done (Some e, Map ∅) (extend [EvNewClient] w)
    | None =>
        match inspect_all driver (ContainerList (daemon w)).1 ∅
                (extend [EvNewClient; EvContainerList] w) with
        | Done vols w' =>
            if bool_decide ((ContainerList (daemon w)).2 ≠ None)
               || Nat.eqb (size vols) 0
            then findExistingVolumesFromStateFile driver w'
            else Done (None, Map vols) w'
        | Panicked msg w' => Panicked msg w'
        end
    end.
Proof.
  unfold findExistingVolumesFromDockerDaemon, mbind, M_bind,
    client_NewClient, cli_ContainerList.
  destruct (NewClient_err (daemon w)) as [e|]; [reflexivity|].
  cbn [daemon log]. destruct (ContainerList (daemon w)) as [cs err].
  cbn [fst snd].
  replace (log EvContainerList (log EvNewClient w))
    with (extend [EvNewClient; EvContainerList] w)
    by (unfold extend, log; cbn; rewrite <- app_assoc; reflexivity).
  destruct (inspect_all driver cs ∅ _); [|reflexivity].
  destruct (_ || _); reflexivity.
Qed.

(** What the reconciliation returns, by the answers of the daemon. *)
Lemma reconciliation_result (driver : localPersistDriver) (w : World) :
  match NewClient_err (daemon w) with
  | Some e =>
      result_of (findExistingVolumesFromDockerDaemon driver w)
      = Some (Some e, Map ∅)
  | None =>
      match inspections (daemon w) (ContainerList (daemon w)).1 with
      | None =>
          result_of (findExistingVolumesFromDockerDaemon driver w) = None
      | Some mounts =>
          let live := collect_mounts driver ∅ mounts in
          if bool_decide ((ContainerList (daemon w)).2 = None ∧ live ≠ ∅)
          then result_of (findExistingVolumesFromDockerDaemon driver w)
               = Some (None, Map live)
          else result_of (findExistingVolumesFromDockerDaemon driver w)
               = result_of (findExistingVolumesFromStateFile driver w)
      end
  end.
Proof.
  rewrite findExistingVolumesFromDockerDaemon_eq.
  destruct (NewClient_err (daemon w)) as [e|]; [reflexivity|].
  destruct (ContainerList (daemon w)) as [containers err].
  cbn [fst snd].
  destruct (inspections (daemon w) containers) as [mounts|] eqn:Ei.
  - rewrite (inspect_all_ok driver containers ∅ _ mounts)
      by (cbn; exact Ei).
    cbn zeta. rewrite extend_extend.
    case_bool_decide as Hd.
    + destruct Hd as [-> Hne].
      rewrite bool_decide_eq_false_2 by (intros H; apply H; reflexivity).
      cbn [orb].
      destruct (Nat.eqb (size _) 0) eqn:Es; [|reflexivity].
      apply Nat.eqb_eq in Es. apply map_size_empty_iff in Es. contradiction.
    + assert (Hor : bool_decide (err ≠ None)
                    || Nat.eqb (size (collect_mounts driver ∅ mounts)) 0
                    = true).
      { destruct err as [e|]; [reflexivity|]. cbn.
        apply Nat.eqb_eq, map_size_empty_iff.
        destruct (decide (collect_mounts driver ∅ mounts = ∅)); [done|].
        exfalso. apply Hd. split; done. }
      rewrite Hor. apply load_extend.
  - pose proof (inspect_all_panics driver containers ∅
                  (extend [EvNewClient; EvContainerList] w) Ei) as Hp.
    destruct (inspect_all driver containers ∅ _); [discriminate|reflexivity].
Qed.

(** C1, as amended.  When the client is made and every listed container
    is inspected: if the listing succeeded and the mounts of this driver
    are not empty, they are the result; otherwise the result is that of
    [findExistingVolumesFromStateFile], which always returns and returns
    the empty map when it fails.  When the client cannot be made the
    result is the empty map with that error, and the state file is not
    read; when an inspection fails the routine panics. *)
Theorem reconciliation_cases (driver : localPersistDriver) (w : World) :
  match NewClient_err (daemon w) with
  | Some e =>
      result_of (findExistingVolumesFromDockerDaemon driver w)
      = Some (Some e, Map ∅)
  | None =>
      match inspections (daemon w) (ContainerList (daemon w)).1 with
      | None =>
          result_of (findExistingVolumesFromDockerDaemon driver w) = None
      | Some mounts =>
          let live := collect_mounts driver ∅ mounts in
          if bool_decide ((ContainerList (daemon w)).2 = None ∧ live ≠ ∅)
          then result_of (findExistingVolumesFromDockerDaemon driver w)
               = Some (None, Map live)
          else result_of (findExistingVolumesFromDockerDaemon driver w)
               = result_of (findExistingVolumesFromStateFile driver w)
      end
  end
  ∧ (∃ r, result_of (findExistingVolumesFromStateFile driver w) = Some r)
  ∧ (∀ e m, result_of (findExistingVolumesFromStateFile driver w)
            = Some (Some e, m) → m = Map ∅).
Proof.
  split; [apply reconciliation_result | apply load_returns].
Qed.

(** C1 as stated fails.  The state file holds [B -> /p2].  With a
    container that is gone by the time it is inspected, the live query
    fails and the routine panics: nothing is returned.  With a client that
    cannot be made, the routine returns the empty map and not the
    snapshot. *)
Lemma failed_query_without_fallback :
  (result_of (findExistingVolumesFromStateFile the_driver
                (snapshot_world racing_daemon))
   = Some (None, Map saved_B)
   ∧ inspections racing_daemon (ContainerList racing_daemon).1 = None
   ∧ result_of (findExistingVolumesFromDockerDaemon the_driver
                  (snapshot_world racing_daemon)) = None)
  ∧ (result_of (findExistingVolumesFromStateFile the_driver
                  (snapshot_world unreachable_daemon))
     = Some (None, Map saved_B)
     ∧ result_of (findExistingVolumesFromDockerDaemon the_driver
                    (snapshot_world unreachable_daemon))
       = Some (Some (DaemonError "unable to parse docker host"), Map ∅)
     ∧ Map ∅ ≠ Map saved_B).
Proof.
  split; split; try reflexivity; split; try reflexivity.
  intros H. vm_compute in H. discriminate H.
Qed.

(** The scenarios of the specification: a live source with [vol1] wins
    over the snapshot; an empty live source falls back to it. *)
Example reconciliation_precedence :
  result_of (findExistingVolumesFromDockerDaemon the_driver
               (snapshot_world busy_daemon))
  = Some (None, Map {[ "vol1" := "/mnt/base/b" ]})
  ∧ result_of (findExistingVolumesFromDockerDaemon the_driver
                 (snapshot_world quiet_daemon))
    = Some (None, Map saved_B).
Proof. split; reflexivity. Qed.

Lemma collect_mounts_last (driver : localPersistDriver)
    (after : list types.MountPoint) :
  ∀ (vols : gmap string string) (n src : string),
    vols !! n = Some src →
    (∀ m', m' ∈ after → types.Driver m' = name driver →
           types.Name m' ≠ n) →
    collect_mounts driver vols after !! n = Some src.
Proof.
  induction after as [|m' after IH]; intros vols n src Hv Hlater; [exact Hv|].
  cbn. apply IH.
  - destruct (String.eqb (types.Driver m') (name driver)) eqn:E; [|exact Hv].
    apply String.eqb_eq in E.
    rewrite lookup_insert_ne; [exact Hv|].
    apply Hlater; [left | exact E].
  - intros m'' Hin. apply Hlater. right. exact Hin.
Qed.

(** C8.  When the live query succeeds, the mounts are taken in the order
    the containers are listed and their mounts given, and the result maps
    a name to the source of its last mount of this driver: a mount [m] of
    this driver with no later mount of this driver under the same name
    decides the entry, whatever earlier mounts said. *)
Theorem last_observation_wins (driver : localPersistDriver) (w : World)
    (mounts before after : list types.MountPoint) (m : types.MountPoint) :
  NewClient_err (daemon w) = None →
  (ContainerList (daemon w)).2 = None →
  inspections (daemon w) (ContainerList (daemon w)).1 = Some mounts →
  mounts = (before ++ m :: after)%list →
  types.Driver m = name driver →
  (∀ m', m' ∈ after → types.Driver m' = name driver →
         types.Name m' ≠ types.Name m) →
  ∃ vols,
    result_of (findExistingVolumesFromDockerDaemon driver w)
    = Some (None, Map vols)
    ∧ vols !! types.Name m = Some (types.Source m).
Proof.
  intros Hc Herr Hi -> Hd Hlater.
  assert (Hl : collect_mounts driver ∅ (before ++ m :: after)
               !! types.Name m = Some (types.Source m)).
  { unfold collect_mounts. rewrite foldl_app. cbn.
    apply collect_mounts_last; [|exact Hlater].
    rewrite (proj2 (String.eqb_eq _ _) Hd). apply lookup_insert_eq. }
  exists (collect_mounts driver ∅ (before ++ m :: after)).
  split; [|exact Hl].
  pose proof (reconciliation_result driver w) as H.
  rewrite Hc, Hi in H. cbn zeta in H.
  rewrite bool_decide_eq_true_2 in H; [exact H|].
  split; [exact Herr|]. intros He. rewrite He, lookup_empty in Hl.
  discriminate.
Qed.

(** C8, an instance: two containers mount [vol1], the first from
    [/mnt/base/a] and the second from [/mnt/base/b]. *)
Lemma last_observation_wins_vol1 :
  ∃ vols,
    result_of (findExistingVolumesFromDockerDaemon the_driver
                 (snapshot_world busy_daemon))
    = Some (None, Map vols)
    ∧ vols !! "vol1" = Some "/mnt/base/b".
Proof.
  apply (last_observation_wins the_driver (snapshot_world busy_daemon)
           [ mount "vol1" "/mnt/base/a" "local-persist";
             mount "" "/etc/hosts" "";
             mount "vol1" "/mnt/base/b" "local-persist";
             mount "other" "/var/x" "local" ]
           [ mount "vol1" "/mnt/base/a" "local-persist";
             mount "" "/etc/hosts" "" ]
           [ mount "other" "/var/x" "local" ]
           (mount "vol1" "/mnt/base/b" "local-persist")).
  - reflexivity.
  - reflexivity.
  - reflexivity.
  - reflexivity.
  - reflexivity.
  - intros m' Hin Hdrv. apply list_elem_of_singleton in Hin. subst m'.
    discriminate Hdrv.
Defined.

(** ** Startup: newLocalPersistDriver *)

(** X1.  The constructor takes the map from the state file, whatever the
    load returns, and never asks the daemon: it makes the state directory
    and reads the state file, and that is all. *)
Theorem newLocalPersistDriver_reads_state_file (n base state : string)
    (dbg : bool) (w : World) :
  let driver := {| debug := dbg; name := n; baseDir := base;
                   stateDir := state |} in
  ∃ r w',
    result_of (findExistingVolumesFromStateFile driver w) = Some r
    ∧ newLocalPersistDriver n base state dbg w = Done driver w'
    ∧ volumes w' = r.2
    ∧ trace w' = (trace w ++ [EvMkdir state 448;
                              EvReadFile (statefile driver)])%list.
Proof.
  cbn zeta. unfold newLocalPersistDriver, findExistingVolumesFromStateFile,
    mbind, M_bind, put_volumes, os_Mkdir, emit, ioutil_ReadFile, statefile.
  cbn.
  destruct (readfile_err w _); cbn.
  { eexists. eexists. split; [reflexivity|]. split; [reflexivity|].
    cbn. split; [reflexivity|]. rewrite <- app_assoc. reflexivity. }
  destruct (files w !! _); cbn.
  - destruct (json.Unmarshal _); cbn.
    all: eexists; eexists; split; [reflexivity|]; split; [reflexivity|].
    all: cbn; split; [reflexivity|]; rewrite <- app_assoc; reflexivity.
  - eexists. eexists. split; [reflexivity|]. split; [reflexivity|].
    cbn. split; [reflexivity|]. rewrite <- app_assoc. reflexivity.
Qed.
(** ** The registry, continued: what the handlers leave and how they
       compose *)

Lemma after_id (w : World) : after (volumes w) (files w) [] w = w.
Proof. unfold after. rewrite app_nil_r. destruct w; reflexivity. Qed.

(** [Create], case by case. *)
Lemma Create_eq (driver : localPersistDriver) (req : Request.t) (w : World) :
  Create driver req w
  = if String.eqb (mountpoint_of req) "" then Done MissingRequiredOption w
    else if negb (String.eqb (index (volumes w) (Request.Name req)) "")
    then Done (AlreadyExists (Request.Name req)) (extend [EvLock; EvUnlock] w)
    else
      match mkdirall_err w (realMountpoint driver req) with
      | Some e =>
          Done (failure (Error e))
            (extend [EvLock; EvMkdirAll (realMountpoint driver req) 493;
                     EvUnlock] w)
      | None =>
          match volumes w with
          | NilMap =>
              Panicked "assignment to entry in nil map"
                (extend [EvLock; EvMkdirAll (realMountpoint driver req) 493;
                         EvUnlock] w)
          | Map m =>
              Done Response.zero
                (after (Map (<[Request.Name req := mountpoint_of req]> m))
                   (flushed driver
                      (Map (<[Request.Name req := mountpoint_of req]> m)) w)
                   (create_events driver req
                      (Map (<[Request.Name req := mountpoint_of req]> m))) w)
          end
      end.
Proof.
  unfold Create, realMountpoint. fold (mountpoint_of req).
  destruct (String.eqb (mountpoint_of req) ""); [reflexivity|].
  run. cbn.
  destruct (negb (String.eqb (index (volumes w) (Request.Name req)) "")); cbn.
  { unfold extend, log. cbn. rewrite <- !app_assoc. reflexivity. }
  destruct (mkdirall_err w _); cbn.
  { unfold extend, log. cbn. rewrite <- !app_assoc. reflexivity. }
  destruct (volumes w) as [|m] eqn:Ev; cbn.
  { unfold extend, log. cbn. rewrite Ev, <- !app_assoc. reflexivity. }
  fold (statefile driver).
  unfold flushed, after, create_events, snapshot, realMountpoint.
  destruct (writefile_err w (statefile driver)); cbn.
  all: unfold log, set_volumes, set_files; cbn.
  all: rewrite <- !app_assoc; reflexivity.
Qed.

(** [Create] on the path that stores the volume. *)
Lemma Create_stores (driver : localPersistDriver) (req : Request.t)
    (w : World) (m : gmap string string) :
  mountpoint_of req ≠ "" →
  volumes w = Map m →
  index (volumes w) (Request.Name req) = "" →
  mkdirall_err w (realMountpoint driver req) = None →
  Create driver req w
  = Done Response.zero
      (after (Map (<[Request.Name req := mountpoint_of req]> m))
         (flushed driver (Map (<[Request.Name req := mountpoint_of req]> m)) w)
         (create_events driver req
            (Map (<[Request.Name req := mountpoint_of req]> m))) w).
Proof.
  intros Hmp Hm Hidx Hmk. rewrite Create_eq.
  rewrite (eqb_empty_false _ Hmp), Hidx, Hmk, Hm. reflexivity.
Qed.

Lemma Remove_eq (driver : localPersistDriver) (req : Request.t) (w : World) :
  Remove driver req w
  = Done Response.zero
      (after (delete_key (volumes w) (Request.Name req))
         (flushed driver (delete_key (volumes w) (Request.Name req)) w)
         (remove_events driver (delete_key (volumes w) (Request.Name req)))
         w).
Proof.
  run. fold (statefile driver).
  unfold flushed, after, remove_events, snapshot.
  cbn. destruct (writefile_err w (statefile driver)); cbn.
  all: unfold log, set_volumes, set_files; cbn.
  all: rewrite <- !app_assoc; reflexivity.
Qed.

Lemma List_eq (driver : localPersistDriver) (req : Request.t) (w : World) :
  List driver req w
  = Done (Listing (map (fun kv : string * string =>
                          vol kv.1 (index (volumes w) kv.1))
                       (map_to_list (entries (volumes w))))) w.
Proof. reflexivity. Qed.

(** The listed volumes are the entries of the map. *)
Lemma elem_of_listing (v : GoMap) (x : Volume.t) :
  x ∈ map (fun kv : string * string => vol kv.1 (index v kv.1))
          (map_to_list (entries v))
  ↔ entries v !! Volume.Name x = Some (Volume.Mountpoint x).
Proof.
  change (map ?f ?l) with (f <$> l). rewrite list_elem_of_fmap. split.
  - intros ([k y] & -> & Hin). apply elem_of_map_to_list in Hin.
    cbn. unfold index. rewrite Hin. reflexivity.
  - intros H. exists (Volume.Name x, Volume.Mountpoint x). split.
    + cbn. unfold index. rewrite H. destruct x; reflexivity.
    + apply elem_of_map_to_list. exact H.
Qed.

Lemma index_blank_iff (v : GoMap) (k : string) :
  index v k = "" ↔ ∀ mp, entries v !! k = Some mp → mp = "".
Proof.
  unfold index. destruct (entries v !! k) as [x|]; cbn; split.
  - intros -> mp [= <-]. reflexivity.
  - intros H. apply H. reflexivity.
  - intros _ mp [=].
  - reflexivity.
Qed.

Lemma Path_eq (driver : localPersistDriver) (req : Request.t) (w : World) :
  Path driver req w
  = Done (Resolved (path.Join (baseDir driver)
                      (index (volumes w) (Request.Name req)))) w.
Proof. reflexivity. Qed.
(** X3.  A [Create] that stores its volume (a mountpoint is given, the
    name does not exist, the map is not nil, the directory can be made)
    returns the empty response whether or not the state file could be
    written.  Afterwards [Get] of the name finds it with the mountpoint as
    the option gave it, [Path] resolves it to the directory that [Create]
    made ([Join(baseDir, mountpoint)], mode 0755), and [List] has it. *)
Theorem Create_then_lookup (driver : localPersistDriver) (req : Request.t)
    (w : World) (m : gmap string string) :
  mountpoint_of req ≠ "" →
  volumes w = Map m →
  index (volumes w) (Request.Name req) = "" →
  mkdirall_err w (realMountpoint driver req) = None →
  ∃ w',
    Create driver req w = Done Response.zero w'
    ∧ EvMkdirAll (realMountpoint driver req) 493 ∈ trace w'
    ∧ (∀ q, Request.Name q = Request.Name req →
         Get driver q w'
         = Done (Found (Request.Name req) (mountpoint_of req)) w'
         ∧ Path driver q w'
           = Done (Resolved (realMountpoint driver req)) w'
         ∧ ∃ vs, List driver q w' = Done (Listing vs) w'
                 ∧ vol (Request.Name req) (mountpoint_of req) ∈ vs).
Proof.
  intros Hmp Hm Hidx Hmk. eexists. split.
  { apply (Create_stores driver req w m Hmp Hm Hidx Hmk). }
  split.
  { cbn. unfold create_events. rewrite elem_of_app. right.
    apply list_elem_of_further, list_elem_of_here. }
  intros q Hq. split; [|split].
  - rewrite Get_eq, Hq. cbn [volumes after]. rewrite index_insert_eq.
    rewrite (eqb_empty_false _ Hmp). reflexivity.
  - run. cbn [volumes after]. rewrite Hq, index_insert_eq. reflexivity.
  - eexists. split; [apply List_eq|]. apply elem_of_listing. cbn.
    apply lookup_insert_eq.
Qed.

(** X3, an instance: the scenario with [vol1] and the base directory
    [/mnt/base]. *)
Lemma Create_then_lookup_vol1 :
  ∃ w',
    Create the_driver vol1_request fresh_world = Done Response.zero w'
    ∧ EvMkdirAll "/mnt/base/data/vol1" 493 ∈ trace w'
    ∧ Get the_driver (request "vol1" ∅) w'
      = Done (Found "vol1" "data/vol1") w'
    ∧ Path the_driver (request "vol1" ∅) w'
      = Done (Resolved "/mnt/base/data/vol1") w'.
Proof.
  destruct (Create_then_lookup the_driver vol1_request fresh_world ∅)
    as (w' & H1 & H2 & H3).
  - vm_compute. discriminate.
  - reflexivity.
  - reflexivity.
  - reflexivity.
  - exists w'. split; [exact H1|]. split; [exact H2|].
    destruct (H3 (request "vol1" ∅) eq_refl) as (Hg & Hp & _).
    split; [exact Hg | exact Hp].
Defined.

(** X4.  When the directory cannot be made, [Create] returns the text of
    that error and registers nothing: the map and the files are as before,
    the state file is not written (the events are the lock, the
    [MkdirAll] and the unlock), and [Get] still does not find the name. *)
Theorem Create_directory_failure (driver : localPersistDriver)
    (req : Request.t) (w : World) (e : error) :
  mountpoint_of req ≠ "" →
  index (volumes w) (Request.Name req) = "" →
  mkdirall_err w (realMountpoint driver req) = Some e →
  Create driver req w
  = Done (failure (Error e))
      (extend [EvLock; EvMkdirAll (realMountpoint driver req) 493; EvUnlock]
              w)
  ∧ (_ ← Create driver req; Get driver req) w
    = Done (NotFound w (Request.Name req))
        (extend [EvLock; EvMkdirAll (realMountpoint driver req) 493;
                 EvUnlock] w).
Proof.
  intros Hmp Hidx Hmk.
  assert (Hc : Create driver req w
    = Done (failure (Error e))
        (extend [EvLock; EvMkdirAll (realMountpoint driver req) 493;
                 EvUnlock] w)).
  { rewrite Create_eq, (eqb_empty_false _ Hmp), Hidx, Hmk. reflexivity. }
  split; [exact Hc|].
  unfold mbind at 1, M_bind at 1. rewrite Hc, Get_eq.
  cbn [volumes extend]. rewrite Hidx. reflexivity.
Qed.

(** X4, an instance: nothing can be made under the base directory. *)
Lemma Create_directory_failure_vol1 :
  Create the_driver vol1_request
    {| volumes := Map ∅; files := ∅; trace := [];
       mkdirall_err := fun _ => Some (PathError "permission denied");
       writefile_err := fun _ => None; readfile_err := fun _ => None;
       daemon := quiet_daemon; cyan := fun s => s |}
  = Done (failure "permission denied")
      {| volumes := Map ∅; files := ∅;
         trace := [EvLock; EvMkdirAll "/mnt/base/data/vol1" 493; EvUnlock];
         mkdirall_err := fun _ => Some (PathError "permission denied");
         writefile_err := fun _ => None; readfile_err := fun _ => None;
         daemon := quiet_daemon; cyan := fun s => s |}.
Proof.
  refine (proj1 (Create_directory_failure the_driver vol1_request _
                   (PathError "permission denied") _ _ _)).
  - vm_compute. discriminate.
  - reflexivity.
  - reflexivity.
Defined.

(** X5.  Whatever [Create] does (it may fail, and it may panic), it
    touches at most the entry of its own name: every other name keeps its
    entry, no name loses its entry, a mountpoint that is stored and not
    empty is never changed, and the map is nil afterwards exactly when it
    was nil before. *)
Theorem Create_touches_one_name (driver : localPersistDriver)
    (req : Request.t) (w : World) :
  (∀ k, k ≠ Request.Name req →
        entries (volumes (world_of (Create driver req w))) !! k
        = entries (volumes w) !! k)
  ∧ (∀ k, is_Some (entries (volumes w) !! k) →
          is_Some (entries (volumes (world_of (Create driver req w))) !! k))
  ∧ (∀ k mp, entries (volumes w) !! k = Some mp → mp ≠ "" →
             entries (volumes (world_of (Create driver req w))) !! k
             = Some mp)
  ∧ (volumes (world_of (Create driver req w)) = NilMap
     ↔ volumes w = NilMap).
Proof.
  rewrite Create_eq.
  destruct (String.eqb (mountpoint_of req) "");
    [cbn; split; [|split; [|split]]; auto|].
  destruct (negb (String.eqb (index (volumes w) (Request.Name req)) ""))
    eqn:Eex; [cbn; split; [|split; [|split]]; auto|].
  destruct (mkdirall_err w _); [cbn; split; [|split; [|split]]; auto|].
  destruct (volumes w) as [|m] eqn:Ev;
    [cbn; rewrite Ev; split; [|split; [|split]]; auto|].
  apply negb_false_iff, String.eqb_eq in Eex.
  cbn. split; [|split; [|split]].
  - intros k Hk. apply lookup_insert_ne. congruence.
  - intros k Hk. rewrite lookup_insert. case_decide; [eauto | exact Hk].
  - intros k mp Hk Hmp. rewrite lookup_insert. case_decide; [|exact Hk].
    subst k. unfold index in Eex. cbn in Eex. rewrite Hk in Eex.
    cbn in Eex. congruence.
  - split; discriminate.
Qed.

(** X6.  A removed name is free for reuse.  After [Remove] of a name,
    [Get] does not find it, and a [Create] of the name with a new
    mountpoint stores that mountpoint (the map is the old one with the
    entry replaced), so that [Get] finds the new mountpoint: [Remove]
    followed by [Create] is how a mountpoint changes. *)
Theorem Remove_frees_the_name (driver : localPersistDriver)
    (req : Request.t) (w : World) (m : gmap string string) :
  mountpoint_of req ≠ "" →
  volumes w = Map m →
  mkdirall_err w (realMountpoint driver req) = None →
  ∃ w1 w2,
    Remove driver req w = Done Response.zero w1
    ∧ Get driver req w1 = Done (NotFound w1 (Request.Name req)) w1
    ∧ Create driver req w1 = Done Response.zero w2
    ∧ volumes w2 = Map (<[Request.Name req := mountpoint_of req]> m)
    ∧ Get driver req w2
      = Done (Found (Request.Name req) (mountpoint_of req)) w2.
Proof.
  intros Hmp Hm Hmk. rewrite Remove_eq, Hm. cbn [delete_key].
  eexists. eexists. split; [reflexivity|].
  assert (Hidx : index (Map (delete (Request.Name req) m)) (Request.Name req)
                 = "").
  { unfold index. cbn. rewrite lookup_delete_eq. reflexivity. }
  split.
  { rewrite Get_eq. cbn [volumes after]. rewrite Hidx. reflexivity. }
  split.
  { apply Create_stores; [exact Hmp | reflexivity | exact Hidx | exact Hmk]. }
  split.
  { cbn [volumes after]. rewrite insert_delete_eq. reflexivity. }
  rewrite Get_eq. cbn [volumes after]. rewrite index_insert_eq.
  rewrite (eqb_empty_false _ Hmp). reflexivity.
Qed.

(** X6, an instance: [vol1] is moved from [data/vol1] to [elsewhere]. *)
Lemma Remove_frees_the_name_vol1 :
  ∃ w1 w2,
    Remove the_driver (request "vol1" {[ "mountpoint" := "elsewhere" ]})
      vol1_world = Done Response.zero w1
    ∧ Create the_driver (request "vol1" {[ "mountpoint" := "elsewhere" ]}) w1
      = Done Response.zero w2
    ∧ Get the_driver (request "vol1" {[ "mountpoint" := "elsewhere" ]}) w2
      = Done (Found "vol1" "elsewhere") w2.
Proof.
  destruct (Remove_frees_the_name the_driver
              (request "vol1" {[ "mountpoint" := "elsewhere" ]}) vol1_world
              {[ "vol1" := "data/vol1" ]})
    as (w1 & w2 & H1 & _ & H3 & _ & H5).
  - vm_compute. discriminate.
  - reflexivity.
  - reflexivity.
  - exists w1, w2. split; [exact H1|]. split; [exact H3 | exact H5].
Defined.
(** X7.  [Create] of a name the map does not hold, followed by [Remove] of
    it, leaves the map as it was; when the state file can be written it
    then holds that map again.  The events are those of the two calls: the
    directory was made, and nothing is asked of the file system to take it
    away. *)
Theorem Create_then_Remove_restores (driver : localPersistDriver)
    (req : Request.t) (w : World) (m : gmap string string) :
  mountpoint_of req ≠ "" →
  volumes w = Map m →
  m !! Request.Name req = None →
  mkdirall_err w (realMountpoint driver req) = None →
  ∃ w',
    (_ ← Create driver req; Remove driver req) w = Done Response.zero w'
    ∧ volumes w' = volumes w
    ∧ (writefile_err w (statefile driver) = None → in_sync driver w')
    ∧ trace w'
      = (trace w
         ++ create_events driver req
              (Map (<[Request.Name req := mountpoint_of req]> m))
         ++ remove_events driver (Map m))%list.
Proof.
  intros Hmp Hm Hk Hmk.
  assert (Hidx : index (volumes w) (Request.Name req) = "").
  { rewrite Hm. unfold index. cbn. rewrite Hk. reflexivity. }
  unfold mbind at 1, M_bind at 1.
  rewrite (Create_stores driver req w m Hmp Hm Hidx Hmk), Remove_eq.
  cbn [volumes after delete_key]. rewrite (delete_insert_id m _ _ Hk).
  eexists. split; [reflexivity|]. split; [cbn; congruence|]. split.
  - intros Hw. unfold in_sync, flushed. cbn. rewrite Hw.
    apply lookup_insert_eq.
  - cbn. rewrite <- app_assoc. reflexivity.
Qed.

(** X7, an instance: [vol1] is created in the fresh world and removed. *)
Lemma Create_then_Remove_vol1 :
  ∃ w',
    (_ ← Create the_driver vol1_request; Remove the_driver vol1_request)
      fresh_world = Done Response.zero w'
    ∧ volumes w' = Map ∅
    ∧ files w' !! statefile the_driver = Some (snapshot (Map ∅)).
Proof.
  destruct (Create_then_Remove_restores the_driver vol1_request fresh_world ∅)
    as (w' & H1 & H2 & H3 & _).
  - vm_compute. discriminate.
  - reflexivity.
  - reflexivity.
  - reflexivity.
  - exists w'. split; [exact H1|]. split; [exact H2|].
    unfold in_sync in H3. rewrite H2 in H3. apply H3. reflexivity.
Defined.

(** X8.  [List] never fails and leaves the world as it was.  The volumes
    it returns are the entries of the map, each once: a volume is listed
    exactly when the map holds its name with its mountpoint, no name is
    listed twice, and there are as many volumes as entries (none for the
    nil map).  The request is not looked at. *)
Theorem List_enumerates_the_map (driver : localPersistDriver)
    (req : Request.t) (w : World) :
  ∃ vs,
    List driver req w = Done (Listing vs) w
    ∧ (∀ v, v ∈ vs
            ↔ entries (volumes w) !! Volume.Name v
              = Some (Volume.Mountpoint v))
    ∧ NoDup (Volume.Name <$> vs)
    ∧ length vs = size (entries (volumes w)).
Proof.
  eexists. split; [apply List_eq|]. split; [apply elem_of_listing|]. split.
  - change (map ?f ?l) with (f <$> l). rewrite <- list_fmap_compose.
    apply (NoDup_fst_map_to_list (entries (volumes w))).
  - rewrite length_map. apply length_map_to_list.
Qed.

(** X9.  [Get] and [List] agree on the volumes whose mountpoint is not
    empty, and on those only: [Get] finds a name with a mountpoint exactly
    when [List] has that volume and the mountpoint is not empty.  A volume
    that [List] returns with the empty mountpoint is one that [Get] reports
    as not found. *)
Theorem Get_agrees_with_List (driver : localPersistDriver) (req : Request.t)
    (w : World) :
  ∃ vs,
    List driver req w = Done (Listing vs) w
    ∧ (∀ mp, Get driver req w = Done (Found (Request.Name req) mp) w
             ↔ vol (Request.Name req) mp ∈ vs ∧ mp ≠ "")
    ∧ (vol (Request.Name req) "" ∈ vs →
       Get driver req w = Done (NotFound w (Request.Name req)) w).
Proof.
  eexists. split; [apply List_eq|]. rewrite Get_eq.
  setoid_rewrite elem_of_listing. cbn [Volume.Name Volume.Mountpoint vol].
  unfold index.
  destruct (entries (volumes w) !! Request.Name req) as [x|] eqn:E; cbn.
  - destruct (String.eqb_spec x "") as [->|Hx]; split.
    + intros mp. split; [discriminate|]. intros [[= <-] Hne]. done.
    + reflexivity.
    + intros mp. split.
      * intros [= <-]. split; [reflexivity | exact Hx].
      * intros [[= <-] _]. reflexivity.
    + intros [= ->]. done.
  - split.
    + intros mp. split; [discriminate|]. intros [[=] _].
    + reflexivity.
Qed.

Lemma in_sync_flushed (driver : localPersistDriver) (v : GoMap)
    (es : list event) (w : World) :
  writefile_err w (statefile driver) = None →
  in_sync driver (after v (flushed driver v w) es w).
Proof.
  intros Hw. unfold in_sync, flushed. cbn. rewrite Hw.
  apply lookup_insert_eq.
Qed.

Lemma flushed_other (driver : localPersistDriver) (v : GoMap) (w : World)
    (f : string) :
  f ≠ statefile driver → flushed driver v w !! f = files w !! f.
Proof.
  intros Hf. unfold flushed.
  destruct (writefile_err w (statefile driver)); [reflexivity|].
  apply lookup_insert_ne. congruence.
Qed.

(** X10.  When the state file can be written, a mutation leaves it
    holding the map of the driver.  After [Remove], and after a [Create]
    that stores its volume, the state file is the JSON text of the map as
    it is then, whatever the file held before; a [Create] that stores
    nothing leaves a state file that held the map holding it.  No other
    file is ever written. *)
Theorem mutations_keep_the_state_file_in_sync (driver : localPersistDriver)
    (req : Request.t) (w : World) :
  writefile_err w (statefile driver) = None →
  in_sync driver (world_of (Remove driver req w))
  ∧ (∀ m, mountpoint_of req ≠ "" →
          volumes w = Map m →
          index (volumes w) (Request.Name req) = "" →
          mkdirall_err w (realMountpoint driver req) = None →
          in_sync driver (world_of (Create driver req w)))
  ∧ (in_sync driver w → in_sync driver (world_of (Create driver req w)))
  ∧ (∀ f, f ≠ statefile driver →
          files (world_of (Remove driver req w)) !! f = files w !! f
          ∧ files (world_of (Create driver req w)) !! f = files w !! f).
Proof.
  intros Hw. split; [|split; [|split]].
  - rewrite Remove_eq. apply in_sync_flushed, Hw.
  - intros m Hmp Hm Hidx Hmk.
    rewrite (Create_stores driver req w m Hmp Hm Hidx Hmk).
    apply in_sync_flushed, Hw.
  - intros Hs. rewrite Create_eq.
    destruct (String.eqb (mountpoint_of req) ""); [exact Hs|].
    destruct (negb _); [exact Hs|].
    destruct (mkdirall_err w _); [exact Hs|].
    destruct (volumes w) eqn:Ev.
    + unfold in_sync in *. cbn. rewrite Ev in *. exact Hs.
    + apply in_sync_flushed, Hw.
  - intros f Hf. split.
    + rewrite Remove_eq. apply flushed_other, Hf.
    + rewrite Create_eq.
      destruct (String.eqb (mountpoint_of req) ""); [reflexivity|].
      destruct (negb _); [reflexivity|].
      destruct (mkdirall_err w _); [reflexivity|].
      destruct (volumes w); [reflexivity|].
      apply flushed_other, Hf.
Qed.

(** X10, an instance: the state file after [vol1] was created, and after
    it was removed again. *)
Lemma state_file_in_sync_vol1 :
  files vol1_world !! statefile the_driver
  = Some (snapshot (Map {[ "vol1" := "data/vol1" ]}))
  ∧ files (world_of (Remove the_driver vol1_request vol1_world))
    !! statefile the_driver
    = Some (snapshot (Map ∅)).
Proof.
  split.
  - refine (proj1 (proj2 (mutations_keep_the_state_file_in_sync the_driver
                            vol1_request fresh_world eq_refl)) ∅ _ _ _ _).
    + vm_compute. discriminate.
    + reflexivity.
    + reflexivity.
    + reflexivity.
  - exact (proj1 (mutations_keep_the_state_file_in_sync the_driver
                    vol1_request vol1_world eq_refl)).
Defined.
(** ** Startup, continued: the state file across a restart *)

Lemma restart_driver (driver : localPersistDriver) :
  {| debug := debug driver; name := name driver; baseDir := baseDir driver;
     stateDir := stateDir driver |} = driver.
Proof. destruct driver; reflexivity. Qed.

(** What the start of the program does, by the result of the load. *)
Lemma restart_eq (driver : localPersistDriver) (w : World) :
  restart driver w
  = Done driver
      (after (match readfile_err w (statefile driver) with
              | Some _ => Map ∅
              | None =>
                  match files w !! statefile driver with
                  | None => Map ∅
                  | Some data =>
                      match json.Unmarshal data with
                      | inl d => State d
                      | inr _ => Map ∅
                      end
                  end
              end)
         (files w)
         [EvMkdir (stateDir driver) 448; EvReadFile (statefile driver)] w).
Proof.
  unfold restart, newLocalPersistDriver. rewrite restart_driver.
  unfold findExistingVolumesFromStateFile, mbind, M_bind, put_volumes,
    os_Mkdir, emit, ioutil_ReadFile. fold (statefile driver). cbn.
  destruct (readfile_err w (statefile driver)); cbn.
  { unfold after, log, set_volumes. cbn. rewrite <- ?app_assoc. reflexivity. }
  destruct (files w !! statefile driver); cbn.
  - destruct (json.Unmarshal _); cbn.
    all: unfold after, log, set_volumes; cbn.
    all: rewrite <- ?app_assoc; reflexivity.
  - unfold after, log, set_volumes. cbn. rewrite <- ?app_assoc. reflexivity.
Qed.

(** A start that finds the text of a map of valid strings takes that map. *)
Lemma restart_loads (driver : localPersistDriver) (w : World) (v : GoMap) :
  readfile_err w (statefile driver) = None →
  files w !! statefile driver = Some (snapshot v) →
  valid_map v →
  restart driver w
  = Done driver
      (after v (files w)
         [EvMkdir (stateDir driver) 448; EvReadFile (statefile driver)] w).
Proof.
  intros Hr Hf Hv. rewrite restart_eq, Hr, Hf. unfold snapshot.
  rewrite (Unmarshal_Marshal v Hv). reflexivity.
Qed.

Lemma valid_map_insert (m : gmap string string) (k x : string) :
  valid_map (Map m) →
  utf8.ValidString k = true →
  utf8.ValidString x = true →
  valid_map (Map (<[k := x]> m)).
Proof.
  intros Hm Hk Hx. unfold valid_map in *. cbn in *.
  apply map_Forall_insert_2; [split; assumption | exact Hm].
Qed.

Lemma valid_map_delete (v : GoMap) (k : string) :
  valid_map v → valid_map (delete_key v k).
Proof.
  intros Hv. destruct v as [|m]; [exact Hv|].
  unfold valid_map in *. cbn in *. apply map_Forall_delete, Hv.
Qed.

(** X11.  Mutations that reached the state file survive a restart.  When
    the state file can be written and read and the names and mountpoints
    are valid UTF-8: after a [Create] that stores its volume, a new start
    of the program with the same settings has the same map, and [Get]
    finds the volume; after a [Remove], a new start has the map without
    the name. *)
Theorem mutations_survive_restart (driver : localPersistDriver)
    (req : Request.t) (w : World) :
  writefile_err w (statefile driver) = None →
  readfile_err w (statefile driver) = None →
  valid_map (volumes w) →
  (∀ m, mountpoint_of req ≠ "" →
        volumes w = Map m →
        index (volumes w) (Request.Name req) = "" →
        mkdirall_err w (realMountpoint driver req) = None →
        utf8.ValidString (Request.Name req) = true →
        utf8.ValidString (mountpoint_of req) = true →
        ∃ w1 w2,
          Create driver req w = Done Response.zero w1
          ∧ restart driver w1 = Done driver w2
          ∧ volumes w2 = Map (<[Request.Name req := mountpoint_of req]> m)
          ∧ Get driver req w2
            = Done (Found (Request.Name req) (mountpoint_of req)) w2)
  ∧ (∃ w1 w2,
       Remove driver req w = Done Response.zero w1
       ∧ restart driver w1 = Done driver w2
       ∧ volumes w2 = delete_key (volumes w) (Request.Name req)
       ∧ Get driver req w2 = Done (NotFound w2 (Request.Name req)) w2).
Proof.
  intros Hw Hr Hv. split.
  - intros m Hmp Hm Hidx Hmk Hn Hp.
    rewrite (Create_stores driver req w m Hmp Hm Hidx Hmk).
    eexists. eexists. split; [reflexivity|].
    split.
    { apply restart_loads; [exact Hr | apply in_sync_flushed, Hw |].
      apply valid_map_insert; [rewrite <- Hm; exact Hv | exact Hn | exact Hp]. }
    split; [reflexivity|].
    rewrite Get_eq. cbn [volumes after]. rewrite index_insert_eq.
    rewrite (eqb_empty_false _ Hmp). reflexivity.
  - rewrite Remove_eq. eexists. eexists. split; [reflexivity|].
    split.
    { apply restart_loads; [exact Hr | apply in_sync_flushed, Hw |].
      apply valid_map_delete, Hv. }
    split; [reflexivity|].
    rewrite Get_eq. cbn [volumes after].
    replace (index (delete_key (volumes w) (Request.Name req))
                   (Request.Name req)) with "".
    + reflexivity.
    + unfold index. destruct (volumes w) as [|m]; cbn.
      * rewrite lookup_empty. reflexivity.
      * rewrite lookup_delete_eq. reflexivity.
Qed.

(** X11, an instance: [vol1] is created, the program starts again. *)
Lemma mutations_survive_restart_vol1 :
  ∃ w1 w2,
    Create the_driver vol1_request fresh_world = Done Response.zero w1
    ∧ restart the_driver w1 = Done the_driver w2
    ∧ Get the_driver vol1_request w2
      = Done (Found "vol1" "data/vol1") w2.
Proof.
  destruct (mutations_survive_restart the_driver vol1_request fresh_world)
    as [Hc _].
  - reflexivity.
  - reflexivity.
  - unfold valid_map. cbn. apply map_Forall_empty.
  - destruct (Hc ∅) as (w1 & w2 & H1 & H2 & _ & H4).
    + vm_compute. discriminate.
    + reflexivity.
    + reflexivity.
    + reflexivity.
    + reflexivity.
    + reflexivity.
    + exists w1, w2. split; [exact H1|]. split; [exact H2 | exact H4].
Defined.


(** X13.  When the load of the state file fails (the file cannot be read,
    is not there as on a first run, or does not parse), the program starts
    all the same, with the empty map and the files untouched: the error is
    dropped.  The map is not nil, so that a [Create] with a mountpoint
    whose directory can be made then stores the first volume, and a state
    file that can be written is overwritten with the new map, whatever it
    held. *)
Theorem startup_without_snapshot (driver : localPersistDriver) (w : World) :
  load_fails driver w →
  ∃ w1,
    restart driver w = Done driver w1
    ∧ volumes w1 = Map ∅
    ∧ files w1 = files w
    ∧ (∀ req, mountpoint_of req ≠ "" →
              mkdirall_err w (realMountpoint driver req) = None →
              ∃ w2,
                Create driver req w1 = Done Response.zero w2
                ∧ volumes w2
                  = Map {[ Request.Name req := mountpoint_of req ]}
                ∧ (writefile_err w (statefile driver) = None →
                   in_sync driver w2)).
Proof.
  intros Hf.
  assert (Hr : restart driver w
               = Done driver
                   (after (Map ∅) (files w)
                      [EvMkdir (stateDir driver) 448;
                       EvReadFile (statefile driver)] w)).
  { rewrite restart_eq. destruct Hf as [Hf | [Hf | (data & e & Hf & He)]].
    - destruct (readfile_err w (statefile driver)); [reflexivity | done].
    - rewrite Hf. destruct (readfile_err w (statefile driver)); reflexivity.
    - rewrite Hf, He.
      destruct (readfile_err w (statefile driver)); reflexivity. }
  eexists. split; [exact Hr|]. split; [reflexivity|]. split; [reflexivity|].
  intros req Hmp Hmk. eexists. split.
  { eapply Create_stores; [exact Hmp | reflexivity | | exact Hmk].
    unfold index. cbn. rewrite lookup_empty. reflexivity. }
  split; [reflexivity|].
  intros Hw. apply in_sync_flushed. exact Hw.
Qed.

(** X13, an instance: the state file is not JSON; the program starts
    empty, and the creation of [vol1] replaces the file. *)
Lemma startup_without_snapshot_garbled :
  ∃ w1 w2,
    restart the_driver garbled_world = Done the_driver w1
    ∧ volumes w1 = Map ∅
    ∧ Create the_driver vol1_request w1 = Done Response.zero w2
    ∧ files w2 !! statefile the_driver
      = Some (snapshot (Map {[ "vol1" := "data/vol1" ]})).
Proof.
  destruct (startup_without_snapshot the_driver garbled_world)
    as (w1 & H1 & H2 & _ & H4).
  - right. right. exists "{state", SyntaxError. split; reflexivity.
  - destruct (H4 vol1_request) as (w2 & H5 & H6 & H7).
    + vm_compute. discriminate.
    + reflexivity.
    + exists w1, w2. split; [exact H1|]. split; [exact H2|].
      split; [exact H5|]. unfold in_sync in H7. rewrite H6 in H7.
      apply H7. reflexivity.
Defined.

(** ** The registry, continued: names, directories and order *)

(** X14.  Nothing keeps two names from the same directory.  When two
    requests with different names give mountpoints that [Join] with the
    base directory to the same path (the same mountpoint, or two spellings
    of it), both [Create] calls store their volume, and [Path] then
    resolves both names to that one directory. *)
Theorem mountpoints_may_be_shared (driver : localPersistDriver)
    (r1 r2 : Request.t) (w : World) (m : gmap string string) :
  Request.Name r1 ≠ Request.Name r2 →
  mountpoint_of r1 ≠ "" →
  mountpoint_of r2 ≠ "" →
  realMountpoint driver r2 = realMountpoint driver r1 →
  volumes w = Map m →
  index (volumes w) (Request.Name r1) = "" →
  index (volumes w) (Request.Name r2) = "" →
  mkdirall_err w (realMountpoint driver r1) = None →
  ∃ w1 w2,
    Create driver r1 w = Done Response.zero w1
    ∧ Create driver r2 w1 = Done Response.zero w2
    ∧ Path driver r1 w2 = Done (Resolved (realMountpoint driver r1)) w2
    ∧ Path driver r2 w2 = Done (Resolved (realMountpoint driver r1)) w2.
Proof.
  intros Hne Hmp1 Hmp2 Hsame Hm Hi1 Hi2 Hmk.
  rewrite (Create_stores driver r1 w m Hmp1 Hm Hi1 Hmk).
  eexists. eexists. split; [reflexivity|]. split.
  { eapply Create_stores; [exact Hmp2 | reflexivity | |].
    - cbn [volumes after]. unfold index in *. cbn. rewrite Hm in Hi2.
      cbn in Hi2. rewrite lookup_insert_ne by exact Hne. exact Hi2.
    - cbn. rewrite Hsame. exact Hmk. }
  split.
  - run. cbn [volumes after]. unfold index. cbn.
    rewrite lookup_insert_ne by congruence. rewrite lookup_insert_eq.
    reflexivity.
  - run. cbn [volumes after]. rewrite index_insert_eq.
    fold (realMountpoint driver r2). rewrite Hsame. reflexivity.
Qed.

(** X14, an instance: [b] is created on the directory of [a], spelled
    another way. *)
Lemma mountpoints_may_be_shared_ab :
  ∃ w1 w2,
    Create the_driver (request "a" {[ "mountpoint" := "data/vol1" ]})
      fresh_world = Done Response.zero w1
    ∧ Create the_driver (request "b" {[ "mountpoint" := "data/x/../vol1/" ]})
        w1 = Done Response.zero w2
    ∧ Path the_driver (request "a" ∅) w2
      = Done (Resolved "/mnt/base/data/vol1") w2
    ∧ Path the_driver (request "b" ∅) w2
      = Done (Resolved "/mnt/base/data/vol1") w2.
Proof.
  destruct (mountpoints_may_be_shared the_driver
              (request "a" {[ "mountpoint" := "data/vol1" ]})
              (request "b" {[ "mountpoint" := "data/x/../vol1/" ]})
              fresh_world ∅)
    as (w1 & w2 & H1 & H2 & H3 & H4).
  - discriminate.
  - vm_compute. discriminate.
  - vm_compute. discriminate.
  - reflexivity.
  - reflexivity.
  - reflexivity.
  - reflexivity.
  - reflexivity.
  - exists w1, w2. split; [exact H1|]. split; [exact H2|].
    split; [exact H3 | exact H4].
Defined.

(** X15.  The handlers keep the map free of empty mountpoints: when no
    name of the map has the empty mountpoint, none has after [Create] and
    after [Remove], whatever these return.  On such a map the existence
    test of [Get] is membership: [Get] finds a name exactly when the map
    holds it. *)
Theorem no_blank_is_kept (driver : localPersistDriver) (req : Request.t)
    (w : World) :
  no_blank (volumes w) →
  no_blank (volumes (world_of (Create driver req w)))
  ∧ no_blank (volumes (world_of (Remove driver req w)))
  ∧ ((∃ mp, Get driver req w = Done (Found (Request.Name req) mp) w)
     ↔ is_Some (entries (volumes w) !! Request.Name req)).
Proof.
  intros Hnb. split; [|split].
  - rewrite Create_eq.
    destruct (String.eqb (mountpoint_of req) "") eqn:Emp; [exact Hnb|].
    destruct (negb _); [exact Hnb|].
    destruct (mkdirall_err w _); [exact Hnb|].
    destruct (volumes w) as [|m] eqn:Ev;
      [unfold no_blank in *; cbn; rewrite Ev; exact Hnb|].
    unfold no_blank in *. cbn in *.
    apply map_Forall_insert_2; [|exact Hnb].
    apply String.eqb_neq. exact Emp.
  - rewrite Remove_eq. unfold no_blank in *. cbn.
    destruct (volumes w) as [|m]; cbn in *; [exact Hnb|].
    apply map_Forall_delete, Hnb.
  - rewrite Get_eq. unfold index.
    destruct (entries (volumes w) !! Request.Name req) as [x|] eqn:E; cbn.
    + assert (Hx : x ≠ "") by (apply (Hnb _ _ E)).
      rewrite (eqb_empty_false _ Hx). split; eauto.
    + split; [intros [mp [=]] | intros [x [=]]].
Qed.

(** X15, an instance: the map after [vol1] was created. *)
Lemma no_blank_is_kept_vol1 :
  no_blank (volumes vol1_world)
  ∧ no_blank (volumes (world_of (Remove the_driver vol1_request vol1_world))).
Proof.
  assert (H0 : no_blank (volumes fresh_world)).
  { unfold no_blank. cbn. apply map_Forall_empty. }
  pose proof (proj1 (no_blank_is_kept the_driver vol1_request fresh_world H0))
    as H1.
  split; [exact H1|].
  exact (proj1 (proj2 (no_blank_is_kept the_driver vol1_request vol1_world
                         H1))).
Defined.

(** X16.  Two [Create] calls for different names give the same registry
    in either order: the same map and the same files (the state file holds
    the text of the one map, whose keys are written in sorted order). *)
Theorem Creates_commute (driver : localPersistDriver) (r1 r2 : Request.t)
    (w : World) (m : gmap string string) :
  Request.Name r1 ≠ Request.Name r2 →
  mountpoint_of r1 ≠ "" →
  mountpoint_of r2 ≠ "" →
  volumes w = Map m →
  index (volumes w) (Request.Name r1) = "" →
  index (volumes w) (Request.Name r2) = "" →
  mkdirall_err w (realMountpoint driver r1) = None →
  mkdirall_err w (realMountpoint driver r2) = None →
  ∃ w12 w21,
    (_ ← Create driver r1; Create driver r2) w = Done Response.zero w12
    ∧ (_ ← Create driver r2; Create driver r1) w = Done Response.zero w21
    ∧ volumes w12 = volumes w21
    ∧ files w12 = files w21.
Proof.
  intros Hne Hmp1 Hmp2 Hm Hi1 Hi2 Hmk1 Hmk2.
  assert (Hstep : ∀ ra rb,
    Request.Name ra ≠ Request.Name rb →
    mountpoint_of ra ≠ "" → mountpoint_of rb ≠ "" →
    index (volumes w) (Request.Name ra) = "" →
    index (volumes w) (Request.Name rb) = "" →
    mkdirall_err w (realMountpoint driver ra) = None →
    mkdirall_err w (realMountpoint driver rb) = None →
    ∃ w',
      (_ ← Create driver ra; Create driver rb) w = Done Response.zero w'
      ∧ volumes w'
        = Map (<[Request.Name rb := mountpoint_of rb]>
                 (<[Request.Name ra := mountpoint_of ra]> m))
      ∧ files w'
        = match writefile_err w (statefile driver) with
          | Some _ => files w
          | None =>
              <[statefile driver
                  := snapshot
                       (Map (<[Request.Name rb := mountpoint_of rb]>
                               (<[Request.Name ra := mountpoint_of ra]> m)))]>
                (files w)
          end).
  { intros ra rb Hab Ha Hb Hia Hib Hka Hkb.
    unfold mbind at 1, M_bind at 1.
    rewrite (Create_stores driver ra w m Ha Hm Hia Hka).
    eexists. split.
    { eapply Create_stores; [exact Hb | reflexivity | | exact Hkb].
      cbn [volumes after]. unfold index in *. cbn. rewrite Hm in Hib.
      cbn in Hib. rewrite lookup_insert_ne by exact Hab. exact Hib. }
    split; [reflexivity|].
    cbn [files after]. unfold flushed. cbn.
    destruct (writefile_err w (statefile driver)); [reflexivity|].
    apply insert_insert_eq. }
  destruct (Hstep r1 r2 Hne Hmp1 Hmp2 Hi1 Hi2 Hmk1 Hmk2)
    as (w12 & H12 & Hv12 & Hf12).
  destruct (Hstep r2 r1 (not_eq_sym Hne) Hmp2 Hmp1 Hi2 Hi1 Hmk2 Hmk1)
    as (w21 & H21 & Hv21 & Hf21).
  exists w12, w21. split; [exact H12|]. split; [exact H21|].
  assert (Hcomm : <[Request.Name r2 := mountpoint_of r2]>
                    (<[Request.Name r1 := mountpoint_of r1]> m)
                  = <[Request.Name r1 := mountpoint_of r1]>
                      (<[Request.Name r2 := mountpoint_of r2]> m)).
  { apply insert_insert_ne. exact (not_eq_sym Hne). }
  split.
  - rewrite Hv12, Hv21, Hcomm. reflexivity.
  - rewrite Hf12, Hf21, Hcomm. reflexivity.
Qed.

(** X16, an instance: [a] then [b], and [b] then [a]. *)
Lemma Creates_commute_ab :
  ∃ w12 w21,
    (_ ← Create the_driver (request "a" {[ "mountpoint" := "x" ]});
     Create the_driver (request "b" {[ "mountpoint" := "y" ]})) fresh_world
    = Done Response.zero w12
    ∧ (_ ← Create the_driver (request "b" {[ "mountpoint" := "y" ]});
       Create the_driver (request "a" {[ "mountpoint" := "x" ]})) fresh_world
      = Done Response.zero w21
    ∧ volumes w12 = volumes w21
    ∧ files w12 = files w21.
Proof.
  apply (Creates_commute the_driver
           (request "a" {[ "mountpoint" := "x" ]})
           (request "b" {[ "mountpoint" := "y" ]}) fresh_world ∅).
  - discriminate.
  - vm_compute. discriminate.
  - vm_compute. discriminate.
  - reflexivity.
  - reflexivity.
  - reflexivity.
  - reflexivity.
  - reflexivity.
Defined.

(** X17.  The handlers never ask the daemon and never read the state
    file: in every world, whatever they return, the events that [Get],
    [List], [Path], [Mount], [Unmount], [Create] and [Remove] add are the
    lock and the unlock, the [MkdirAll] and the write of the state file,
    and the environment is left as it was. *)
Theorem handlers_never_ask (driver : localPersistDriver) (req : Request.t)
    (w : World) :
  Forall (fun h : localPersistDriver → Request.t → M Response.t =>
            ∃ v f es, world_of (h driver req w) = after v f es w
                      ∧ Forall (fun e => is_query e = false) es)
         [Get; List; Path; Mount; Unmount; Create; Remove].
Proof.
  assert (Hread : ∀ (o : outcome Response.t), world_of o = w →
            ∃ v f es, world_of o = after v f es w
                      ∧ Forall (fun e => is_query e = false) es).
  { intros o ->. exists (volumes w), (files w), [].
    split; [symmetry; apply after_id | constructor]. }
  repeat apply Forall_cons_2; [..|apply Forall_nil_2].
  - apply Hread. rewrite Get_eq. reflexivity.
  - apply Hread. reflexivity.
  - apply Hread. reflexivity.
  - apply Hread. reflexivity.
  - apply Hread. reflexivity.
  - rewrite Create_eq.
    destruct (String.eqb (mountpoint_of req) "");
      [apply Hread; reflexivity|].
    destruct (negb _).
    { exists (volumes w), (files w), [EvLock; EvUnlock].
      split; [reflexivity | repeat constructor]. }
    destruct (mkdirall_err w _).
    { eexists (volumes w), (files w), [_; _; _].
      split; [reflexivity | repeat constructor]. }
    destruct (volumes w) eqn:Ev.
    { eexists (volumes w), (files w), [_; _; _].
      split; [reflexivity | repeat constructor]. }
    eexists _, _, _. split; [reflexivity | repeat constructor].
  - rewrite Remove_eq. eexists _, _, _.
    split; [reflexivity | repeat constructor].
Qed.
(** ** Reconciliation, continued *)

Lemma collect_mounts_sound (driver : localPersistDriver)
    (mounts : list types.MountPoint) :
  ∀ (vols : gmap string string) (n src : string),
    collect_mounts driver vols mounts !! n = Some src →
    vols !! n = Some src
    ∨ ∃ m, m ∈ mounts ∧ mounts_volume driver n src m.
Proof.
  induction mounts as [|m0 mounts IH]; intros vols n src H; [left; exact H|].
  cbn in H. apply IH in H as [H | (m & Hin & Hm)].
  - destruct (String.eqb (types.Driver m0) (name driver)) eqn:E;
      [|left; exact H].
    apply String.eqb_eq in E. rewrite lookup_insert in H.
    case_decide as Hn; [|left; exact H].
    injection H as <-. right. exists m0.
    split; [left | split; [exact E | split; [exact Hn | reflexivity]]].
  - right. exists m. split; [right; exact Hin | exact Hm].
Qed.

Lemma collect_mounts_keeps (driver : localPersistDriver)
    (mounts : list types.MountPoint) :
  ∀ (vols : gmap string string) (n : string),
    is_Some (vols !! n) →
    is_Some (collect_mounts driver vols mounts !! n).
Proof.
  induction mounts as [|m0 mounts IH]; intros vols n H; [exact H|].
  cbn. apply IH.
  destruct (String.eqb (types.Driver m0) (name driver)); [|exact H].
  rewrite lookup_insert. case_decide; [eauto | exact H].
Qed.

Lemma collect_mounts_complete (driver : localPersistDriver)
    (mounts : list types.MountPoint) :
  ∀ (vols : gmap string string) (m : types.MountPoint),
    m ∈ mounts →
    types.Driver m = name driver →
    is_Some (collect_mounts driver vols mounts !! types.Name m).
Proof.
  induction mounts as [|m0 mounts IH]; intros vols m Hin Hd.
  { apply elem_of_nil in Hin. destruct Hin. }
  apply elem_of_cons in Hin as [-> | Hin].
  - cbn. apply collect_mounts_keeps.
    rewrite (proj2 (String.eqb_eq _ _) Hd), lookup_insert_eq. eauto.
  - cbn. apply IH; assumption.
Qed.

(** X18.  The live set is the set of this driver's mounts.  When the
    client is made, the listing and every inspection succeed, and some
    mount belongs to this driver, the routine returns a map in which every
    entry is a mount of this driver (its name and its source), and which
    has an entry for the name of every mount of this driver.  Mounts of
    other drivers, bind mounts among them, are left out. *)
Theorem live_set_is_this_drivers_mounts (driver : localPersistDriver)
    (w : World) (mounts : list types.MountPoint) :
  NewClient_err (daemon w) = None →
  (ContainerList (daemon w)).2 = None →
  inspections (daemon w) (ContainerList (daemon w)).1 = Some mounts →
  (∃ m, m ∈ mounts ∧ types.Driver m = name driver) →
  ∃ vols,
    result_of (findExistingVolumesFromDockerDaemon driver w)
    = Some (None, Map vols)
    ∧ (∀ n src, vols !! n = Some src →
                ∃ m, m ∈ mounts ∧ mounts_volume driver n src m)
    ∧ (∀ m, m ∈ mounts → types.Driver m = name driver →
            is_Some (vols !! types.Name m)).
Proof.
  intros Hc Herr Hi (m0 & Hin0 & Hd0).
  exists (collect_mounts driver ∅ mounts). split; [|split].
  - pose proof (reconciliation_result driver w) as H.
    rewrite Hc, Hi in H. cbn zeta in H.
    rewrite bool_decide_eq_true_2 in H; [exact H|].
    split; [exact Herr|]. intros He.
    destruct (collect_mounts_complete driver mounts ∅ m0 Hin0 Hd0) as [x Hx].
    rewrite He, lookup_empty in Hx. discriminate.
  - intros n src H.
    apply collect_mounts_sound in H as [H | H]; [|exact H].
    rewrite lookup_empty in H. discriminate.
  - intros m Hin Hd. apply collect_mounts_complete; assumption.
Qed.

(** X18, an instance: of the four mounts of the two containers, the two of
    [local-persist] make the one entry. *)
Lemma live_set_busy_daemon :
  ∃ vols,
    result_of (findExistingVolumesFromDockerDaemon the_driver
                 (snapshot_world busy_daemon))
    = Some (None, Map vols)
    ∧ is_Some (vols !! "vol1")
    ∧ vols !! "other" = None.
Proof.
  destruct (live_set_is_this_drivers_mounts the_driver
              (snapshot_world busy_daemon)
              [ mount "vol1" "/mnt/base/a" "local-persist";
                mount "" "/etc/hosts" "";
                mount "vol1" "/mnt/base/b" "local-persist";
                mount "other" "/var/x" "local" ])
    as (vols & H1 & H2 & H3).
  - reflexivity.
  - reflexivity.
  - reflexivity.
  - exists (mount "vol1" "/mnt/base/a" "local-persist").
    split; [left | reflexivity].
  - exists vols. split; [exact H1|]. split.
    + apply (H3 (mount "vol1" "/mnt/base/a" "local-persist"));
        [left | reflexivity].
    + destruct (vols !! "other") as [src|] eqn:E; [|reflexivity].
      exfalso. destruct (H2 _ _ E) as (m & Hin & Hd & Hn & _).
      repeat (apply elem_of_cons in Hin as [-> | Hin]);
        try discriminate Hd; try discriminate Hn.
      apply elem_of_nil in Hin. exact Hin.
Defined.

Lemma inspect_all_world (driver : localPersistDriver)
    (cs : list types.Container) :
  ∀ (vols : gmap string string) (w : World),
    ∃ es, world_of (inspect_all driver cs vols w) = extend es w
          ∧ Forall (fun e => is_query e = true ∧ is_read e = false) es.
Proof.
  induction cs as [|c cs IH]; intros vols w.
  { exists []. split; [|constructor]. cbn. unfold extend.
    rewrite app_nil_r. destruct w; reflexivity. }
  cbn [inspect_all]. unfold mbind, M_bind, cli_ContainerInspect.
  destruct (ContainerInspect (daemon w) (types.ID c)) as [info|e].
  - destruct (IH (collect_mounts driver vols (types.Mounts info))
                 (log (EvContainerInspect (types.ID c)) w))
      as (es & Hes & Hall).
    exists (EvContainerInspect (types.ID c) :: es). split.
    + rewrite Hes. change (log ?e w) with (extend [e] w).
      rewrite extend_extend. reflexivity.
    + constructor; [split; reflexivity | exact Hall].
  - exists [EvContainerInspect (types.ID c)]. split; [reflexivity|].
    constructor; [split; reflexivity | constructor].
Qed.

Lemma load_world (driver : localPersistDriver) (w : World) :
  world_of (findExistingVolumesFromStateFile driver w)
  = extend [EvReadFile (statefile driver)] w.
Proof.
  unfold findExistingVolumesFromStateFile, mbind, M_bind, ioutil_ReadFile.
  fold (statefile driver).
  destruct (readfile_err w (statefile driver)); [reflexivity|].
  destruct (files w !! statefile driver); [|reflexivity].
  destruct (json.Unmarshal _); reflexivity.
Qed.

Lemma Forall_inspect (P : event → Prop) (cs : list types.Container) :
  (∀ id, P (EvContainerInspect id)) →
  Forall P (map (fun c => EvContainerInspect (types.ID c)) cs).
Proof.
  intros Hf. induction cs as [|c cs IH]; constructor; [apply Hf | exact IH].
Qed.

(** X19.  The reconciliation only asks.  Whatever the daemon answers, and
    also when the routine panics, it leaves the map of the driver and the
    files as they were; the events it adds are queries to the daemon and at
    most the read of the state file: no lock, no directory, no write.  When
    the live set is used (the listing and the inspections succeed and some
    mount is of this driver), the state file is not read. *)
Theorem reconciliation_only_asks (driver : localPersistDriver) (w : World) :
  ∃ es,
    world_of (findExistingVolumesFromDockerDaemon driver w) = extend es w
    ∧ Forall (fun e => is_query e = true) es
    ∧ (∀ mounts,
         (ContainerList (daemon w)).2 = None →
         inspections (daemon w) (ContainerList (daemon w)).1 = Some mounts →
         collect_mounts driver ∅ mounts ≠ ∅ →
         Forall (fun e => is_read e = false) es).
Proof.
  rewrite findExistingVolumesFromDockerDaemon_eq.
  destruct (NewClient_err (daemon w)) as [e|].
  { exists [EvNewClient]. split; [reflexivity|].
    split; [repeat constructor|]. intros; repeat constructor. }
  destruct (ContainerList (daemon w)) as [cs err]. cbn [fst snd].
  destruct (inspections (daemon w) cs) as [mounts|] eqn:Ei.
  - rewrite (inspect_all_ok driver cs ∅ _ mounts) by (cbn; exact Ei).
    rewrite extend_extend.
    destruct (bool_decide (err ≠ None)
              || Nat.eqb (size (collect_mounts driver ∅ mounts)) 0) eqn:Efb.
    + exists (([EvNewClient; EvContainerList]
               ++ map (fun c => EvContainerInspect (types.ID c)) cs)
              ++ [EvReadFile (statefile driver)])%list.
      split; [rewrite load_world, extend_extend; reflexivity|]. split.
      * apply Forall_app. split; [|repeat constructor].
        apply Forall_app. split; [repeat constructor|].
        apply Forall_inspect. reflexivity.
      * intros mounts' Herr [= <-] Hne. exfalso.
        apply orb_true_iff in Efb as [Efb | Efb].
        -- apply bool_decide_eq_true_1 in Efb. done.
        -- apply Nat.eqb_eq, map_size_empty_iff in Efb. done.
    + exists ([EvNewClient; EvContainerList]
              ++ map (fun c => EvContainerInspect (types.ID c)) cs)%list.
      split; [reflexivity|]. split.
      * apply Forall_app. split; [repeat constructor|].
        apply Forall_inspect. reflexivity.
      * intros _ _ _ _. apply Forall_app. split; [repeat constructor|].
        apply Forall_inspect. reflexivity.
  - destruct (inspect_all_world driver cs ∅
                (extend [EvNewClient; EvContainerList] w))
      as (es & Hes & Hall).
    pose proof (inspect_all_panics driver cs ∅
                  (extend [EvNewClient; EvContainerList] w) Ei) as Hp.
    destruct (inspect_all driver cs ∅
                (extend [EvNewClient; EvContainerList] w)) as [vols w'|msg w'];
      [discriminate|].
    cbn in Hes. subst w'.
    exists ([EvNewClient; EvContainerList] ++ es)%list. split; [|split].
    + cbn [world_of]. rewrite extend_extend. reflexivity.
    + apply Forall_app. split; [repeat constructor|].
      eapply Forall_impl; [exact Hall|]. intros x [Hx _]. exact Hx.
    + intros mounts _ [=].
Qed.
(** ** The state file, continued: what was saved can be loaded *)

Section ReloadFacts.
Import utf8 json.

Lemma unquote_replacement (X : string) :
  unquote (String backslash "ufffd" ++ X)
  = prepend (EncodeRune RuneError) (unquote X).
Proof. reflexivity. Qed.

Lemma repaired_ascii (c : ascii) (t : string) :
  byte_val c < 0x80 → repaired (String c t) = String c (repaired t).
Proof.
  intros H. cbn [repaired]. unfold RuneSelf.
  rewrite (proj2 (Z.ltb_lt _ _) H). reflexivity.
Qed.

Lemma repaired_high (c : ascii) (t : string) :
  0x80 ≤ byte_val c →
  repaired (String c t)
  = let '(r, size) := DecodeRune (String c t) in
    if (r =? RuneError) && (size =? 1)
    then EncodeRune RuneError ++ repaired t
    else before size (String c t) ++ repaired (after_tail size t).
Proof.
  intros H. cbn [repaired]. unfold RuneSelf.
  rewrite (proj2 (Z.ltb_ge _ _) H). reflexivity.
Qed.

(** What [escape] writes, [unquote] reads as the repaired string. *)
Lemma unquote_escape_any (n : nat) :
  ∀ (s rest : string),
    (String.length s ≤ n)%nat →
    unquote (escape s ++ String dquote rest) = Some (repaired s, rest).
Proof.
  induction n as [|n IH]; intros s rest Hlen.
  { destruct s; [reflexivity | cbn in Hlen; lia]. }
  destruct s as [|c t]; [reflexivity|].
  cbn [String.length] in Hlen.
  destruct (Z.ltb_spec (byte_val c) 0x80) as [Hc|Hc].
  - rewrite escape_ascii_step, append_assoc, unquote_escape_unit by exact Hc.
    rewrite (IH t rest) by lia. rewrite repaired_ascii by exact Hc.
    reflexivity.
  - rewrite (repaired_high c t Hc). cbn [escape]. unfold RuneSelf.
    rewrite (proj2 (Z.ltb_ge _ _) Hc).
    destruct (DecodeRune (String c t)) as [r size] eqn:Hd.
    destruct ((r =? RuneError) && (size =? 1)) eqn:Hbad.
    + rewrite append_assoc, unquote_replacement, (IH t rest) by lia.
      reflexivity.
    + assert (Hv : ¬ (r = RuneError ∧ size = 1)).
      { intros [-> ->]. discriminate Hbad. }
      destruct (DecodeRune_multibyte c t r size Hc Hd Hv)
        as (pre & Hsplit & Hbefore & Henc & Hdec & Hafter).
      pose proof (after_tail_length size t) as Hshort.
      assert (Hrest : unquote (escape (after_tail size t)
                               ++ String dquote rest)
                      = Some (repaired (after_tail size t), rest)).
      { apply IH. lia. }
      destruct ((r =? 0x2028) || (r =? 0x2029)) eqn:Hsep.
      * apply orb_true_iff in Hsep. rewrite !Z.eqb_eq in Hsep.
        rewrite append_assoc, (append_cons (hex (Z.land r 0xF))).
        rewrite (unquote_line_separator r _ Hsep), Hrest, Henc, Hbefore.
        reflexivity.
      * rewrite Hbefore, append_assoc, append_cons.
        rewrite (unquote_high c _ Hc), Hdec, Hafter, Hrest, Henc.
        reflexivity.
Qed.

(** Valid UTF-8 needs no repair. *)
Lemma repaired_valid (n : nat) :
  ∀ s, (String.length s ≤ n)%nat →
       ValidString s = true → repaired s = s.
Proof.
  induction n as [|n IH]; intros s Hlen Hvalid.
  { destruct s; [reflexivity | cbn in Hlen; lia]. }
  destruct s as [|c t]; [reflexivity|].
  cbn [String.length] in Hlen. cbn [ValidString] in Hvalid.
  destruct (Z.ltb_spec (byte_val c) 0x80) as [Hc|Hc].
  - rewrite repaired_ascii by exact Hc.
    rewrite (DecodeRune_ascii c t Hc) in Hvalid.
    replace (byte_val c =? RuneError) with false in Hvalid
      by (symmetry; apply Z.eqb_neq; unfold RuneError; lia).
    cbn in Hvalid. rewrite (IH t) by (lia || exact Hvalid). reflexivity.
  - rewrite (repaired_high c t Hc).
    destruct (DecodeRune (String c t)) as [r size] eqn:Hd.
    destruct ((r =? RuneError) && (size =? 1)) eqn:Hbad; [discriminate|].
    assert (Hv : ¬ (r = RuneError ∧ size = 1)).
    { intros [-> ->]. discriminate Hbad. }
    destruct (DecodeRune_multibyte c t r size Hc Hd Hv)
      as (pre & Hsplit & Hbefore & _).
    pose proof (after_tail_length size t) as Hshort.
    rewrite Hbefore, (IH (after_tail size t)) by (lia || exact Hvalid).
    rewrite append_cons, <- Hsplit. reflexivity.
Qed.

Lemma ValidString_replacement (X : string) :
  ValidString (EncodeRune RuneError ++ X) = ValidString X.
Proof.
  destruct (DecodeRune_multibyte (byte_of 0xEF)
              (String (byte_of 0xBF) (String (byte_of 0xBD) EmptyString))
              0xFFFD 3) as (pre & Hsplit & _ & _ & Hdec & Hafter).
  - vm_compute. discriminate.
  - reflexivity.
  - intros [_ H]. discriminate H.
  - change (after_tail 3 _) with EmptyString in Hsplit.
    rewrite append_nil_r in Hsplit. subst pre.
    change (EncodeRune RuneError ++ X)
      with (String (byte_of 0xEF)
              (String (byte_of 0xBF) (String (byte_of 0xBD) EmptyString) ++ X)).
    cbn [ValidString]. rewrite Hdec, Hafter. reflexivity.
Qed.

(** A repaired string is valid UTF-8. *)
Lemma repaired_is_valid (n : nat) :
  ∀ s, (String.length s ≤ n)%nat → ValidString (repaired s) = true.
Proof.
  induction n as [|n IH]; intros s Hlen.
  { destruct s; [reflexivity | cbn in Hlen; lia]. }
  destruct s as [|c t]; [reflexivity|].
  cbn [String.length] in Hlen.
  destruct (Z.ltb_spec (byte_val c) 0x80) as [Hc|Hc].
  - rewrite repaired_ascii by exact Hc. cbn [ValidString].
    rewrite (DecodeRune_ascii c _ Hc).
    replace (byte_val c =? RuneError) with false
      by (symmetry; apply Z.eqb_neq; unfold RuneError; lia).
    cbn. apply IH. lia.
  - rewrite (repaired_high c t Hc).
    destruct (DecodeRune (String c t)) as [r size] eqn:Hd.
    destruct ((r =? RuneError) && (size =? 1)) eqn:Hbad.
    + rewrite ValidString_replacement. apply IH. lia.
    + assert (Hv : ¬ (r = RuneError ∧ size = 1)).
      { intros [-> ->]. discriminate Hbad. }
      destruct (DecodeRune_multibyte c t r size Hc Hd Hv)
        as (pre & Hsplit & Hbefore & Henc & Hdec & Hafter).
      pose proof (after_tail_length size t) as Hshort.
      rewrite Hbefore, append_cons. cbn [ValidString].
      rewrite Hdec, Hbad, Hafter. apply IH. lia.
Qed.

Lemma unquote_appendString_any (s rest : string) :
  ∃ body, appendString s ++ rest = String dquote body
          ∧ unquote body = Some (repaired s, rest).
Proof.
  exists (escape s ++ String dquote rest). split.
  - unfold appendString. rewrite append_cons, append_assoc. reflexivity.
  - apply (unquote_escape_any (String.length s)). lia.
Qed.

Lemma parse_value_string_any (f : nat) (v rest : string) :
  parse_value (S f) (appendString v ++ rest) = Some (Str (repaired v), rest).
Proof.
  destruct (unquote_appendString_any v rest) as (body & -> & Hb).
  rewrite parse_value_S, Hb by reflexivity. reflexivity.
Qed.

Lemma parse_members_any (l : list (string * string)) :
  ∀ (fuel : nat) (rest : string),
    l ≠ [] →
    (length l < fuel)%nat →
    parse_members fuel (members l ++ String "}" rest)
    = Some (map as_repaired l, rest).
Proof.
  induction l as [|[k v] l IH]; intros fuel rest Hne Hfuel; [done|].
  destruct fuel as [|g]; [cbn in Hfuel; lia|].
  assert (Hg : ∃ f, g = S f).
  { destruct g as [|f]; [cbn in Hfuel; lia | eauto]. }
  rewrite members_cons, !append_assoc.
  destruct (unquote_appendString_any k
              (":" ++ appendString v
               ++ match l with [] => "" | _ :: _ => "," ++ members l end
               ++ String "}" rest)) as (body & -> & Hb).
  rewrite append_cons, append_nil in Hb.
  rewrite (parse_members_S g body _ _ Hb).
  destruct Hg as [f Hg]. rewrite Hg at 1.
  rewrite (parse_value_string_any f v _).
  destruct l as [|kv l].
  - rewrite append_nil. reflexivity.
  - rewrite append_assoc, append_cons, append_nil.
    change (skip_space (String "," ?x)) with (String ","%char x).
    cbv beta match. change (byte_val "," =? 44) with true. cbv beta match.
    rewrite (IH g rest); [reflexivity | done |].
    cbn in Hfuel |- *. lia.
Qed.

Lemma parse_value_encode_map_any (v : GoMap) (f : nat) (rest : string) :
  (length (map_to_list (entries v)) + 2 ≤ f)%nat →
  parse_value f (encode_map v ++ rest)
  = Some (match v with
          | NilMap => Null
          | Map m =>
              Object (map as_repaired (merge_sort key_le (map_to_list m)))
          end, rest).
Proof.
  intros Hf. destruct f as [|f]; [lia|].
  destruct v as [|m]; [reflexivity|]. cbn [entries] in Hf.
  cbn [encode_map]. set (l := merge_sort key_le (map_to_list m)).
  assert (Hperm : l ≡ₚ map_to_list m) by apply merge_sort_Permutation.
  assert (Hlen : length l = length (map_to_list m)) by (rewrite Hperm; done).
  rewrite !append_cons, append_nil, append_assoc.
  cbn [parse_value].
  change (skip_space (String "{" ?x)) with (String "{"%char x).
  cbv beta match. change (byte_val "{" =? 123) with true. cbv beta match.
  destruct l as [|kv l'] eqn:El.
  - reflexivity.
  - destruct (members_head (kv :: l') ltac:(done)) as (body & Hbody).
    rewrite <- El in *. rewrite Hbody, append_cons.
    change (skip_space (String dquote ?x)) with (String dquote x).
    cbv beta match. change (byte_val dquote =? 125) with false.
    cbv beta match.
    replace (String dquote (body ++ "}" ++ rest))
      with (members l ++ String "}" rest) by (rewrite Hbody; reflexivity).
    rewrite (parse_members_any l f rest); [reflexivity| |lia].
    rewrite El. done.
Qed.

Lemma foldl_store_repaired (l : list (string * string)) :
  ∀ acc : gmap string string,
    foldl store_member (inl acc) (map as_repaired l)
    = inl (foldl (fun m kv => <[repaired kv.1 := repaired kv.2]> m) acc l).
Proof.
  induction l as [|kv l IH]; intros acc; [reflexivity|]. cbn. apply IH.
Qed.

(** [Unmarshal] accepts every text [Marshal] writes. *)
Lemma Unmarshal_snapshot (v : GoMap) :
  json.Unmarshal (snapshot v) = inl {| State := reloaded v |}.
Proof.
  pose proof (Marshal_length v) as Hlen.
  unfold snapshot, Unmarshal, parse.
  set (data := (json.Marshal {| State := v |}).1) in *.
  assert (Hparse : parse_value (S (String.length data)) data
          = Some (Object [("state",
                    match v with
                    | NilMap => Null
                    | Map m => Object (map as_repaired
                                 (merge_sort key_le (map_to_list m)))
                    end)], "")).
  { destruct (String.length data) as [|[|g]] eqn:Eg; [lia|lia|].
    unfold data. cbn [Marshal fst State]. norm_app.
    cbn [parse_value].
    change (skip_space (String "{" ?x)) with (String "{"%char x).
    cbv beta match. change (byte_val "{" =? 123) with true. cbv beta match.
    destruct (unquote_appendString "state"
                (String ":" (encode_map v ++ "}")) eq_refl)
      as (body & -> & Hb).
    change (skip_space (String dquote ?x)) with (String dquote x).
    cbv beta match. change (byte_val dquote =? 125) with false.
    cbv beta match.
    rewrite (parse_members_S (S g) body _ _ Hb).
    rewrite (parse_value_encode_map_any v (S g) "}") by lia.
    reflexivity. }
  rewrite Hparse. cbn [skip_space foldl].
  unfold store_field. cbn [fst snd].
  change (is_state "state") with true. cbv beta match.
  destruct v as [|m]; [reflexivity|].
  cbn [decode_map State entries reloaded]. rewrite foldl_store_repaired.
  reflexivity.
Qed.

Lemma foldl_repaired_sound (l : list (string * string)) :
  ∀ (acc : gmap string string) (k x : string),
    foldl (fun m kv => <[repaired kv.1 := repaired kv.2]> m) acc l !! k
    = Some x →
    acc !! k = Some x
    ∨ ∃ kv, kv ∈ l ∧ k = repaired kv.1 ∧ x = repaired kv.2.
Proof.
  induction l as [|kv l IH]; intros acc k x H; [left; exact H|].
  cbn in H. apply IH in H as [H | (kv' & Hin & Hk)].
  - rewrite lookup_insert in H. case_decide as Hn; [|left; exact H].
    injection H as <-. right. exists kv. split; [left | done].
  - right. exists kv'. split; [right; exact Hin | exact Hk].
Qed.

Lemma foldl_repaired_keeps (l : list (string * string)) :
  ∀ (acc : gmap string string) (k : string),
    is_Some (acc !! k) →
    is_Some (foldl (fun m kv => <[repaired kv.1 := repaired kv.2]> m) acc l
             !! k).
Proof.
  induction l as [|kv l IH]; intros acc k H; [exact H|].
  cbn. apply IH. rewrite lookup_insert. case_decide; [eauto | exact H].
Qed.

Lemma foldl_repaired_complete (l : list (string * string)) :
  ∀ (acc : gmap string string) (kv : string * string),
    kv ∈ l →
    is_Some (foldl (fun m kv => <[repaired kv.1 := repaired kv.2]> m) acc l
             !! repaired kv.1).
Proof.
  induction l as [|kv0 l IH]; intros acc kv Hin.
  { apply elem_of_nil in Hin. destruct Hin. }
  apply elem_of_cons in Hin as [-> | Hin].
  - cbn. apply foldl_repaired_keeps. rewrite lookup_insert_eq. eauto.
  - cbn. apply IH. exact Hin.
Qed.

End ReloadFacts.

(** X20.  What [saveState] wrote, [findExistingVolumesFromStateFile]
    loads: for every map, strings that are not valid UTF-8 included, when
    the state file can be written and read, the load that follows the save
    returns no error.  The loaded map is nil exactly when the saved one
    was; each of its entries is an entry of the saved map with the name
    and the mountpoint repaired (every byte that is not part of a valid
    rune replaced by U+FFFD), so that all its strings are valid UTF-8, and
    every saved name is there in its repaired form. *)
Theorem saved_snapshot_always_loads (driver : localPersistDriver)
    (S : GoMap) (w : World) :
  writefile_err w (statefile driver) = None →
  readfile_err w (statefile driver) = None →
  ∃ w1 w2 S',
    saveState driver S w = Done None w1
    ∧ findExistingVolumesFromStateFile driver w1 = Done (None, S') w2
    ∧ (S' = NilMap ↔ S = NilMap)
    ∧ (∀ k x, entries S' !! k = Some x →
              ∃ k0 x0, entries S !! k0 = Some x0
                       ∧ k = repaired k0 ∧ x = repaired x0)
    ∧ (∀ k0, is_Some (entries S !! k0) →
             is_Some (entries S' !! repaired k0))
    ∧ valid_map S'.
Proof.
  intros Hwrite Hread.
  unfold saveState, findExistingVolumesFromStateFile, mbind, M_bind,
    ioutil_WriteFile, ioutil_ReadFile.
  cbn [json.Marshal]. fold (statefile driver). rewrite Hwrite.
  eexists. eexists. exists (reloaded S). split; [reflexivity|]. cbn.
  rewrite Hread, lookup_insert_eq.
  change ("{" ++ json.appendString "state" ++ ":" ++ json.encode_map S ++ "}")
    with (snapshot S).
  rewrite (Unmarshal_snapshot S). split; [reflexivity|].
  assert (Hsound : ∀ k x, entries (reloaded S) !! k = Some x →
            ∃ k0 x0, entries S !! k0 = Some x0
                     ∧ k = repaired k0 ∧ x = repaired x0).
  { destruct S as [|m]; cbn [reloaded entries].
    { intros k x H. rewrite lookup_empty in H. discriminate. }
    intros k x H.
    apply foldl_repaired_sound in H as [H | ([k0 x0] & Hin & Hk)].
    { rewrite lookup_empty in H. discriminate. }
    exists k0, x0. split; [|exact Hk].
    rewrite merge_sort_Permutation in Hin.
    apply elem_of_map_to_list in Hin. exact Hin. }
  split; [destruct S; split; done|]. split; [exact Hsound|]. split.
  - destruct S as [|m]; cbn [reloaded entries].
    { intros k0 [x H]. rewrite lookup_empty in H. discriminate. }
    intros k0 [x0 H].
    apply (foldl_repaired_complete _ ∅ (k0, x0)).
    rewrite merge_sort_Permutation. apply elem_of_map_to_list. exact H.
  - intros k x H. destruct (Hsound k x H) as (k0 & x0 & _ & -> & ->).
    split; [apply (repaired_is_valid (String.length k0)) |
            apply (repaired_is_valid (String.length x0))]; lia.
Qed.

(** X20, an instance: the mountpoint that is the byte 0xFF. *)
Lemma saved_snapshot_loads_broken_map :
  ∃ w1 w2 S',
    saveState the_driver broken_map fresh_world = Done None w1
    ∧ findExistingVolumesFromStateFile the_driver w1 = Done (None, S') w2
    ∧ is_Some (entries S' !! "vol1").
Proof.
  destruct (saved_snapshot_always_loads the_driver broken_map fresh_world
              eq_refl eq_refl) as (w1 & w2 & S' & H1 & H2 & _ & _ & H5 & _).
  exists w1, w2, S'. split; [exact H1|]. split; [exact H2|].
  apply (H5 "vol1"). eexists. reflexivity.
Defined.
(** ** Paths, continued: where [Join] can lead *)

Section PathFacts.
Import path.

Lemma end_or_slash_app (rest q : string) :
  end_or_slash (rest ++ String "/" q) = end_or_slash rest.
Proof. destruct rest; reflexivity. Qed.

(** A rooted path is cleaned element by element: what follows a slash is
    read on the output of what came before it. *)
Lemma clean_loop_app (q : string) (dotdot n : nat) :
  ∀ (p : string) (out : list ascii),
    (String.length p ≤ n)%nat →
    clean_loop true (p ++ String "/" q) out dotdot
    = clean_loop true q (clean_loop true p out dotdot) dotdot.
Proof.
  induction n as [|n IH]; intros p out Hlen.
  { destruct p; [reflexivity | cbn in Hlen; lia]. }
  destruct p as [|c rest]; [reflexivity|].
  cbn [String.length] in Hlen. rewrite append_cons.
  cbn [clean_loop]. rewrite end_or_slash_app.
  destruct (is_slash c); [apply IH; lia|].
  destruct (is_dot c && end_or_slash rest); [apply IH; lia|].
  set (out1 := if (true && negb (Nat.eqb (length out) 1))
                  || (negb true && negb (Nat.eqb (length out) 0))
               then "/"%char :: out else out).
  assert (Hcopy : ∀ (q0 : string) (o : list ascii),
    (String.length q0 ≤ n)%nat →
    (fix copy (q : string) (o : list ascii) {struct q} : list ascii :=
       match q with
       | EmptyString => o
       | String d q' =>
           if is_slash d then clean_loop true q o dotdot
           else copy q' (d :: o)
       end) (q0 ++ String "/" q) o
    = clean_loop true q
        ((fix copy (q : string) (o : list ascii) {struct q} : list ascii :=
            match q with
            | EmptyString => o
            | String d q' =>
                if is_slash d then clean_loop true q o dotdot
                else copy q' (d :: o)
            end) q0 o) dotdot).
  { induction q0 as [|d q0 IHq]; intros o Hq; [reflexivity|].
    cbn [String.length] in Hq. rewrite append_cons.
    cbn beta iota fix. destruct (is_slash d).
    - rewrite <- append_cons. apply IH. cbn. lia.
    - apply IHq. lia. }
  destruct rest as [|c1 rest'].
  - rewrite append_nil. destruct (is_dot c); reflexivity.
  - rewrite append_cons. rewrite end_or_slash_app.
    cbn [String.length] in Hlen.
    destruct (is_dot c && is_dot c1 && end_or_slash rest').
    + destruct (Nat.ltb dotdot (length out)); [apply IH; lia|].
      cbn [negb]. apply IH; lia.
    + destruct (is_slash c1).
      * rewrite <- append_cons. apply IH. cbn. lia.
      * apply Hcopy. lia.
Qed.

Lemma last_cons_slash (x : ascii) (o : list ascii) :
  last o = Some "/"%char → last (x :: o) = Some "/"%char.
Proof. intros H. rewrite last_cons, H. reflexivity. Qed.

(** The output of a rooted path keeps its leading slash. *)
Lemma backtrack_rooted (out : list ascii) :
  last out = Some "/"%char →
  (1 < length out)%nat →
  last (backtrack out 1) = Some "/"%char
  ∧ (length (backtrack out 1) < length out)%nat.
Proof.
  induction out as [|x o IH]; intros Hl Hlen; [cbn in Hlen; lia|].
  cbn [length] in Hlen. cbn [backtrack].
  assert (Ho : last o = Some "/"%char).
  { destruct o as [|y o]; [cbn in Hlen; lia|].
    rewrite last_cons_cons in Hl. exact Hl. }
  destruct (Nat.ltb_spec 1 (length o)) as [H1|H1]; cbn [andb].
  - destruct (negb (is_slash x)).
    + destruct (IH Ho H1) as [Hb Hs]. split; [exact Hb|]. cbn [length]. lia.
    + split; [exact Ho | cbn [length]; lia].
  - split; [exact Ho | cbn [length]; lia].
Qed.

Lemma clean_loop_rooted (n : nat) :
  ∀ (p : string) (out : list ascii),
    (String.length p ≤ n)%nat →
    last out = Some "/"%char →
    last (clean_loop true p out 1) = Some "/"%char.
Proof.
  induction n as [|n IH]; intros p out Hlen Hout.
  { destruct p; [exact Hout | cbn in Hlen; lia]. }
  destruct p as [|c rest]; [exact Hout|].
  cbn [String.length] in Hlen. cbn [clean_loop].
  destruct (is_slash c); [apply IH; [lia | exact Hout]|].
  destruct (is_dot c && end_or_slash rest); [apply IH; [lia | exact Hout]|].
  set (out1 := if (true && negb (Nat.eqb (length out) 1))
                  || (negb true && negb (Nat.eqb (length out) 0))
               then "/"%char :: out else out).
  assert (Hout1 : last out1 = Some "/"%char).
  { unfold out1. destruct (_ || _); [apply last_cons_slash|]; exact Hout. }
  assert (Hcopy : ∀ (q0 : string) (o : list ascii),
    (String.length q0 ≤ n)%nat →
    last o = Some "/"%char →
    last ((fix copy (q : string) (o : list ascii) {struct q} : list ascii :=
             match q with
             | EmptyString => o
             | String d q' =>
                 if is_slash d then clean_loop true q o 1
                 else copy q' (d :: o)
             end) q0 o) = Some "/"%char).
  { induction q0 as [|d q0 IHq]; intros o Hq Ho; [exact Ho|].
    cbn [String.length] in Hq. cbn beta iota fix. destruct (is_slash d).
    - apply IH; [cbn; lia | exact Ho].
    - apply IHq; [lia | apply last_cons_slash, Ho]. }
  destruct rest as [|c1 rest'].
  - apply last_cons_slash, Hout1.
  - cbn [String.length] in Hlen.
    destruct (is_dot c && is_dot c1 && end_or_slash rest').
    + destruct (Nat.ltb_spec 1 (length out)) as [H1|H1].
      * apply IH; [lia | apply backtrack_rooted; assumption].
      * cbn [negb]. apply IH; [lia | exact Hout].
    + apply (Hcopy (String c1 rest') (c :: out1));
        [cbn; lia | apply last_cons_slash, Hout1].
Qed.

Lemma Clean_rooted_eq (x : string) :
  Clean (String "/" x) = of_bytes (rev (clean_loop true x ["/"%char] 1)).
Proof.
  unfold Clean. change (is_slash "/") with true. cbv beta iota.
  change (clean_loop true (String "/" x) ["/"%char] 1)
    with (clean_loop true x ["/"%char] 1).
  pose proof (clean_loop_rooted (String.length x) x ["/"%char]
                (Nat.le_refl _) eq_refl) as H.
  destruct (clean_loop true x ["/"%char] 1); [discriminate | reflexivity].
Qed.

(** The clean form of a rooted path is rooted. *)
Lemma Clean_rooted (x : string) :
  ∃ rest, Clean (String "/" x) = String "/" rest.
Proof.
  rewrite Clean_rooted_eq.
  pose proof (clean_loop_rooted (String.length x) x ["/"%char]
                (Nat.le_refl _) eq_refl) as H.
  apply last_Some in H as [o Ho]. rewrite Ho, rev_app_distr. cbn. eauto.
Qed.

Lemma dotdots_step (k : nat) (q : string) (out : list ascii) :
  clean_loop true (dotdots (S k) ++ q) out 1
  = clean_loop true (dotdots k ++ q)
      (if Nat.ltb 1 (length out) then backtrack out 1 else out) 1.
Proof.
  change (dotdots (S k) ++ q) with (".." ++ String "/" (dotdots k ++ q)).
  rewrite (clean_loop_app _ 1 2 ".." out) by (cbn; lia).
  f_equal.
Qed.

(** Enough [..] elements lead from any rooted output back to the root. *)
Lemma climb (n : nat) :
  ∀ out : list ascii,
    (length out ≤ n)%nat →
    last out = Some "/"%char →
    ∃ k, ∀ q, clean_loop true (dotdots (S k) ++ q) out 1
              = clean_loop true q ["/"%char] 1.
Proof.
  induction n as [|n IH]; intros out Hlen Hout.
  { destruct out; [discriminate | cbn in Hlen; lia]. }
  destruct (Nat.ltb_spec 1 (length out)) as [H1|H1].
  - destruct (backtrack_rooted out Hout H1) as [Hb Hs].
    destruct (IH (backtrack out 1) ltac:(lia) Hb) as [k Hk].
    exists (S k). intros q. rewrite dotdots_step.
    rewrite (proj2 (Nat.ltb_lt _ _) H1). apply Hk.
  - exists 0%nat. intros q. rewrite dotdots_step.
    rewrite (proj2 (Nat.ltb_ge _ _) H1).
    destruct out as [|x [|y o]]; [discriminate | | cbn in H1; lia].
    cbn in Hout. injection Hout as ->. reflexivity.
Qed.

(** From a rooted base, [Join] reaches every rooted path. *)
Lemma Join_reaches (t q : string) :
  ∃ k, Join (String "/" t) (dotdots (S k) ++ q) = Clean (String "/" q).
Proof.
  pose proof (clean_loop_rooted (String.length t) t ["/"%char]
                (Nat.le_refl _) eq_refl) as Hout.
  destruct (climb (length (clean_loop true t ["/"%char] 1)) _
              (Nat.le_refl _) Hout) as [k Hk].
  exists k. unfold Join.
  change (String "/" t ++ "/" ++ dotdots (S k) ++ q)
    with (String "/" (t ++ String "/" (dotdots (S k) ++ q))).
  rewrite !Clean_rooted_eq.
  rewrite (clean_loop_app _ 1 (String.length t) t) by lia.
  rewrite Hk. reflexivity.
Qed.

Lemma dotdots_not_empty (k : nat) (q : string) : dotdots (S k) ++ q ≠ "".
Proof. discriminate. Qed.


(** An empty element changes nothing. *)
Lemma clean_loop_double_slash (rooted : bool) (q : string) (n : nat) :
  ∀ (p : string) (out : list ascii) (dotdot : nat),
    (String.length p ≤ n)%nat →
    clean_loop rooted (p ++ String "/" (String "/" q)) out dotdot
    = clean_loop rooted (p ++ String "/" q) out dotdot.
Proof.
  induction n as [|n IH]; intros p out dotdot Hlen.
  { destruct p; [reflexivity | cbn in Hlen; lia]. }
  destruct p as [|c rest]; [reflexivity|].
  cbn [String.length] in Hlen. rewrite !append_cons.
  cbn [clean_loop]. rewrite !end_or_slash_app.
  destruct (is_slash c); [apply IH; lia|].
  destruct (is_dot c && end_or_slash rest); [apply IH; lia|].
  set (out1 := if (rooted && negb (Nat.eqb (length out) 1))
                  || (negb rooted && negb (Nat.eqb (length out) 0))
               then "/"%char :: out else out).
  assert (Hcopy : ∀ (q0 : string) (o : list ascii),
    (String.length q0 ≤ n)%nat →
    (fix copy (q : string) (o : list ascii) {struct q} : list ascii :=
       match q with
       | EmptyString => o
       | String d q' =>
           if is_slash d then clean_loop rooted q o dotdot
           else copy q' (d :: o)
       end) (q0 ++ String "/" (String "/" q)) o
    = (fix copy (q : string) (o : list ascii) {struct q} : list ascii :=
         match q with
         | EmptyString => o
         | String d q' =>
             if is_slash d then clean_loop rooted q o dotdot
             else copy q' (d :: o)
         end) (q0 ++ String "/" q) o).
  { induction q0 as [|d q0 IHq]; intros o Hq; [reflexivity|].
    cbn [String.length] in Hq. rewrite !append_cons.
    cbn beta iota fix. destruct (is_slash d).
    - rewrite <- !append_cons. apply IH. cbn. lia.
    - apply IHq. lia. }
  destruct rest as [|c1 rest'].
  - rewrite !append_nil. destruct (is_dot c); reflexivity.
  - rewrite !append_cons. rewrite !end_or_slash_app.
    cbn [String.length] in Hlen.
    destruct (is_dot c && is_dot c1 && end_or_slash rest').
    + destruct (Nat.ltb dotdot (length out)); [apply IH; lia|].
      destruct (negb rooted); apply IH; lia.
    + destruct (is_slash c1).
      * rewrite <- !append_cons. apply IH. cbn. lia.
      * apply Hcopy. lia.
Qed.

(** A second element that starts with a slash is joined like the same
    element without it. *)
Lemma Join_leading_slash (a b : string) :
  a ≠ "" → Join a (String "/" b) = Join a b.
Proof.
  destruct a as [|c t]; [done|]. intros _. unfold Join.
  change (String c t ++ "/" ++ String "/" b)
    with (String c t ++ String "/" (String "/" b)).
  change (String c t ++ "/" ++ b) with (String c t ++ String "/" b).
  unfold Clean. rewrite !append_cons. rewrite <- !append_cons.
  rewrite !(clean_loop_double_slash _ _ (String.length (String c t)))
    by lia.
  reflexivity.
Qed.

End PathFacts.

Lemma mountpoint_of_request (n mp : string) :
  mountpoint_of (request n {[ "mountpoint" := mp ]}) = mp.
Proof. unfold mountpoint_of. cbn. rewrite lookup_singleton_eq. reflexivity. Qed.

(** X21.  The mountpoint option is not confined to the base directory.
    With a rooted base directory, every rooted path can be reached: for
    each path [/q] there is a number of [..] elements such that [Create]
    with the mountpoint made of these elements followed by [q] makes the
    directory [Clean(/q)], outside the base directory or not, and [Path]
    then resolves the name to it. *)
Theorem Create_is_not_confined_to_baseDir (driver : localPersistDriver)
    (t q n : string) (w : World) (m : gmap string string) :
  baseDir driver = String "/" t →
  volumes w = Map m →
  index (volumes w) n = "" →
  mkdirall_err w (path.Clean (String "/" q)) = None →
  ∃ k w',
    Create driver (request n {[ "mountpoint" := dotdots (S k) ++ q ]}) w
    = Done Response.zero w'
    ∧ EvMkdirAll (path.Clean (String "/" q)) 493 ∈ trace w'
    ∧ Path driver (request n ∅) w'
      = Done (Resolved (path.Clean (String "/" q))) w'.
Proof.
  intros Hbase Hm Hidx Hmk.
  destruct (Join_reaches t q) as [k Hk]. exists k.
  set (req := request n {[ "mountpoint" := dotdots (S k) ++ q ]}).
  assert (Hmp : mountpoint_of req = dotdots (S k) ++ q)
    by apply mountpoint_of_request.
  assert (Hreal : realMountpoint driver req = path.Clean (String "/" q)).
  { unfold realMountpoint. rewrite Hmp, Hbase. exact Hk. }
  eexists. split.
  { apply (Create_stores driver req w m).
    - rewrite Hmp. apply dotdots_not_empty.
    - exact Hm.
    - exact Hidx.
    - rewrite Hreal. exact Hmk. }
  split.
  { cbn. unfold create_events. rewrite Hreal, elem_of_app. right.
    apply list_elem_of_further, list_elem_of_here. }
  rewrite Path_eq. cbn [volumes after Request.Name request].
  change (Request.Name req) with n. rewrite index_insert_eq.
  fold (realMountpoint driver req). rewrite Hreal. reflexivity.
Qed.

(** X21, an instance: from the base directory [/mnt/base] to [/etc]. *)
Lemma Create_is_not_confined_etc :
  ∃ k w',
    Create the_driver
      (request "vol1" {[ "mountpoint" := dotdots (S k) ++ "etc" ]})
      fresh_world = Done Response.zero w'
    ∧ EvMkdirAll "/etc" 493 ∈ trace w'
    ∧ Path the_driver (request "vol1" ∅) w' = Done (Resolved "/etc") w'.
Proof.
  apply (Create_is_not_confined_to_baseDir the_driver "mnt/base" "etc" "vol1"
           fresh_world ∅); reflexivity.
Defined.

(** X22.  With a rooted base directory every directory of the driver is
    rooted: the directory [Create] makes for a request, and the path that
    [Path] (so [Mount] and [Unmount]) returns for any name in any
    state. *)
Theorem rooted_baseDir_gives_rooted_paths (driver : localPersistDriver)
    (t : string) (req : Request.t) (w : World) :
  baseDir driver = String "/" t →
  (∃ rest, realMountpoint driver req = String "/" rest)
  ∧ (∃ rest, Path driver req w = Done (Resolved (String "/" rest)) w).
Proof.
  intros Hbase.
  assert (Hj : ∀ b, ∃ rest, path.Join (baseDir driver) b = String "/" rest).
  { intros b. rewrite Hbase. unfold path.Join.
    change (String "/" t ++ "/" ++ b) with (String "/" (t ++ "/" ++ b)).
    apply Clean_rooted. }
  split; [apply Hj|].
  destruct (Hj (index (volumes w) (Request.Name req))) as [rest Hr].
  exists rest. rewrite Path_eq, Hr. reflexivity.
Qed.

(** X22, an instance: the base directory [/mnt/base]. *)
Lemma rooted_paths_vol1 :
  (∃ rest, realMountpoint the_driver vol1_request = String "/" rest)
  ∧ (∃ rest, Path the_driver vol1_request vol1_world
             = Done (Resolved (String "/" rest)) vol1_world).
Proof.
  exact (rooted_baseDir_gives_rooted_paths the_driver "mnt/base" vol1_request
           vol1_world eq_refl).
Defined.

(** X23.  A mountpoint that starts with a slash is still taken under the
    base directory: when the base directory is not empty, [Create] with
    the mountpoint [/x] makes the directory [Join(baseDir, x)], the one it
    makes for [x], and [Path] resolves the name to it. *)
Theorem leading_slash_stays_under_baseDir (driver : localPersistDriver)
    (req : Request.t) (x : string) (w : World) (m : gmap string string) :
  baseDir driver ≠ "" →
  mountpoint_of req = String "/" x →
  volumes w = Map m →
  index (volumes w) (Request.Name req) = "" →
  mkdirall_err w (path.Join (baseDir driver) x) = None →
  ∃ w',
    Create driver req w = Done Response.zero w'
    ∧ EvMkdirAll (path.Join (baseDir driver) x) 493 ∈ trace w'
    ∧ Path driver req w'
      = Done (Resolved (path.Join (baseDir driver) x)) w'.
Proof.
  intros Hbase Hmp Hm Hidx Hmk.
  assert (Hreal : realMountpoint driver req = path.Join (baseDir driver) x).
  { unfold realMountpoint. rewrite Hmp. apply Join_leading_slash, Hbase. }
  eexists. split.
  { apply (Create_stores driver req w m).
    - rewrite Hmp. discriminate.
    - exact Hm.
    - exact Hidx.
    - rewrite Hreal. exact Hmk. }
  split.
  { cbn. unfold create_events. rewrite Hreal, elem_of_app. right.
    apply list_elem_of_further, list_elem_of_here. }
  rewrite Path_eq. cbn [volumes after]. rewrite index_insert_eq.
  fold (realMountpoint driver req). rewrite Hreal. reflexivity.
Qed.

(** X23, an instance: the mountpoint [/etc] under [/mnt/base]. *)
Lemma leading_slash_etc :
  ∃ w',
    Create the_driver (request "vol1" {[ "mountpoint" := "/etc" ]}) fresh_world
    = Done Response.zero w'
    ∧ EvMkdirAll "/mnt/base/etc" 493 ∈ trace w'
    ∧ Path the_driver (request "vol1" {[ "mountpoint" := "/etc" ]}) w'
      = Done (Resolved "/mnt/base/etc") w'.
Proof.
  apply (leading_slash_stays_under_baseDir the_driver
           (request "vol1" {[ "mountpoint" := "/etc" ]}) "etc" fresh_world ∅).
  - discriminate.
  - reflexivity.
  - reflexivity.
  - reflexivity.
  - reflexivity.
Defined.
(** ** Runs: requests served one after another *)

Lemma after_after (v1 v2 : GoMap) (f1 f2 : gmap string string)
    (es1 es2 : list event) (w : World) :
  after v2 f2 es2 (after v1 f1 es1 w) = after v2 f2 (es1 ++ es2) w.
Proof. unfold after. cbn. rewrite <- app_assoc. reflexivity. Qed.

(** One call on a map that is not nil. *)
Lemma handler_step (driver : localPersistDriver) (c : call)
    (req : Request.t) (w : World) :
  volumes w ≠ NilMap →
  ∃ r v f es,
    handler c driver req w = Done r (after v f es w)
    ∧ v ≠ NilMap
    ∧ (no_blank (volumes w) → no_blank v)
    ∧ (writefile_err w (statefile driver) = None →
       in_sync driver w → f !! statefile driver = Some (snapshot v))
    ∧ (∀ k, (c = CallCreate → Request.Name req ≠ k) →
            index (volumes w) k = "" → index v k = "").
Proof.
  intros Hnil.
  assert (Hread : ∀ r : Response.t, ∃ r' v f es,
            Done r w = Done r' (after v f es w)
            ∧ v ≠ NilMap
            ∧ (no_blank (volumes w) → no_blank v)
            ∧ (writefile_err w (statefile driver) = None →
               in_sync driver w → f !! statefile driver = Some (snapshot v))
            ∧ (∀ k, (c = CallCreate → Request.Name req ≠ k) →
                    index (volumes w) k = "" → index v k = "")).
  { intros r. exists r, (volumes w), (files w), [].
    rewrite after_id. repeat split; auto. }
  assert (Hext : ∀ (r : Response.t) es, ∃ r' v f es',
            Done r (extend es w) = Done r' (after v f es' w)
            ∧ v ≠ NilMap
            ∧ (no_blank (volumes w) → no_blank v)
            ∧ (writefile_err w (statefile driver) = None →
               in_sync driver w → f !! statefile driver = Some (snapshot v))
            ∧ (∀ k, (c = CallCreate → Request.Name req ≠ k) →
                    index (volumes w) k = "" → index v k = "")).
  { intros r es. exists r, (volumes w), (files w), es.
    repeat split; auto. }
  destruct c; cbn [handler].
  - rewrite Create_eq.
    destruct (String.eqb (mountpoint_of req) "") eqn:Emp; [apply Hread|].
    destruct (negb _); [apply Hext|].
    destruct (mkdirall_err w _); [apply Hext|].
    destruct (volumes w) as [|m] eqn:Ev; [done|].
    eexists _, _, _, _. split; [reflexivity|]. split; [discriminate|].
    split; [|split].
    + intros Hnb. unfold no_blank in *. cbn in *.
      apply map_Forall_insert_2; [|exact Hnb].
      apply String.eqb_neq. exact Emp.
    + intros Hw _. unfold flushed. rewrite Hw. apply lookup_insert_eq.
    + intros k Hk Hidx. unfold index in *. cbn in *.
      rewrite lookup_insert_ne by (apply Hk; reflexivity). exact Hidx.
  - rewrite Remove_eq. eexists _, _, _, _. split; [reflexivity|].
    destruct (volumes w) as [|m] eqn:Ev; [done|]. cbn [delete_key].
    split; [discriminate|]. split; [|split].
    + intros Hnb. unfold no_blank in *. cbn in *.
      apply map_Forall_delete, Hnb.
    + intros Hw _. unfold flushed. rewrite Hw. apply lookup_insert_eq.
    + intros k _ Hidx. unfold index in *. cbn in *.
      rewrite lookup_delete. case_decide; [reflexivity | exact Hidx].
  - rewrite Get_eq. apply Hread.
  - apply Hread.
  - apply Hread.
  - apply Hread.
  - apply Hread.
Qed.

(** What a run keeps, from a map that is not nil. *)
Lemma serve_keeps (driver : localPersistDriver)
    (calls : list (call * Request.t)) :
  ∀ w,
    volumes w ≠ NilMap →
    ∃ rs v f es,
      serve driver calls w = Done rs (after v f es w)
      ∧ length rs = length calls
      ∧ v ≠ NilMap
      ∧ (no_blank (volumes w) → no_blank v)
      ∧ (writefile_err w (statefile driver) = None →
         in_sync driver w → f !! statefile driver = Some (snapshot v))
      ∧ (∀ k, never_created k calls →
              index (volumes w) k = "" → index v k = "").
Proof.
  induction calls as [|[c req] calls IH]; intros w Hnil.
  { exists [], (volumes w), (files w), []. cbn [serve].
    unfold mret, M_ret. rewrite after_id. repeat split; auto. }
  destruct (handler_step driver c req w Hnil)
    as (r & v1 & f1 & es1 & Hstep & Hv1 & Hnb1 & Hs1 & Hk1).
  destruct (IH (after v1 f1 es1 w) Hv1)
    as (rs & v & f & es & Hrun & Hlen & Hv & Hnb & Hs & Hk).
  exists (r :: rs), v, f, (es1 ++ es)%list.
  split; [|split; [|split; [|split; [|split]]]].
  - cbn [serve]. unfold mbind at 1, M_bind at 1. rewrite Hstep.
    unfold mbind, M_bind. rewrite Hrun, after_after. reflexivity.
  - cbn. rewrite Hlen. reflexivity.
  - exact Hv.
  - intros H. apply Hnb, Hnb1, H.
  - intros Hw Hsync. apply Hs; [exact Hw|]. apply Hs1; assumption.
  - intros k Hnever Hidx. apply Forall_cons in Hnever as [Hc Hrest].
    apply Hk; [exact Hrest|]. apply Hk1; [exact Hc | exact Hidx].
Qed.

(** X24.  From a map that is not nil, no run of requests panics.  Every
    call returns a response, the map stays a map; when no name had the
    empty mountpoint none has afterwards, and when the state file can be
    written and held the map it holds the map afterwards. *)
Theorem serve_never_panics (driver : localPersistDriver)
    (calls : list (call * Request.t)) (w : World) :
  volumes w ≠ NilMap →
  ∃ rs w',
    serve driver calls w = Done rs w'
    ∧ length rs = length calls
    ∧ volumes w' ≠ NilMap
    ∧ (no_blank (volumes w) → no_blank (volumes w'))
    ∧ (writefile_err w (statefile driver) = None →
       in_sync driver w → in_sync driver w').
Proof.
  intros Hnil.
  destruct (serve_keeps driver calls w Hnil)
    as (rs & v & f & es & Hrun & Hlen & Hv & Hnb & Hs & _).
  exists rs, (after v f es w). split; [exact Hrun|]. split; [exact Hlen|].
  split; [exact Hv|]. split; [exact Hnb|]. exact Hs.
Qed.

(** X24, an instance: five calls in the fresh world. *)
Lemma serve_never_panics_fresh :
  ∃ rs w',
    serve the_driver
      [ (CallCreate, vol1_request); (CallCreate, vol1_request);
        (CallMount, vol1_request); (CallRemove, vol1_request);
        (CallGet, vol1_request) ] fresh_world = Done rs w'
    ∧ length rs = 5%nat
    ∧ volumes w' ≠ NilMap.
Proof.
  destruct (serve_never_panics the_driver
              [ (CallCreate, vol1_request); (CallCreate, vol1_request);
                (CallMount, vol1_request); (CallRemove, vol1_request);
                (CallGet, vol1_request) ] fresh_world)
    as (rs & w' & H1 & H2 & H3 & _).
  - discriminate.
  - exists rs, w'. split; [exact H1|]. split; [exact H2 | exact H3].
Defined.

(** X25.  A name that was never created is not found.  When [Get] does
    not find a name and none of the requests that follow is a [Create] of
    that name, [Get] does not find it after the run either, whatever the
    requests did to other names. *)
Theorem never_created_is_not_found (driver : localPersistDriver)
    (calls : list (call * Request.t)) (q : Request.t) (w : World) :
  volumes w ≠ NilMap →
  Get driver q w = Done (NotFound w (Request.Name q)) w →
  never_created (Request.Name q) calls →
  ∃ rs w',
    serve driver calls w = Done rs w'
    ∧ Get driver q w' = Done (NotFound w' (Request.Name q)) w'.
Proof.
  intros Hnil Hget Hnever.
  assert (Hidx : index (volumes w) (Request.Name q) = "").
  { rewrite Get_eq in Hget.
    destruct (String.eqb_spec (index (volumes w) (Request.Name q)) "")
      as [E|E]; [exact E | discriminate Hget]. }
  destruct (serve_keeps driver calls w Hnil)
    as (rs & v & f & es & Hrun & _ & _ & _ & _ & Hk).
  exists rs, (after v f es w). split; [exact Hrun|].
  rewrite Get_eq. cbn [volumes after].
  rewrite (Hk _ Hnever Hidx). reflexivity.
Qed.

(** X25, an instance: [vol1] is created and removed; [vol2] never was. *)
Lemma never_created_vol2 :
  ∃ rs w',
    serve the_driver
      [ (CallCreate, vol1_request); (CallRemove, request "vol2" ∅);
        (CallRemove, vol1_request) ] fresh_world = Done rs w'
    ∧ Get the_driver (request "vol2" ∅) w'
      = Done (NotFound w' "vol2") w'.
Proof.
  apply (never_created_is_not_found the_driver
           [ (CallCreate, vol1_request); (CallRemove, request "vol2" ∅);
             (CallRemove, vol1_request) ] (request "vol2" ∅) fresh_world).
  - discriminate.
  - reflexivity.
  - unfold never_created. repeat constructor; cbn; discriminate.
Defined.

(** ** Startup, once more: a state file without a map *)

(** X26.  A state file that parses but gives no map (its [state] member
    is [null], or there is none) makes the program start with the nil map.
    [Get], [List], [Path] and [Remove] answer as on an empty map, but the
    first [Create] that gets as far as the assignment panics, after its
    directory was made, and leaves the map nil. *)
Theorem startup_with_nil_state (driver : localPersistDriver) (w : World)
    (data : string) :
  readfile_err w (statefile driver) = None →
  files w !! statefile driver = Some data →
  json.Unmarshal data = inl {| State := NilMap |} →
  ∃ w1,
    restart driver w = Done driver w1
    ∧ volumes w1 = NilMap
    ∧ (∀ req, Get driver req w1 = Done (NotFound w1 (Request.Name req)) w1
              ∧ List driver req w1 = Done (Listing []) w1)
    ∧ (∀ req, mountpoint_of req ≠ "" →
              mkdirall_err w (realMountpoint driver req) = None →
              ∃ w2,
                Create driver req w1
                = Panicked "assignment to entry in nil map" w2
                ∧ EvMkdirAll (realMountpoint driver req) 493 ∈ trace w2
                ∧ volumes w2 = NilMap).
Proof.
  intros Hr Hf Hd. rewrite restart_eq, Hr, Hf, Hd. cbn [State].
  eexists. split; [reflexivity|]. split; [reflexivity|]. split.
  - intros req. split; [rewrite Get_eq|]; reflexivity.
  - intros req Hmp Hmk. rewrite Create_eq.
    rewrite (eqb_empty_false _ Hmp). cbn [volumes after].
    change (index NilMap (Request.Name req)) with "". cbn [String.eqb negb].
    cbn [mkdirall_err after]. rewrite Hmk.
    eexists. split; [reflexivity|]. split; [|reflexivity].
    cbn. rewrite !elem_of_app. right.
    apply list_elem_of_further, list_elem_of_here.
Qed.

(** X26, an instance: the state file is the empty object. *)
Lemma startup_with_empty_object :
  ∃ w1 w2,
    restart the_driver
      (world (Map ∅) {[ statefile the_driver := "{}" ]} quiet_daemon None)
    = Done the_driver w1
    ∧ volumes w1 = NilMap
    ∧ Create the_driver vol1_request w1
      = Panicked "assignment to entry in nil map" w2.
Proof.
  destruct (startup_with_nil_state the_driver
              (world (Map ∅) {[ statefile the_driver := "{}" ]}
                     quiet_daemon None) "{}")
    as (w1 & H1 & H2 & _ & H4).
  - reflexivity.
  - reflexivity.
  - reflexivity.
  - destruct (H4 vol1_request) as (w2 & H5 & _).
    + vm_compute. discriminate.
    + reflexivity.
    + exists w1, w2. split; [exact H1|]. split; [exact H2 | exact H5].
Defined.
